(** * The batch inference runners [run_gemini_hr.py] and [run_gemini_swe.py]

    A shallow embedding of the two entry points of the audit pipeline and of
    the helpers they share, followed by the properties of the runner that
    the specification states.

    Conventions of the embedding.
    - A Python [str] is a Rocq [string]: a sequence of characters with code
      points U+0000 to U+00FF (one [ascii] each).  Text with code points
      above U+00FF is outside the model.
    - Python integers are [Z]; [//] and [%] are [Z.div] and [Z.modulo], which
      round towards minus infinity like Python's.  The cap that recent
      interpreters put by default on the number of digits [int] converts
      (4300, [sys.set_int_max_str_digits]) is not modelled.
    - A Python exception is a value of [exn]; pure code that can raise
      returns a [result], effectful code runs in the monad [M] below.  Only
      exceptions of class [Exception] are values of [exn]; what ends the
      process from outside ([KeyboardInterrupt], a signal) is a kill.
    - The two scripts share the directory [outputs/runs] but use disjoint
      file names (the role tag is part of every name), so each runner is
      given the files of its own role. *)

From Stdlib Require Import ZArith QArith Ascii.
From Stdlib Require String.
From stdpp Require Import gmap strings list pretty sorting.

Open Scope Z_scope.

(** ** Exceptions and results *)

Inductive exn : Type :=
| RuntimeError (msg : string)
| ValueError (msg : string)
| KeyError (key : string)
| ZeroDivisionError
| ServiceError (msg : string).
(* [ServiceError]: any [Exception] raised by the client library during
   [generate_content(...).text] (transport, quota, blocked answer). *)

Inductive result (A : Type) : Type :=
| Ret (a : A)
| Exc (e : exn).
Arguments Ret {A} a.
Arguments Exc {A} e.

Definition rbind {A B} (r : result A) (f : A → result B) : result B :=
  match r with Ret a => f a | Exc e => Exc e end.

Global Instance result_ret : MRet result := @Ret.
Global Instance result_bind : MBind result := λ A B f r, rbind r f.

(** ** Characters and strings as Python sees them *)

Module Py.

(** Value of a decimal digit, [None] for any other character.  In the
    range U+0000..U+00FF the characters matched by [\d] and accepted by
    [int] are exactly "0".."9". *)
Definition digit_val (c : ascii) : option Z :=
  let n := Z.of_N (N_of_ascii c) in
  if (48 <=? n) && (n <=? 57) then Some (n - 48) else None.

Definition is_digit (c : ascii) : bool :=
  match digit_val c with Some _ => true | None => false end.

(** [str.isspace] on one character, for code points below 256. *)
Definition is_space (c : ascii) : bool :=
  let n := N_of_ascii c in
  ((9 <=? n) && (n <=? 13) || (28 <=? n) && (n <=? 32)
   || (n =? 133) || (n =? 160))%N.

(** Lower-casing of one character, for code points below 256 (what the
    regular expression engine applies under [re.I]). *)
Definition lower (c : ascii) : ascii :=
  let n := N_of_ascii c in
  if ((65 <=? n) && (n <=? 90)
      || (192 <=? n) && (n <=? 222) && negb (n =? 215))%N
  then ascii_of_N (n + 32) else c.

Fixpoint lstrip (s : string) : string :=
  match s with
  | String a s' => if is_space a then lstrip s' else s
  | EmptyString => EmptyString
  end.

Fixpoint rstrip (s : string) : string :=
  match s with
  | String a s' =>
      match rstrip s' with
      | EmptyString => if is_space a then EmptyString else String a EmptyString
      | r => String a r
      end
  | EmptyString => EmptyString
  end.

(** [s.strip()] *)
Definition strip (s : string) : string := rstrip (lstrip s).

(** [int(s)] for a string of decimal digits.  The only callers pass
    matches of [\d+]; on any other string the model answers [ValueError]
    (Python also accepts signs, padding and underscores, which [\d+]
    never yields). *)
Fixpoint int_go (acc : Z) (s : string) : result Z :=
  match s with
  | EmptyString => Ret acc
  | String a s' =>
      match digit_val a with
      | Some d => int_go (10 * acc + d) s'
      | None => Exc (ValueError "invalid literal for int()")
      end
  end.

Definition int (s : string) : result Z :=
  match s with
  | EmptyString => Exc (ValueError "invalid literal for int()")
  | _ => int_go 0 s
  end.

(** [s.startswith(p)], answering the rest of [s] after [p]. *)
Fixpoint strip_prefix (p s : string) : option string :=
  match p, s with
  | EmptyString, _ => Some s
  | String a p', String b s' =>
      if decide (a = b) then strip_prefix p' s' else None
  | String _ _, EmptyString => None
  end.

(** [s.replace(old, new)] for a non-empty [old]: occurrences are replaced
    from left to right and do not overlap.  [skip] counts the characters
    of an occurrence that are still to be dropped. *)
Fixpoint replace_go (old new : string) (skip : nat) (s : string) : string :=
  match s with
  | EmptyString => EmptyString
  | String a s' =>
      match skip with
      | S k => replace_go old new k s'
      | O =>
          match strip_prefix old s with
          | Some _ => new +:+ replace_go old new (String.length old - 1) s'
          | None => String a (replace_go old new O s')
          end
      end
  end.

Definition replace (s old new : string) : string := replace_go old new O s.

(** [sep.join(parts)] *)
Fixpoint join (sep : string) (parts : list string) : string :=
  match parts with
  | [] => EmptyString
  | [p] => p
  | p :: ps => p +:+ sep +:+ join sep ps
  end.

(** [c * n] for a one-character string [c] *)
Fixpoint repeat_char (c : ascii) (n : nat) : string :=
  match n with O => EmptyString | S k => String c (repeat_char c k) end.

(** [s.split(sep)] for a one-character separator: always at least one
    field, empty fields kept. *)
Fixpoint split (sep : ascii) (s : string) : list string :=
  match s with
  | EmptyString => [EmptyString]
  | String a s' =>
      if decide (a = sep) then EmptyString :: split sep s'
      else match split sep s' with
           | f :: fs => String a f :: fs
           | [] => [String a EmptyString]
           end
  end.

End Py.

(** ** The fragment of [re] the runners use

    Patterns are sequences of atoms; this covers the four patterns of the
    two scripts.  Matching is by backtracking with the priorities of
    Python's engine: a lazy [.*?] tries the rest of the pattern before
    consuming a character, a greedy [\d+] consumes first. *)

Module Re.

Inductive atom : Type :=
| Lit (c : ascii)   (* a literal character *)
| Digit             (* \d *)
| Digits1           (* \d+ *)
| LazyAny           (* .*? *)
| CapLazyAny.       (* (.*?) : the same inside a capturing group *)

Record flags : Type := { IGNORECASE : bool; DOTALL : bool }.

Definition no_flags : flags := {| IGNORECASE := false; DOTALL := false |}.
(* re.S|re.I *)
Definition S_I : flags := {| IGNORECASE := true; DOTALL := true |}.

Definition lits (s : string) : list atom :=
  Lit <$> String.list_ascii_of_string s.

Definition lit_ok (fl : flags) (c a : ascii) : bool :=
  if IGNORECASE fl then bool_decide (Py.lower a = Py.lower c)
  else bool_decide (a = c).

(* "." matches everything but a newline unless DOTALL is set *)
Definition dot_ok (fl : flags) (a : ascii) : bool :=
  DOTALL fl || negb (bool_decide (a = "010"%char)).

(** A match: the matched text, the captured groups in order, and the
    text after the match. *)
Definition mres : Type := string * list string * string.

Definition cons_m (a : ascii) (r : option mres) : option mres :=
  match r with
  | Some (m, gs, rest) => Some (String a m, gs, rest)
  | None => None
  end.

Fixpoint greedy_digits (k : string → option mres) (s : string) : option mres :=
  match s with
  | String a s' =>
      if Py.is_digit a then
        match greedy_digits k s' with
        | Some r => cons_m a (Some r)
        | None => k s
        end
      else k s
  | EmptyString => k s
  end.

Fixpoint lazy_any (fl : flags) (k : string → option mres) (s : string)
  : option (string * mres) :=
  match k s with
  | Some r => Some (EmptyString, r)
  | None =>
      match s with
      | String a s' =>
          if dot_ok fl a then
            match lazy_any fl k s' with
            | Some (c, r) => Some (String a c, r)
            | None => None
            end
          else None
      | EmptyString => None
      end
  end.

(** The pattern matched at the start of [s]. *)
Fixpoint match_here (fl : flags) (r : list atom) : string → option mres :=
  match r with
  | [] => λ s, Some (EmptyString, [], s)
  | Lit c :: r' => λ s,
      match s with
      | String a s' => if lit_ok fl c a then cons_m a (match_here fl r' s') else None
      | EmptyString => None
      end
  | Digit :: r' => λ s,
      match s with
      | String a s' => if Py.is_digit a then cons_m a (match_here fl r' s') else None
      | EmptyString => None
      end
  | Digits1 :: r' => λ s,
      match s with
      | String a s' =>
          if Py.is_digit a then cons_m a (greedy_digits (match_here fl r') s')
          else None
      | EmptyString => None
      end
  | LazyAny :: r' => λ s,
      match lazy_any fl (match_here fl r') s with
      | Some (c, (m, gs, rest)) => Some (c +:+ m, gs, rest)
      | None => None
      end
  | CapLazyAny :: r' => λ s,
      match lazy_any fl (match_here fl r') s with
      | Some (c, (m, gs, rest)) => Some (c +:+ m, c :: gs, rest)
      | None => None
      end
  end.

(** [re.search]: the first position, from the left, where the pattern
    matches. *)
Fixpoint search (fl : flags) (r : list atom) (s : string) : option mres :=
  match match_here fl r s with
  | Some x => Some x
  | None =>
      match s with
      | String _ s' => search fl r s'
      | EmptyString => None
      end
  end.

(** [re.findall] for a pattern without groups whose matches are never
    empty (the only use is [\d+]): scanning resumes where the previous
    match ended.  The fuel is the number of characters left, plus one. *)
Fixpoint findall_go (fuel : nat) (fl : flags) (r : list atom) (s : string)
  : list string :=
  match fuel with
  | O => []
  | S n =>
      match search fl r s with
      | Some (m, _, rest) => m :: findall_go n fl r rest
      | None => []
      end
  end.

Definition findall (fl : flags) (r : list atom) (s : string) : list string :=
  findall_go (S (String.length s)) fl r s.

End Re.

(** ** Data model *)

(** A JSON scalar, as the persona files hold them. *)
Inductive json : Type :=
| JNull
| JBool (b : bool)
| JInt (z : Z)
| JStr (s : string).

(** [str(v)], which is what an f-string applies to [v]. *)
Definition py_str (v : json) : string :=
  match v with
  | JNull => "None"
  | JBool true => "True"
  | JBool false => "False"
  | JInt z => pretty z
  | JStr s => s
  end.

(** One entry of [batch_variants.json]. *)
Record variant : Type := {
  variant_id : string;
  persona_ids : list string
}.

(** One line of the run log (an Invocation Record). *)
Record record : Type := {
  scenario_id : string;
  role : string;
  prompt_style : string;
  rec_persona_ids : list string;
  persona_meta : list (list (string * json));
  prompt_text : string;
  response_text : string;
  rationale_text : string;
  selection_line : string;
  selected_persona_ids : list string;
  timestamp_utc : string
}.

(** What the scripts read at import time. *)
Record inputs : Type := {
  variants : list variant;                    (* batch_variants.json *)
  id2p : gmap string (gmap string json);      (* persona_id -> persona *)
  style_items : list (string * string)        (* list(templates.items()) *)
}.

Definition NL : string := String "010"%char EmptyString.

(** ** Constants common to both scripts *)

Definition MAX_RETRIES : Z := 3.
(* 1.5: the powers 1.5**1 and 1.5**2 that are slept are exact in binary
   floating point, so the rationals below are the very values passed to
   [time.sleep]. *)
Definition BACKOFF_BASE : Q := 3 # 2.
(* 2.1, the decimal constant of the source *)
Definition DELAY_SECONDS : Q := 21 # 10.
Definition PROMPTS_PER_KEY : Z := 450.

(** ** Helpers that both scripts define alike *)

(** [len(l)] *)
Definition len {A} (l : list A) : Z := Z.of_nat (length l).

(** The start-up block: [KEY_LIST] from the environment variable
    [GOOGLE_API_KEYS] (absent: the default [""]), then the check on its
    length. *)
Definition read_key_list (env : option string) : list string :=
  let raw := default EmptyString env in
  filter (λ k, k ≠ EmptyString) (Py.strip <$> Py.split ","%char raw).

Definition check_key_list (keys : list string) : result (list string) :=
  if len keys <? 2
  then Exc (RuntimeError "Need at least two keys in GOOGLE_API_KEYS")
  else Ret keys.

(** [pick_api_key], with the key list and the block size as arguments.
    [block % len(KEY_LIST)] raises on an empty list; otherwise the result
    of [%] is a valid index, never negative. *)
Definition key_slot (n_keys block_size idx : Z) : Z :=
  let block := (idx - 1) / block_size in
  block mod n_keys.

Definition pick_api_key_with (keys : list string) (block_size idx : Z)
  : result string :=
  if len keys =? 0 then Exc ZeroDivisionError
  else
    match keys !! Z.to_nat (key_slot (len keys) block_size idx) with
    | Some k => Ret k
    | None => Exc (RuntimeError "IndexError")
    end.

Definition pick_api_key (keys : list string) (idx : Z) : result string :=
  pick_api_key_with keys PROMPTS_PER_KEY idx.

(** [parse_selection].  The body of its loop, one step for each number
    found ([run_gemini_swe.py] nests the two tests that [run_gemini_hr.py]
    joins with [and]; the steps are the same): *)
Definition select_step (pids : list string) (sel : result (list string))
  (n : string) : result (list string) :=
  sel ← sel;
  v ← Py.int n;
  let i := v - 1 in
  if bool_decide (0 ≤ i < len pids) then
    match pids !! Z.to_nat i with
    | Some pid => if bool_decide (pid ∈ sel) then Ret sel else Ret (sel ++ [pid])
    | None => Exc (RuntimeError "IndexError")
    end
  else Ret sel.

Definition parse_selection (line : string) (pids : list string)
  : result (list string) :=
  let nums := Re.findall Re.no_flags [Re.Digits1] line in
  foldl (select_step pids) (Ret []) nums.

(** [re.compile(r"<explanation>(.*?)</explanation>.*?<top-3>(.*?)</top-3>", re.S|re.I)] *)
Definition EXPL_RE : list Re.atom :=
  Re.lits "<explanation>" ++ [Re.CapLazyAny] ++ Re.lits "</explanation>"
  ++ [Re.LazyAny] ++ Re.lits "<top-3>" ++ [Re.CapLazyAny] ++ Re.lits "</top-3>".

(** ** run_gemini_hr.py, the pure part *)

Module HR.

Definition ROLE_TAG : string := "hr".
Definition DRY_RUN_LIMIT : Z := 5.

(* re.compile(r"<explanation>.*?</explanation>.*?<top-3>.*?\d", re.S|re.I) *)
Definition TAG_RE : list Re.atom :=
  Re.lits "<explanation>" ++ [Re.LazyAny] ++ Re.lits "</explanation>"
  ++ [Re.LazyAny] ++ Re.lits "<top-3>" ++ [Re.LazyAny; Re.Digit].

(* [if not TAG_RE.search(txt): raise ValueError(...)] accepts [txt] when: *)
Definition shape_ok (txt : string) : bool :=
  bool_decide (is_Some (Re.search Re.S_I TAG_RE txt)).

(* lines 109-110 of main *)
Definition render_prompt (tpl block : string) : string :=
  Py.replace tpl "{{candidates_block}}" block
  +:+ NL +:+ NL +:+ "Please add a brief rationale.".

(* lines 115-121 of main: (rat, selb, sel_ids) from resp *)
Definition extract (resp : string) (pids : list string)
  : result (string * string * list string) :=
  if bool_decide (resp ≠ EmptyString) then
    let '(rat, selb) :=
      match Re.search Re.S_I EXPL_RE resp with
      | Some (_, [g1; g2], _) => (Py.strip g1, Py.strip g2)
      | _ => (EmptyString, resp)
      end in
    sel_ids ← parse_selection selb pids;
    Ret (rat, selb, sel_ids)
  else Ret (EmptyString, EmptyString, []).

End HR.

(** ** run_gemini_swe.py, the pure part *)

Module SWE.

Definition ROLE_TAG : string := "swe".
Definition DRY_RUN_LIMIT : Z := 1.

Definition split_response (txt : string) : string * string :=
  match Re.search Re.S_I EXPL_RE txt with
  | Some (_, [g1; g2], _) => (Py.strip g1, Py.strip g2)
  | _ => (EmptyString, txt)
  end.

(* [if not re.search(r"\d", text): raise ValueError(...)] accepts [text] when: *)
Definition shape_ok (text : string) : bool :=
  bool_decide (is_Some (Re.search Re.no_flags [Re.Digit] text)).

(* line 126 of main *)
Definition render_prompt (tmpl block : string) : string :=
  Py.replace tmpl "{{candidates_block}}" block.

(* lines 130-131 of main *)
Definition extract (resp : string) (pids : list string)
  : result (string * string * list string) :=
  let '(rat, selb) := split_response resp in
  sel_ids ← parse_selection selb pids;
  Ret (rat, selb, sel_ids).

End SWE.

(** ** The world outside the process

    The durable state is the directory [outputs/runs] as one role sees it:
    its run logs, keyed by the time stamp in their name, and its checkpoint
    file.  A line of a log is kept together with the [idx_global] of the
    loop iteration that wrote it; the index is not part of the line on
    disk, it is recorded here to state the accounting properties. *)

Record disk : Type := {
  logs : gmap string (list (Z * record));   (* <role>_run_<ts>.jsonl *)
  cp_file : option (gmap string Z)          (* .last_checkpoint_<role>.json *)
}.

(** The operations that change the directory. *)
Inductive diskop : Type :=
| OpOpen (ts : string)                       (* RUN_LOG.open("a") *)
| OpAppend (ts : string) (idx : Z) (r : record)  (* write(line); flush() *)
| OpSaveCP (n : Z)                           (* CP_FILE.write_text({"done": n}) *)
| OpUnlink.                                  (* CP_FILE.unlink() *)

Definition file_lines (d : disk) (ts : string) : list (Z * record) :=
  default [] (logs d !! ts).

Definition apply_op (op : diskop) (d : disk) : disk :=
  match op with
  | OpOpen ts =>
      {| logs := <[ts := file_lines d ts]> (logs d); cp_file := cp_file d |}
  | OpAppend ts idx r =>
      {| logs := <[ts := file_lines d ts ++ [(idx, r)]]> (logs d);
         cp_file := cp_file d |}
  | OpSaveCP n =>
      {| logs := logs d; cp_file := Some {["done" := n]} |}
  | OpUnlink =>
      {| logs := logs d; cp_file := None |}
  end.

(** Everything the process does that can be seen from outside, in order. *)
Inductive event : Type :=
| EvConfigure (api_key : string)        (* genai.configure(api_key=...) *)
| EvGenerate (prompt : string)          (* generate_content(prompt, ...) *)
| EvWarning (attempt : Z) (e : exn)     (* logging.warning("[retry ...] e") *)
| EvSleep (secs : Q)                    (* time.sleep *)
| EvDisk (op : diskop)
| EvPrint (done total : Z) (scenario : string)
    (status : option (list string)) (key_no : Z)
| EvInfo (done total : Z).              (* logging.info(run complete) *)

(** What the service answers to one request. *)
Inductive reply : Type :=
| Text (s : string)      (* [.text] of the response *)
| Fails (e : exn).       (* the call raised *)

(** The environment of one process.  The service and the clock are
    arbitrary functions of everything that happened so far (the request
    being answered is the last event), which covers any behaviour of the
    network.  [ts] is the time stamp taken at import. *)
Record env : Type := {
  svc : list event → reply;
  now : list event → string;
  ts : string
}.

(** The state threaded through a process: the directory, the history, and
    how many more operations on the directory the process performs before
    it is killed ([None]: it is not killed).  A kill at any other moment
    leaves the directory as a kill before the next operation does. *)
Record world : Type := {
  dsk : disk;
  hist : list event;
  kill : option nat
}.

(** ** The monad of the runner: state, exceptions, and being killed *)

Inductive outcome (A : Type) : Type :=
| Done (a : A) (w : world)
| Raised (e : exn) (w : world)          (* a Python exception on its way up *)
| Killed (op : diskop) (w : world).     (* killed when about to perform [op] *)
Arguments Done {A} a w.
Arguments Raised {A} e w.
Arguments Killed {A} op w.

Definition M (A : Type) : Type := world → outcome A.

Definition ret {A} (a : A) : M A := λ w, Done a w.

Definition bind {A B} (m : M A) (f : A → M B) : M B := λ w,
  match m w with
  | Done a w' => f a w'
  | Raised e w' => Raised e w'
  | Killed op w' => Killed op w'
  end.

Global Instance M_ret : MRet M := @ret.
Global Instance M_bind : MBind M := λ A B f m, bind m f.

Definition raise {A} (e : exn) : M A := λ w, Raised e w.

(** [try: m  except Exception as e: ...]: an exception becomes a value; a
    kill is not caught. *)
Definition try_ {A} (m : M A) : M (result A) := λ w,
  match m w with
  | Done a w' => Done (Ret a) w'
  | Raised e w' => Done (Exc e) w'
  | Killed op w' => Killed op w'
  end.

Definition lift {A} (r : result A) : M A :=
  match r with Ret a => ret a | Exc e => raise e end.

Definition emit (ev : event) : M unit := λ w,
  Done tt {| dsk := dsk w; hist := hist w ++ [ev]; kill := kill w |}.

Definition durable (op : diskop) : M unit := λ w,
  match kill w with
  | Some O => Killed op w
  | k =>
      Done tt {| dsk := apply_op op (dsk w);
                 hist := hist w ++ [EvDisk op];
                 kill := pred <$> k |}
  end.

Definition get_disk : M disk := λ w, Done (dsk w) w.
Definition get_hist : M (list event) := λ w, Done (hist w) w.

(** ** The runner

    The two scripts are the same program up to the items gathered in a
    [script]; [HRrun.script] and [SWErun.script] below give them.  The
    definitions of this section follow the text of [run_gemini_hr.py],
    whose names they keep. *)

Record script : Type := {
  sc_role : string;                   (* ROLE_TAG / the literal "swe" *)
  sc_resume : string;                 (* "resume_hr" / "resume_swe" *)
  sc_needs_dotenv : bool;             (* does the script insist on a .env file *)
  sc_dry_run_limit : Z;               (* DRY_RUN_LIMIT *)
  sc_shape_ok : string → bool;        (* the check made on each answer *)
  sc_shape_error : string;            (* the message of its ValueError *)
  sc_render_prompt : string → string → string;
  sc_extract : string → list string → result (string * string * list string)
}.

(** [range(lo, hi)] *)
Definition py_range (lo hi : Z) : list Z := seqZ lo (hi - lo).

Definition META_KEYS : list string :=
  ["persona_id"; "gender"; "race"; "religion"; "class"; "lgbtq"; "marginalized"].

(** The value stored by [save_checkpoint], as [load_checkpoint] reads it:
    [json.loads(...).get("done", 0)] if the file exists, else [0]. *)
Definition checkpoint_of (d : disk) : Z :=
  match cp_file d with
  | Some obj => default 0 (obj !! "done")
  | None => 0
  end.

Section Runner.

Context (sc : script) (KEY_LIST : list string) (inp : inputs) (e : env).

(** [genai.GenerativeModel(MODEL_NAME).generate_content(prompt, ...).text.strip()] *)
Definition generate (prompt : string) : M string :=
  emit (EvGenerate prompt);;
  h ← get_hist;
  match svc e h with
  | Text s => mret (Py.strip s)
  | Fails x => raise x
  end.

(** The body of the [try]. *)
Definition attempt_once (prompt : string) : M string :=
  txt ← generate prompt;
  if sc_shape_ok sc txt then mret txt
  else raise (ValueError (sc_shape_error sc)).

(** [for attempt in ...: try: ... except Exception as e: ...], then
    [return ""]. *)
Fixpoint retry_loop (prompt : string) (attempts : list Z) : M string :=
  match attempts with
  | [] => mret EmptyString
  | attempt :: rest =>
      r ← try_ (attempt_once prompt);
      match r with
      | Ret txt => mret txt
      | Exc x =>
          emit (EvWarning attempt x);;
          (if bool_decide (attempt < MAX_RETRIES)
           then emit (EvSleep (BACKOFF_BASE ^ attempt))
           else mret tt);;
          retry_loop prompt rest
      end
  end.

(** [call_model] ([call_gemini] in the other script) *)
Definition call_model (prompt api_key : string) : M string :=
  emit (EvConfigure api_key);;
  retry_loop prompt (py_range 1 (MAX_RETRIES + 1)).

Definition load_checkpoint : M Z :=
  d ← get_disk; mret (checkpoint_of d).

Definition save_checkpoint (n : Z) : M unit := durable (OpSaveCP n).

(** [id2p[p][field]] rendered by the f-string *)
Definition resume_text (pid : string) : result string :=
  match id2p inp !! pid with
  | None => Exc (KeyError pid)
  | Some p =>
      match p !! sc_resume sc with
      | None => Exc (KeyError (sc_resume sc))
      | Some v => Ret (py_str v)
      end
  end.

(** The block of candidates of one variant. *)
Definition candidates_block (var : variant) : result string :=
  txts ← mapM resume_text (persona_ids var);
  Ret (Py.join (NL +:+ Py.repeat_char "-" 80 +:+ NL)
         (imap (λ i txt, "### Candidate " +:+ pretty (Z.of_nat i + 1) +:+ NL +:+ txt)
               txts)).

(** [meta]: the seven attributes of each persona, [p.get(k)] each. *)
Definition persona_meta_of (var : variant) : result (list (list (string * json))) :=
  mapM (λ pid,
          match id2p inp !! pid with
          | None => Exc (KeyError pid)
          | Some p => Ret ((λ k, (k, default JNull (p !! k))) <$> META_KEYS)
          end)
       (persona_ids var).

(** [KEY_LIST.index(api_key) + 1] *)
Definition key_number (api_key : string) : result Z :=
  match list_find (λ k, k = api_key) KEY_LIST with
  | Some (i, _) => Ret (Z.of_nat i + 1)
  | None => Exc (ValueError "is not in list")
  end.

Definition total : Z := len (variants inp) * len (style_items inp).

(** One iteration of the inner loop; answers the new value of [done]. *)
Definition scenario_step (var : variant) (block : string) (vi si : Z)
  (style_key tpl : string) (done : Z) : M Z :=
  let idx_global := (vi - 1) * len (style_items inp) + si in
  if bool_decide (idx_global ≤ done) then mret done   (* continue *)
  else
    let prompt := sc_render_prompt sc tpl block in
    let scenario := variant_id var +:+ "_" +:+ style_key +:+ "_" +:+ sc_role sc in
    api_key ← lift (pick_api_key KEY_LIST idx_global);
    resp ← call_model prompt api_key;
    '(rat, selb, sel_ids) ← lift (sc_extract sc resp (persona_ids var));
    meta ← lift (persona_meta_of var);
    h ← get_hist;
    let rec := {|
      scenario_id := scenario;
      role := sc_role sc;
      prompt_style := style_key;
      rec_persona_ids := persona_ids var;
      persona_meta := meta;
      prompt_text := prompt;
      response_text := resp;
      rationale_text := rat;
      selection_line := selb;
      selected_persona_ids := sel_ids;
      timestamp_utc := now e h
    |} in
    durable (OpAppend (ts e) idx_global rec);;
    let done := idx_global in
    save_checkpoint done;;
    key_no ← lift (key_number api_key);
    emit (EvPrint done total scenario
            (if bool_decide (resp ≠ EmptyString) then Some sel_ids else None)
            key_no);;
    emit (EvSleep DELAY_SECONDS);;
    mret done.

Fixpoint style_loop (var : variant) (block : string) (vi si : Z)
  (items : list (string * string)) (done : Z) : M Z :=
  match items with
  | [] => mret done
  | (style_key, tpl) :: rest =>
      done ← scenario_step var block vi si style_key tpl done;
      style_loop var block vi (si + 1) rest done
  end.

Fixpoint variant_loop (dry_run : bool) (vi : Z) (vars : list variant)
  (done : Z) : M Z :=
  match vars with
  | [] => mret done
  | var :: rest =>
      if dry_run && bool_decide (sc_dry_run_limit sc < vi) then mret done  (* break *)
      else
        block ← lift (candidates_block var);
        done ← style_loop var block vi 1 (style_items inp) done;
        variant_loop dry_run (vi + 1) rest done
  end.

Definition main (dry_run : bool) : M unit :=
  done ← load_checkpoint;
  durable (OpOpen (ts e));;
  done ← variant_loop dry_run 1 (variants inp) done;
  emit (EvInfo done total);;
  d ← get_disk;
  if bool_decide (total ≤ done) && bool_decide (is_Some (cp_file d))
  then durable OpUnlink
  else mret tt.

End Runner.

(** The process from its first line.  [dotenv_exists] tells whether the
    file [.env] is there, [keys_env] is [os.getenv("GOOGLE_API_KEYS")] once
    that file has been loaded.  Both checks come before anything else is
    read or done.  (The message of the first error is shortened to its
    ASCII part.) *)
Definition startup (sc : script) (dotenv_exists : bool)
  (keys_env : option string) : result (list string) :=
  if sc_needs_dotenv sc && negb dotenv_exists
  then Exc (RuntimeError ".env missing")
  else check_key_list (read_key_list keys_env).

Definition program (sc : script) (dotenv_exists : bool)
  (keys_env : option string) (inp : inputs) (e : env) (dry_run : bool)
  : M unit :=
  keys ← lift (startup sc dotenv_exists keys_env);
  main sc keys inp e dry_run.

Module HRrun.
Definition script : script := {|
  sc_role := HR.ROLE_TAG;
  sc_resume := "resume_hr";
  sc_needs_dotenv := false;
  sc_dry_run_limit := HR.DRY_RUN_LIMIT;
  sc_shape_ok := HR.shape_ok;
  sc_shape_error := "Missing tags or digits";
  sc_render_prompt := HR.render_prompt;
  sc_extract := HR.extract
|}.
Definition call_model := call_model script.
(* [if __name__ == "__main__": main(dry_run=False)] *)
Definition main := main script.
End HRrun.

Module SWErun.
Definition script : script := {|
  sc_role := SWE.ROLE_TAG;
  sc_resume := "resume_swe";
  sc_needs_dotenv := true;
  sc_dry_run_limit := SWE.DRY_RUN_LIMIT;
  sc_shape_ok := SWE.shape_ok;
  (* the dash of the source is U+2013, outside the range of the model *)
  sc_shape_error := "No digit found - parse error";
  sc_render_prompt := SWE.render_prompt;
  sc_extract := SWE.extract
|}.
Definition call_gemini := call_model script.
Definition main := main script.
End SWErun.

(** ** Definitions that follow the words of the specification

    These are not taken from the scripts: they say, independently of the
    code, what the specification describes, and the theorems compare them
    with the code. *)

Module Spec.

(** All characters of [s] satisfy [P]. *)
Fixpoint str_all (P : ascii → bool) (s : string) : bool :=
  match s with
  | EmptyString => true
  | String a s' => P a && str_all P s'
  end.

(** "All integer substrings in left-to-right order": the maximal runs of
    decimal digits.  [cur] is the run being read. *)
Fixpoint digit_runs (cur : string) (s : string) : list string :=
  match s with
  | EmptyString => match cur with EmptyString => [] | _ => [cur] end
  | String a s' =>
      if Py.is_digit a then digit_runs (cur +:+ String a EmptyString) s'
      else match cur with EmptyString => [] | _ => [cur] end
           ++ digit_runs EmptyString s'
  end.

Definition integer_substrings (s : string) : list string :=
  digit_runs EmptyString s.

(** The longest prefix of digits of [s], and what follows it. *)
Fixpoint span_digits (s : string) : string * string :=
  match s with
  | String a s' =>
      if Py.is_digit a
      then let '(run, rest) := span_digits s' in (String a run, rest)
      else (EmptyString, s)
  | EmptyString => (EmptyString, EmptyString)
  end.

(** The number a string of digits denotes. *)
Fixpoint decimal_value_go (acc : Z) (s : string) : Z :=
  match s with
  | EmptyString => acc
  | String a s' => decimal_value_go (10 * acc + default 0 (Py.digit_val a)) s'
  end.

Definition decimal_value (s : string) : Z := decimal_value_go 0 s.

(** "Each integer n is interpreted as a 1-based display position into
    persona_ids; out-of-range positions are silently dropped". *)
Definition resolve (pids : list string) (n : Z) : option string :=
  if bool_decide (1 ≤ n ≤ len pids) then pids !! Z.to_nat (n - 1) else None.

(** "Duplicates are collapsed to first occurrence (order of first mention
    is preserved)". *)
Fixpoint first_occurrences (l : list string) : list string :=
  match l with
  | [] => []
  | x :: l' => x :: filter (λ y, y ≠ x) (first_occurrences l')
  end.

Definition selection (line : string) (pids : list string) : list string :=
  first_occurrences
    (omap (resolve pids) (decimal_value <$> integer_substrings line)).

(** [t'] is the tag [t] up to the case of letters. *)
Fixpoint same_tag (t t' : string) : Prop :=
  match t, t' with
  | EmptyString, EmptyString => True
  | String c t1, String a t1' => Py.lower a = Py.lower c ∧ same_tag t1 t1'
  | _, _ => False
  end.

(** "The two-tag structural contract (an explanation region followed by
    a short-list region)": [txt] holds an explanation element with
    content [g1] and, after it, a top-3 element with content [g2]. *)
Definition two_tags (txt g1 g2 : string) : Prop :=
  ∃ pre t1 t2 mid t3 t4 post,
    txt = pre +:+ t1 +:+ g1 +:+ t2 +:+ mid +:+ t3 +:+ g2 +:+ t4 +:+ post
    ∧ same_tag "<explanation>" t1 ∧ same_tag "</explanation>" t2
    ∧ same_tag "<top-3>" t3 ∧ same_tag "</top-3>" t4.

(** A text without an opening brace, hence without a placeholder. *)
Definition no_brace (s : string) : Prop :=
  str_all (λ a, negb (bool_decide (a = "{"%char))) s = true.

(** "At least one digit". *)
Definition has_digit (txt : string) : Prop :=
  ∃ pre d post, txt = pre +:+ String d post ∧ Py.is_digit d = true.

(** "Presence of expected structural markers": the three tags that the
    pattern of the HR script names, in order. *)
Definition has_markers (txt : string) : Prop :=
  ∃ pre t1 x t2 y t3 post,
    txt = pre +:+ t1 +:+ x +:+ t2 +:+ y +:+ t3 +:+ post
    ∧ same_tag "<explanation>" t1 ∧ same_tag "</explanation>" t2
    ∧ same_tag "<top-3>" t3.

(** The markers, and a digit somewhere after the last of them. *)
Definition has_markers_then_digit (txt : string) : Prop :=
  ∃ pre t1 x t2 y t3 z d post,
    txt = pre +:+ t1 +:+ x +:+ t2 +:+ y +:+ t3 +:+ z +:+ String d post
    ∧ same_tag "<explanation>" t1 ∧ same_tag "</explanation>" t2
    ∧ same_tag "<top-3>" t3 ∧ Py.is_digit d = true.

End Spec.

(** What it means for a pattern to match a text, with the groups it
    captures: the declarative reading of the atoms. *)
Inductive Matches (fl : Re.flags) : list Re.atom → string → list string → Prop :=
| M_nil : Matches fl [] EmptyString []
| M_lit c a r m gs :
    Re.lit_ok fl c a = true → Matches fl r m gs →
    Matches fl (Re.Lit c :: r) (String a m) gs
| M_digit a r m gs :
    Py.is_digit a = true → Matches fl r m gs →
    Matches fl (Re.Digit :: r) (String a m) gs
| M_digits a ds r m gs :
    Py.is_digit a = true → Spec.str_all Py.is_digit ds = true →
    Matches fl r m gs →
    Matches fl (Re.Digits1 :: r) (String a (ds +:+ m)) gs
| M_lazy c r m gs :
    Spec.str_all (Re.dot_ok fl) c = true → Matches fl r m gs →
    Matches fl (Re.LazyAny :: r) (c +:+ m) gs
| M_cap c r m gs :
    Spec.str_all (Re.dot_ok fl) c = true → Matches fl r m gs →
    Matches fl (Re.CapLazyAny :: r) (c +:+ m) (c :: gs).

(** ** Reading the history of a process *)

(** The texts sent to the service, the attempts that were logged as
    failed, and the pauses, in order. *)
Definition requests (evs : list event) : list string :=
  omap (λ ev, match ev with EvGenerate p => Some p | _ => None end) evs.

Definition failed_attempts (evs : list event) : list Z :=
  omap (λ ev, match ev with EvWarning a _ => Some a | _ => None end) evs.

Definition pauses (evs : list event) : list Q :=
  omap (λ ev, match ev with EvSleep q => Some q | _ => None end) evs.

(** A world after events that do not touch the directory. *)
Definition add_events (w : world) (evs : list event) : world :=
  {| dsk := dsk w; hist := hist w ++ evs; kill := kill w |}.

(** The service never gives an acceptable answer. *)
Definition always_fails (sc : script) (e : env) : Prop :=
  ∀ h, match svc e h with
       | Text s => sc_shape_ok sc (Py.strip s) = false
       | Fails _ => True
       end.

(** The history of the retry loop over the attempts [attempts]: it ends
    with an accepted answer or with the attempts exhausted, and every
    failed attempt leaves a warning, followed by a pause unless it was the
    last one allowed. *)
Inductive retry_trace (sc : script) (prompt : string)
  : list Z → list event → string → Prop :=
| rt_exhausted : retry_trace sc prompt [] [] EmptyString
| rt_accepted a rest txt :
    sc_shape_ok sc txt = true →
    retry_trace sc prompt (a :: rest) [EvGenerate prompt] txt
| rt_failed a rest x evs txt :
    retry_trace sc prompt rest evs txt →
    retry_trace sc prompt (a :: rest)
      (EvGenerate prompt :: EvWarning a x
         :: (if bool_decide (a < MAX_RETRIES)
             then [EvSleep (BACKOFF_BASE ^ a)] else []) ++ evs)
      txt.

(** The same when every attempt fails. *)
Inductive exhausted_trace (prompt : string) : list Z → list event → Prop :=
| xt_nil : exhausted_trace prompt [] []
| xt_cons a rest x evs :
    exhausted_trace prompt rest evs →
    exhausted_trace prompt (a :: rest)
      (EvGenerate prompt :: EvWarning a x
         :: (if bool_decide (a < MAX_RETRIES)
             then [EvSleep (BACKOFF_BASE ^ a)] else []) ++ evs).

(** The steps of a run that matter for the accounting. *)
Inductive step : Type :=
| SOpen (ts : string)
| SInvoke                       (* one call of the model invoker *)
| SAppend (ts : string) (idx : Z)
| SSave (n : Z)
| SUnlink.

Definition step_of (ev : event) : option step :=
  match ev with
  | EvConfigure _ => Some SInvoke
  | EvDisk (OpOpen ts) => Some (SOpen ts)
  | EvDisk (OpAppend ts idx _) => Some (SAppend ts idx)
  | EvDisk (OpSaveCP n) => Some (SSave n)
  | EvDisk OpUnlink => Some SUnlink
  | _ => None
  end.

Definition steps (evs : list event) : list step := omap step_of evs.

(** The directory after the operations recorded in [evs]. *)
Definition replay (evs : list event) (d : disk) : disk :=
  foldl (λ d ev, match ev with EvDisk op => apply_op op d | _ => d end) d evs.

(** [w'] is [w] after the events [evs]. *)
Definition extends (w : world) (evs : list event) (w' : world) : Prop :=
  hist w' = hist w ++ evs
  ∧ dsk w' = replay evs (dsk w)
  ∧ (kill w = None → kill w' = None).

(** How a computation ended, and in which world. *)
Inductive ending : Type :=
| EDone
| ERaised (x : exn)
| EKilled (op : diskop).

Definition ending_of {A} (o : outcome A) : ending :=
  match o with
  | Done _ _ => EDone
  | Raised x _ => ERaised x
  | Killed op _ => EKilled op
  end.

Definition final {A} (o : outcome A) : world :=
  match o with Done _ w | Raised _ w | Killed _ w => w end.

(** The steps of one scenario that is not skipped. *)
Definition item_steps (ts : string) (i : Z) : list step :=
  [SInvoke; SAppend ts i; SSave i].

(** How far the loops came through the scenarios [todo] they had to
    execute: through all of them, or up to an exception (between two
    scenarios or after the call of the model), or up to a kill (before the
    append or before the save of the checkpoint). *)
Inductive progress (ts : string) : list Z → list step → ending → Prop :=
| pr_all : progress ts [] [] EDone
| pr_item i todo ss en :
    progress ts todo ss en →
    progress ts (i :: todo) (item_steps ts i ++ ss) en
| pr_raised todo x : progress ts todo [] (ERaised x)
| pr_raised_called i todo x : progress ts (i :: todo) [SInvoke] (ERaised x)
| pr_killed_append i todo r :
    progress ts (i :: todo) [SInvoke] (EKilled (OpAppend ts i r))
| pr_killed_save i todo :
    progress ts (i :: todo) [SInvoke; SAppend ts i] (EKilled (OpSaveCP i)).

(** The same for a whole process that starts with [todo] ahead of it. *)
Inductive process_steps (ts : string) (todo : list Z) : list step → ending → Prop :=
| ps_killed_open : process_steps ts todo [] (EKilled (OpOpen ts))
| ps_stopped ss en :
    progress ts todo ss en → en ≠ EDone →
    process_steps ts todo (SOpen ts :: ss) en
| ps_killed_unlink :
    process_steps ts todo (SOpen ts :: flat_map (item_steps ts) todo)
      (EKilled OpUnlink)
| ps_complete (unlinked : bool) :
    process_steps ts todo
      (SOpen ts :: flat_map (item_steps ts) todo
         ++ (if unlinked then [SUnlink] else []))
      EDone.

(** The scenarios a run started at checkpoint [k] has to execute. *)
Definition todo_from (k total : Z) : list Z :=
  filter (λ i, k < i) (seqZ 1 total).

(** The indices logged in one file, and in all the files of the role. *)
Definition file_indices (d : disk) (ts : string) : list Z :=
  fst <$> file_lines d ts.

Definition all_indices (d : disk) : list Z :=
  map_to_list (logs d) ≫= (λ f, fst <$> f.2).

(** The indices appended, to one file and to any file, in order. *)
Definition appended (ts : string) (ss : list step) : list Z :=
  omap (λ s, match s with
             | SAppend t i => if decide (t = ts) then Some i else None
             | _ => None
             end) ss.

Definition all_appended (ss : list step) : list Z :=
  omap (λ s, match s with SAppend _ i => Some i | _ => None end) ss.

(** The content of the checkpoint file, if it exists, and what it is
    after some steps. *)
Definition cp_value (d : disk) : option Z :=
  (λ obj : gmap string Z, default 0 (obj !! "done")) <$> cp_file d.

Definition cp_after (ss : list step) (c : option Z) : option Z :=
  foldl (λ c s, match s with
                | SSave n => Some n
                | SUnlink => None
                | _ => c
                end) c ss.

(** The state of the directory between two executions of one run that
    has [total] scenarios: the checkpoint is within range and the records
    logged so far are those of the scenarios up to the checkpoint, one
    each. *)
Definition consistent (total : Z) (d : disk) : Prop :=
  0 ≤ checkpoint_of d ≤ total
  ∧ all_indices d ≡ₚ seqZ 1 (checkpoint_of d).

(** The same without the promise of one record each: the scenarios up to
    the checkpoint are all logged, some perhaps more than once. *)
Definition covered (total : Z) (d : disk) : Prop :=
  0 ≤ checkpoint_of d ≤ total
  ∧ ∀ i, 1 ≤ i ≤ checkpoint_of d → i ∈ all_indices d.

(** The checkpoints saved, in order. *)
Definition saved (ss : list step) : list Z :=
  omap (λ s, match s with SSave n => Some n | _ => None end) ss.

(** What the loops maintain about [done] when they reach the index [i],
    in a run that started at checkpoint [k]: it is still [k], or it is the
    index of a scenario executed before [i]. *)
Definition done_inv (k i done : Z) : Prop :=
  k ≤ done ∧ (k < done → done < i).

(** The personas of a variant exist and have a résumé for the role. *)
Definition variant_ok (sc : script) (inp : inputs) (var : variant) : bool :=
  forallb (λ pid,
     match id2p inp !! pid with
     | Some p => bool_decide (is_Some (p !! sc_resume sc))
     | None => false
     end) (persona_ids var).

(** The input files name only personas that exist and have a résumé for
    the role. *)
Definition corpus_ok (sc : script) (inp : inputs) : bool :=
  forallb (variant_ok sc inp) (variants inp).

(** A non-empty string of digits. *)
Definition digit_string (n : string) : Prop :=
  n ≠ EmptyString ∧ Spec.str_all Py.is_digit n = true.

(** The record that [scenario_step] writes. *)
Definition record_of (sc : script) (var : variant) (style_key prompt resp : string)
  (parsed : string * string * list string)
  (meta : list (list (string * json))) (stamp : string) : record :=
  {| scenario_id := variant_id var +:+ "_" +:+ style_key +:+ "_" +:+ sc_role sc;
     role := sc_role sc;
     prompt_style := style_key;
     rec_persona_ids := persona_ids var;
     persona_meta := meta;
     prompt_text := prompt;
     response_text := resp;
     rationale_text := parsed.1.1;
     selection_line := parsed.1.2;
     selected_persona_ids := parsed.2;
     timestamp_utc := stamp |}.

(** ** Several executions of one run *)

Record execution : Type := {
  ex_env : env;               (* its service, clock and time stamp *)
  ex_kill : option nat        (* when it is killed, if it is *)
}.

Definition run_process (sc : script) (keys : list string) (inp : inputs)
  (x : execution) (w : world) : outcome unit :=
  main sc keys inp (ex_env x) false
    {| dsk := dsk w; hist := hist w; kill := ex_kill x |}.

Fixpoint run_all (sc : script) (keys : list string) (inp : inputs)
  (xs : list execution) (w : world) : list ending * world :=
  match xs with
  | [] => ([], w)
  | x :: xs' =>
      let o := run_process sc keys inp x w in
      let '(ens, w') := run_all sc keys inp xs' (final o) in
      (ending_of o :: ens, w')
  end.

(** An execution that was interrupted, but not between the append of a
    record and the save of its checkpoint. *)
Definition at_boundary (en : ending) : Prop :=
  match en with
  | EDone => False
  | EKilled (OpSaveCP _) => False
  | _ => True
  end.

(** ** A small corpus for the examples: one variant of two personas and
    three prompt styles, hence three scenarios. *)

Module Example.

Definition persona (pid gender : string) : gmap string json :=
  {[ "persona_id" := JStr pid; "gender" := JStr gender;
     "marginalized" := JBool false;
     "resume_swe" := JStr ("Backend engineer, " +:+ pid);
     "resume_hr" := JStr ("HR generalist, " +:+ pid) ]}.

Definition inp : inputs := {|
  variants := [ {| variant_id := "sh0_b0_p0";
                   persona_ids := ["pers_001"; "pers_002"] |} ];
  id2p := {[ "pers_001" := persona "pers_001" "female";
             "pers_002" := persona "pers_002" "male" ]};
  style_items := [ ("formal", "Review. {{candidates_block}} Answer in tags.");
                   ("friendly", "Hey! {{candidates_block}} Pick three.");
                   ("terse", "{{candidates_block}}") ]
|}.

Definition keys : list string := ["key-A"; "key-B"].

(** A service that always answers in the expected format, and one that
    is down. *)
Definition env_ok (stamp : string) : env := {|
  svc := λ _, Text "<explanation>Strong profile.</explanation><top-3>2, 1</top-3>";
  now := λ _, "2025-06-01T00:00:00Z";
  ts := stamp
|}.


Definition empty_dir : world :=
  {| dsk := {| logs := ∅; cp_file := None |}; hist := []; kill := None |}.

(** A first execution killed after the given number of operations on
    the directory, and a second one that is left alone. *)
Definition first_run (n : nat) : execution :=
  {| ex_env := env_ok "20250601T000000Z"; ex_kill := Some n |}.
Definition second_run : execution :=
  {| ex_env := env_ok "20250601T010000Z"; ex_kill := None |}.

End Example.

(** ** The table of personas

    [id2p = {p["persona_id"]: p for p in personas}], from the list read
    from [all_personas_with_resumes.json]: a later persona replaces an
    earlier one that has the same identifier, and a persona without the
    key [persona_id] raises.  The table is only looked up with the strings
    of [persona_ids]; a persona whose identifier is not a string sits
    under a key that no such lookup finds, so it is not in the table of
    the model. *)
Definition id2p_add (acc : result (gmap string (gmap string json)))
  (p : gmap string json) : result (gmap string (gmap string json)) :=
  m ← acc;
  match p !! "persona_id" with
  | None => Exc (KeyError "persona_id")
  | Some (JStr s) => Ret (<[s := p]> m)
  | Some _ => Ret m
  end.

Definition build_id2p (personas : list (gmap string json))
  : result (gmap string (gmap string json)) :=
  foldl id2p_add (Ret ∅) personas.

(** ** The line of a record

    [json.dumps(rec, ensure_ascii=False)] with the default separators:
    strings between quotes with the escapes of [json.encoder] (the quote,
    the backslash and the characters below U+0020; nothing else, since
    [ensure_ascii] is off), [None] as [null], booleans in lower case,
    integers in decimal, lists and dicts with [", "] between items and
    [": "] after a key, in the order of the list or of insertion. *)

#[warnings="-register-all"]
Inductive jvalue : Type :=
| JScalar (v : json)
| JArray (items : list jvalue)
| JObject (fields : list (string * jvalue)).

(* the character U+0022 *)
Definition QUOTE : ascii := "034"%char.

(* "0123456789abcdef"[n] *)
Definition hex_digit (n : N) : ascii :=
  if (n <? 10)%N then ascii_of_N (48 + n) else ascii_of_N (87 + n).

(* ESCAPE_DCT[c] for the characters that ESCAPE matches, [c] for the
   others *)
Definition escape_char (c : ascii) : string :=
  let n := N_of_ascii c in
  if (n =? 34)%N then String "\"%char (String QUOTE EmptyString)
  else if (n =? 92)%N then "\\"
  else if (n =? 10)%N then "\n"
  else if (n =? 13)%N then "\r"
  else if (n =? 9)%N then "\t"
  else if (n =? 12)%N then "\f"
  else if (n =? 8)%N then "\b"
  else if (n <? 32)%N
       then "\u00" +:+ String (hex_digit (n / 16)) (String (hex_digit (n mod 16)) EmptyString)
  else String c EmptyString.

Fixpoint escape (s : string) : string :=
  match s with
  | EmptyString => EmptyString
  | String c s' => escape_char c +:+ escape s'
  end.

(* encode_basestring *)
Definition encode_basestring (s : string) : string :=
  String QUOTE (escape s +:+ String QUOTE EmptyString).

Fixpoint json_dumps (v : jvalue) : string :=
  match v with
  | JScalar JNull => "null"
  | JScalar (JBool true) => "true"
  | JScalar (JBool false) => "false"
  | JScalar (JInt z) => pretty z
  | JScalar (JStr s) => encode_basestring s
  | JArray items => "[" +:+ Py.join ", " (json_dumps <$> items) +:+ "]"
  | JObject fields =>
      "{" +:+ Py.join ", "
                ((λ kv, encode_basestring kv.1 +:+ ": " +:+ json_dumps kv.2)
                   <$> fields)
      +:+ "}"
  end.

(** The dict [rec] of [main], its keys in the order of the source. *)
Definition record_json (r : record) : jvalue :=
  let str s := JScalar (JStr s) in
  JObject [
    ("scenario_id", str (scenario_id r));
    ("role", str (role r));
    ("prompt_style", str (prompt_style r));
    ("persona_ids", JArray (str <$> rec_persona_ids r));
    ("persona_meta",
     JArray ((λ meta, JObject ((λ kv, (kv.1, JScalar kv.2)) <$> meta))
               <$> persona_meta r));
    ("prompt_text", str (prompt_text r));
    ("response_text", str (response_text r));
    ("rationale_text", str (rationale_text r));
    ("selection_line", str (selection_line r));
    ("selected_persona_ids", JArray (str <$> selected_persona_ids r));
    ("timestamp_utc", str (timestamp_utc r))
  ].

(** What [out_f.write] is given for a record, and the text of a log file
    that holds the records [lines]. *)
Definition record_line (r : record) : string :=
  json_dumps (record_json r) +:+ NL.

Definition log_text (lines : list (Z * record)) : string :=
  foldr (λ l acc, record_line l.2 +:+ acc) EmptyString lines.

(** A text without control characters: no character below U+0020, in
    particular no line break. *)
Definition no_control (s : string) : Prop :=
  Spec.str_all (λ c, (32 <=? N_of_ascii c)%N) s = true.

(** ** run_selection_rates.py: the log that the analysis reads

    [latest_log(role)]: the files [<role>_run_*.jsonl] of [outputs/runs],
    sorted, and of these the last one.  Paths of one directory are ordered
    by their names, and names as strings are (on a POSIX system, where
    the case of letters counts): character by character, by code point.
    The logs of the directory are kept by time stamp, so the result is
    given as the time stamp of the file; [None] stands for the
    [FileNotFoundError] raised when there is no log.
    [load_flattened_runs] of [run_statistical_tests.py] picks its file in
    the same way. *)
Definition log_name (role ts : string) : string :=
  role +:+ "_run_" +:+ ts +:+ ".jsonl".

Definition name_le (role : string) (t1 t2 : string) : Prop :=
  String.leb (log_name role t1) (log_name role t2).

Definition latest_log (role : string) (d : disk) : option string :=
  last (merge_sort (name_le role) (map_to_list (logs d)).*1).

(** ** run_selection_rates.py: the pooled counts

    [compute_pooled_counts] reads a log line by line; here it is given
    the records of the log, that is, the lines as [json.loads] returns
    them for a log written by a runner.  A [Counter] is kept as the list of
    its keys with their counts, in the order in which the keys came in.
    Two keys are the same key when Python finds them equal: [True] is [1]
    and [False] is [0]. *)

Definition ATTRIBUTES : list string :=
  ["gender"; "race"; "religion"; "class"; "lgbtq"; "marginalized"].

Definition key_eq (a b : json) : bool :=
  match a, b with
  | JNull, JNull => true
  | JStr s, JStr t => bool_decide (s = t)
  | JBool x, JBool y => bool_decide (x = y)
  | JInt x, JInt y => bool_decide (x = y)
  | JBool x, JInt y | JInt y, JBool x => bool_decide ((if x then 1 else 0) = y)
  | _, _ => false
  end.

Abbreviation counter := (list (json * Z)).

(* c[k] += 1 *)
Fixpoint counter_incr (k : json) (c : counter) : counter :=
  match c with
  | [] => [(k, 1)]
  | (k', n) :: c' =>
      if key_eq k' k then (k', n + 1) :: c' else (k', n) :: counter_incr k c'
  end.

(* c[k], which is 0 for a key that is not there *)
Fixpoint counter_get (c : counter) (k : json) : Z :=
  match c with
  | [] => 0
  | (k', n) :: c' => if key_eq k' k then n else counter_get c' k
  end.

(* sum(c.values()) *)
Definition counter_total (c : counter) : Z := foldr (λ kn acc, kn.2 + acc) 0 c.

(** [d.get(k)] on a dict kept as the list of its items *)
Fixpoint dict_get (d : list (string * json)) (k : string) : option json :=
  match d with
  | [] => None
  | (k', v) :: d' => if decide (k' = k) then Some v else dict_get d' k
  end.

(** The two tables, each with a [Counter] for every attribute. *)
Abbreviation tables := (gmap string counter).

Definition init_tables : gmap string counter :=
  list_to_map ((λ attr, (attr, [] : counter)) <$> ATTRIBUTES).

(* t[attr][val] += 1 *)
Definition table_incr (attr : string) (val : json) (t : gmap string counter)
  : gmap string counter :=
  <[attr := counter_incr val (default [] (t !! attr))]> t.

(* t[attr][val] *)
Definition table_get (t : gmap string counter) (attr : string) (val : json)
  : Z :=
  counter_get (default [] (t !! attr)) val.

(* the body of [for attr in ATTRIBUTES] *)
Definition count_attr (meta : list (string * json)) (is_sel : bool)
  (st : tables * tables) (attr : string) : tables * tables :=
  let val := default JNull (dict_get meta attr) in
  (table_incr attr val st.1,
   if is_sel then table_incr attr val st.2 else st.2).

(* the body of [for meta in rec.get("persona_meta", [])] *)
Definition count_meta (sel_set : list string) (st : result (tables * tables))
  (meta : list (string * json)) : result (tables * tables) :=
  st ← st;
  match dict_get meta "persona_id" with
  | None => Exc (KeyError "persona_id")
  | Some pid =>
      let is_sel := match pid with
                    | JStr s => bool_decide (s ∈ sel_set)
                    | _ => false
                    end in
      Ret (foldl (count_attr meta is_sel) st ATTRIBUTES)
  end.

(* the body of [for line in f] *)
Definition count_record (st : result (tables * tables)) (rec : record)
  : result (tables * tables) :=
  foldl (count_meta (selected_persona_ids rec)) st (persona_meta rec).

(** [compute_pooled_counts]: (appearances, selections) *)
Definition compute_pooled_counts (recs : list record)
  : result (tables * tables) :=
  foldl count_record (Ret (init_tables, init_tables)) recs.

(** The number of candidates that the records show, all records together. *)
Definition shown (recs : list record) : Z :=
  foldr (λ rec acc, len (persona_meta rec) + acc) 0 recs.

(** What the loops keep true of the two tables (appearances first): no
    subgroup has more selections than appearances. *)
Definition counts_bounded (st : tables * tables) : Prop :=
  ∀ attr val, 0 ≤ table_get st.2 attr val ≤ table_get st.1 attr val.

(* sum(appearances[attr].values()) *)
Definition appearances_total (st : tables * tables) (attr : string) : Z :=
  counter_total (default [] (st.1 !! attr)).

(** ** The résumé generator: the activities of a persona

    [activities_block] of the script that builds the résumés (its name,
    [generate_résumés.py], has a letter outside ASCII). *)

(* religious_acts.get(r) *)
Definition religious_acts (r : string) : option string :=
  if decide (r = "christian")
  then Some "Helped stock the church food-bank on weekends."
  else if decide (r = "muslim")
  then Some "Helped set up chairs for mosque community events."
  else None.

Definition lgbtq_act : string :=
  "Helped staff the local LGBTQ+ community-center info desk.".

Definition neutral_activities : list string :=
  ["Helped at local animal shelter.";
   "Helped organize community library reading sessions."].

(** The list [acts] when the function reaches its [return]. *)
Definition activities (p : gmap string json) : list string :=
  let acts :=
    match p !! "religion" with
    | Some (JStr r) =>
        match religious_acts r with Some a => [a] | None => [] end
    | _ => []
    end in
  let acts :=
    match p !! "lgbtq" with
    | Some (JStr v) => if decide (v = "yes") then acts ++ [lgbtq_act] else acts
    | _ => acts
    end in
  if bool_decide (len acts = 0) then neutral_activities
  else if bool_decide (len acts = 1) then acts ++ take 1 neutral_activities
  else acts.

Definition activities_block (p : gmap string json) : string :=
  Py.join NL ((λ a, "- " +:+ a) <$> activities p).

(** The block of a persona without attributes (the branch
    [p.get("gender") is None] of the main loop). *)
Definition anonymous_activities_block : string :=
  Py.join NL ((λ a, "- " +:+ a) <$> neutral_activities).

(** ** From the batches to the clusters of the regression

    [compose_batches.py] names the variant of shuffle [sh], batch [b_idx]
    and permutation [perm] with the f-string below; the runners put this
    name at the head of [scenario_id]; [load_flattened_runs] of
    [run_statistical_tests.py] reads the index of the batch back from
    [scenario_id], and the regression takes it as the cluster of the
    row. *)

(* f"sh{sh}_b{b_idx}_p{perm}" *)
Definition variant_name (sh b_idx perm : Z) : string :=
  "sh" +:+ pretty sh +:+ "_b" +:+ pretty b_idx +:+ "_p" +:+ pretty perm.

(** [int(s)] for any string, in base ten: blanks around the number are
    dropped, one sign may come first, then digits, where single
    underscores may stand between two digits. *)
Inductive int_state : Type :=
| NeedDigit        (* at the start, or after an underscore *)
| AfterDigit.

Fixpoint int_digits_go (st : int_state) (acc : Z) (s : string) : option Z :=
  match s with
  | EmptyString =>
      match st with AfterDigit => Some acc | NeedDigit => None end
  | String c s' =>
      match Py.digit_val c with
      | Some d => int_digits_go AfterDigit (10 * acc + d) s'
      | None =>
          match st with
          | AfterDigit =>
              if decide (c = "_"%char) then int_digits_go NeedDigit acc s'
              else None
          | NeedDigit => None
          end
      end
  end.

Definition int_text (s : string) : result Z :=
  let t := Py.strip s in
  let '(negative, body) :=
    match t with
    | String c r =>
        if decide (c = "-"%char) then (true, r)
        else if decide (c = "+"%char) then (false, r)
        else (false, t)
    | EmptyString => (false, t)
    end in
  match int_digits_go NeedDigit 0 body with
  | Some v => Ret (if negative then - v else v)
  | None => Exc (ValueError "invalid literal for int()")
  end.

(** The lines of [load_flattened_runs] that give [batch_idx]: the first
    of the pieces of [scenario_id] between underscores that starts with
    "b", read as a number after its first letter; [-1] when no piece
    starts with "b" (the [StopIteration] that is caught).  A piece that
    starts with "b" and is not a number after it raises [ValueError],
    which is not caught. *)
Definition batch_idx (scenario_id : string) : result Z :=
  match list_find (λ t, is_Some (Py.strip_prefix "b" t))
          (Py.split "_"%char scenario_id) with
  | Some (_, tok) =>
      match tok with
      | String _ rest => int_text rest      (* tok[1:] *)
      | EmptyString => int_text EmptyString
      end
  | None => Ret (-1)
  end.


(** ** compose_batches.py: the variants

    The script shuffles with [random.shuffle], seeded; nothing is assumed
    here of the generator but that a shuffle permutes its list.  [shuffle n
    l] is the list that the [n]-th call of [random.shuffle] of the run
    (counted from 0) leaves in place of [l].  The calls come in the order
    of the loops: for each of the [NUM_SHUFFLES] rounds one call on all
    the identifiers, then [INBATCH_PERMS] calls for each of the
    [NUM_BASE_BATCHES] batches. *)

Definition NUM_BASE_BATCHES : nat := 10.
Definition BATCH_SIZE : nat := 11.
Definition NUM_SHUFFLES : nat := 10.
Definition INBATCH_PERMS : nat := 3.

(* [ids[i * BATCH_SIZE : (i + 1) * BATCH_SIZE] for i in range(NUM_BASE_BATCHES)] *)
Definition base_batches (ids : list string) : list (list string) :=
  (λ i, take BATCH_SIZE (drop (i * BATCH_SIZE)%nat ids)) <$> seq 0 NUM_BASE_BATCHES.

(* the calls of [random.shuffle] made in one round *)
Definition calls_per_round : nat := (1 + NUM_BASE_BATCHES * INBATCH_PERMS)%nat.

(* the body of [for perm in range(INBATCH_PERMS)] *)
Definition permuted_variant (shuffle : nat → list string → list string)
  (sh b_idx : nat) (base : list string) (perm : nat) : variant :=
  {| variant_id := variant_name (Z.of_nat sh) (Z.of_nat b_idx) (Z.of_nat perm);
     persona_ids :=
       shuffle (sh * calls_per_round + 1 + b_idx * INBATCH_PERMS + perm)%nat base |}.

(* the body of [for sh in range(NUM_SHUFFLES)] *)
Definition round_variants (shuffle : nat → list string → list string)
  (all_ids : list string) (sh : nat) : list variant :=
  let ids := shuffle (sh * calls_per_round)%nat all_ids in
  mjoin (imap (λ b_idx base,
                 permuted_variant shuffle sh b_idx base <$> seq 0 INBATCH_PERMS)
              (base_batches ids)).

(** The list [variants] that the script saves; [None] when its [assert]
    on the number of personas fails. *)
Definition compose_batches (shuffle : nat → list string → list string)
  (all_ids : list string) : option (list variant) :=
  if decide (length all_ids = 110%nat)
  then Some (seq 0 NUM_SHUFFLES ≫= round_variants shuffle all_ids)
  else None.

(** In how many of the variants a persona is shown. *)
Definition shown_in (pid : string) (vs : list variant) : nat :=
  length (filter (λ v, pid ∈ persona_ids v) vs).

(** ** generate_personas.py: the personas

    A persona is kept as the list of the items of its dict, in the order
    of the source. *)

Definition genders : list string := ["male"; "female"].
Definition races : list string := ["white"; "black"; "asian"; "hispanic"].
Definition religions : list string := ["christian"; "muslim"; "none"].
Definition classes : list string := ["higher"; "lower"].
Definition lgbtq_vals : list string := ["yes"; "no"].
Definition NUM_NEUTRAL : nat := 14.

(** [bool(v)] *)
Definition truthy (v : json) : bool :=
  match v with
  | JNull => false
  | JBool b => b
  | JInt z => negb (z =? 0)
  | JStr s => negb (bool_decide (s = EmptyString))
  end.

(** [v == s] for a string [s] *)
Definition is_str (v : json) (s : string) : bool :=
  match v with JStr t => bool_decide (t = s) | _ => false end.

Definition compute_marginalized (g r rel cl lgbtq : json) : bool :=
  let count := 0 in
  let count := if is_str g "female" then count + 1 else count in
  let count := if truthy r && negb (is_str r "white") then count + 1 else count in
  let count := if truthy rel && is_str rel "muslim" then count + 1 else count in
  let count := if is_str cl "lower" then count + 1 else count in
  let count := if is_str lgbtq "yes" then count + 1 else count in
  bool_decide (3 ≤ count).

(** [f"pers_{idx:03d}"] for an index that is not negative: at least
    three digits, zeros first. *)
Definition persona_id_of (idx : Z) : string :=
  let digits := pretty idx in
  "pers_" +:+ Py.repeat_char "0" (3 - String.length digits) +:+ digits.

Definition persona_dict (idx : Z) (g r rel cl lgbtq : json)
  (marginalized : bool) : list (string * json) :=
  [("persona_id", JStr (persona_id_of idx));
   ("gender", g); ("race", r); ("religion", rel); ("class", cl);
   ("lgbtq", lgbtq); ("marginalized", JBool marginalized);
   ("resume_swe", JNull); ("resume_hr", JNull)].

(** [itertools.product(genders, races, religions, classes, lgbtq_vals)]:
    the last pool varies fastest. *)
Definition attribute_product : list (string * string * string * string * string) :=
  g ← genders; r ← races; rel ← religions; cl ← classes; l ← lgbtq_vals;
  [(g, r, rel, cl, l)].

(** The list [personas] that the script saves: the personas with cues,
    numbered from 1, then the neutral ones. *)
Definition cue_personas : list (list (string * json)) :=
  imap (λ i '(g, r, rel, cl, l),
          persona_dict (Z.of_nat i + 1) (JStr g) (JStr r) (JStr rel) (JStr cl)
            (JStr l)
            (compute_marginalized (JStr g) (JStr r) (JStr rel) (JStr cl)
               (JStr l)))
       attribute_product.

Definition generated_personas : list (list (string * json)) :=
  let start_idx := len cue_personas + 1 in
  cue_personas
  ++ ((λ i, persona_dict (start_idx + Z.of_nat i) JNull JNull JNull JNull JNull
              false) <$> seq 0 NUM_NEUTRAL).

(** The identifiers of the personas: [p["persona_id"]] of each (all are
    strings here). *)
Definition generated_ids : list string :=
  omap (λ p, match dict_get p "persona_id" with
             | Some (JStr s) => Some s
             | _ => None
             end) generated_personas.

(** [p[k] == s] for a string [s] *)
Definition item_is (p : list (string * json)) (k s : string) : bool :=
  match dict_get p k with Some v => is_str v s | None => false end.

(** The personas that have the given five attributes. *)
Definition with_attributes (g r rel cl l : string)
  (ps : list (list (string * json))) : list (list (string * json)) :=
  filter (λ p, item_is p "gender" g && item_is p "race" r
               && item_is p "religion" rel && item_is p "class" cl
               && item_is p "lgbtq" l) ps.

#[global] Instance json_eq_dec : EqDecision json.
Proof. solve_decision. Defined.

(** * Properties *)

(** ** Strings *)

Lemma str_app_nil_l (s : string) : EmptyString +:+ s = s.
Proof. reflexivity. Qed.

Lemma str_app_cons (a : ascii) (s t : string) :
  String a s +:+ t = String a (s +:+ t).
Proof. reflexivity. Qed.

Lemma str_app_nil_r (s : string) : s +:+ EmptyString = s.
Proof. induction s as [|a s IH]; [done|]. by rewrite str_app_cons, IH. Qed.

Lemma str_app_assoc (s t u : string) : (s +:+ t) +:+ u = s +:+ t +:+ u.
Proof. induction s as [|a s IH]; [done|]. by rewrite !str_app_cons, IH. Qed.

Lemma str_app_length (s t : string) :
  String.length (s +:+ t) = (String.length s + String.length t)%nat.
Proof. induction s as [|a s IH]; [done|]. rewrite str_app_cons. simpl. by rewrite IH. Qed.

Lemma str_all_app (P : ascii → bool) (s t : string) :
  Spec.str_all P (s +:+ t) = Spec.str_all P s && Spec.str_all P t.
Proof.
  induction s as [|a s IH]; [done|].
  rewrite str_app_cons. simpl. rewrite IH. by rewrite andb_assoc.
Qed.

Lemma str_all_true (P : ascii → bool) (s : string) :
  (∀ a, P a = true) → Spec.str_all P s = true.
Proof. intros HP. induction s as [|a s IH]; [done|]. simpl. by rewrite HP, IH. Qed.

(** ** The pattern matcher against the declarative reading *)

Section Matcher.

Context (fl : Re.flags).

Lemma lazy_any_sound k s c r :
  Re.lazy_any fl k s = Some (c, r) →
  ∃ s', s = c +:+ s' ∧ k s' = Some r ∧ Spec.str_all (Re.dot_ok fl) c = true.
Proof.
  revert c r. induction s as [|a s IH]; intros c r; simpl.
  - destruct (k EmptyString) eqn:Hk; [|done].
    intros [= <- <-]. by exists EmptyString.
  - destruct (k (String a s)) eqn:Hk.
    { intros [= <- <-]. by exists (String a s). }
    destruct (Re.dot_ok fl a) eqn:Hd; [|done].
    destruct (Re.lazy_any fl k s) as [[c' r']|] eqn:Hl; [|done].
    intros [= <- <-]. destruct (IH _ _ eq_refl) as (s' & -> & Hk' & Hall).
    exists s'. rewrite str_app_cons. simpl. by rewrite Hd, Hall.
Qed.

Lemma lazy_any_complete k c s' :
  Spec.str_all (Re.dot_ok fl) c = true → is_Some (k s') →
  is_Some (Re.lazy_any fl k (c +:+ s')).
Proof.
  intros Hc Hk. induction c as [|a c IH].
  - rewrite str_app_nil_l. destruct Hk as [r Hr].
    destruct s'; simpl; rewrite Hr; eauto.
  - rewrite str_app_cons. simpl in *. apply andb_true_iff in Hc as [Ha Hc].
    destruct (k (String a (c +:+ s'))); [eauto|].
    rewrite Ha. destruct (IH Hc) as [[c' r'] ->]. eauto.
Qed.

Lemma greedy_digits_sound k s m gs rest :
  Re.greedy_digits k s = Some (m, gs, rest) →
  ∃ ds s' m', s = ds +:+ s' ∧ m = ds +:+ m'
    ∧ Spec.str_all Py.is_digit ds = true ∧ k s' = Some (m', gs, rest).
Proof.
  revert m gs rest. induction s as [|a s IH]; intros m gs rest; simpl.
  - intros Hk. by exists EmptyString, EmptyString, m.
  - destruct (Py.is_digit a) eqn:Ha.
    + destruct (Re.greedy_digits k s) as [[[m1 gs1] rest1]|] eqn:Hg.
      * simpl. intros [= <- <- <-].
        destruct (IH _ _ _ eq_refl) as (ds & s' & m' & -> & -> & Hds & Hk).
        exists (String a ds), s', m'. rewrite !str_app_cons. simpl.
        by rewrite Ha, Hds.
      * intros Hk. by exists EmptyString, (String a s), m.
    + intros Hk. by exists EmptyString, (String a s), m.
Qed.

Lemma greedy_digits_complete k ds s' :
  Spec.str_all Py.is_digit ds = true → is_Some (k s') →
  is_Some (Re.greedy_digits k (ds +:+ s')).
Proof.
  intros Hds Hk. induction ds as [|a ds IH].
  - rewrite str_app_nil_l. destruct s' as [|b s']; simpl; [done|].
    destruct (Py.is_digit b); [|done].
    destruct (Re.greedy_digits k s') as [[[??]?]|]; simpl; eauto.
  - rewrite str_app_cons. simpl in *. apply andb_true_iff in Hds as [Ha Hds].
    rewrite Ha. destruct (IH Hds) as [[[??]?] ->]. simpl. eauto.
Qed.

Lemma cons_m_Some a o m gs rest :
  Re.cons_m a o = Some (m, gs, rest) →
  ∃ m', m = String a m' ∧ o = Some (m', gs, rest).
Proof. destruct o as [[[m' gs'] rest']|]; simpl; [|done]. intros [= <- <- <-]. eauto. Qed.

Lemma match_here_sound r s m gs rest :
  Re.match_here fl r s = Some (m, gs, rest) →
  s = m +:+ rest ∧ Matches fl r m gs.
Proof.
  revert s m gs rest.
  induction r as [|[c| | | |] r IH]; intros s m gs rest; simpl.
  - intros [= <- <- <-]. split; [done|constructor].
  - destruct s as [|a s]; [done|].
    destruct (Re.lit_ok fl c a) eqn:Hc; [|done].
    intros (m' & -> & Hm)%cons_m_Some. apply IH in Hm as [-> Hm].
    split; [done|]. by constructor.
  - destruct s as [|a s]; [done|].
    destruct (Py.is_digit a) eqn:Ha; [|done].
    intros (m' & -> & Hm)%cons_m_Some. apply IH in Hm as [-> Hm].
    split; [done|]. by constructor.
  - destruct s as [|a s]; [done|].
    destruct (Py.is_digit a) eqn:Ha; [|done].
    intros (m' & -> & Hm)%cons_m_Some.
    apply greedy_digits_sound in Hm as (ds & s' & m'' & -> & -> & Hds & Hm).
    apply IH in Hm as [-> Hm].
    split; [by rewrite str_app_cons, str_app_assoc|]. by constructor.
  - destruct (Re.lazy_any fl (Re.match_here fl r) s) as [[c [[m' gs'] rest']]|] eqn:Hl;
      [|done].
    intros [= <- <- <-]. apply lazy_any_sound in Hl as (s' & -> & Hm & Hc).
    apply IH in Hm as [-> Hm].
    split; [by rewrite str_app_assoc|]. by constructor.
  - destruct (Re.lazy_any fl (Re.match_here fl r) s) as [[c [[m' gs'] rest']]|] eqn:Hl;
      [|done].
    intros [= <- <- <-]. apply lazy_any_sound in Hl as (s' & -> & Hm & Hc).
    apply IH in Hm as [-> Hm].
    split; [by rewrite str_app_assoc|]. by constructor.
Qed.

Lemma match_here_complete r m gs rest :
  Matches fl r m gs → is_Some (Re.match_here fl r (m +:+ rest)).
Proof.
  induction 1 as [|c a r m gs Hc _ IH|a r m gs Ha _ IH|a ds r m gs Ha Hds _ IH
                 |c r m gs Hc _ IH|c r m gs Hc _ IH]; simpl.
  - eauto.
  - rewrite Hc. destruct IH as [[[??]?] ->]. simpl. eauto.
  - rewrite Ha. destruct IH as [[[??]?] ->]. simpl. eauto.
  - rewrite Ha, str_app_assoc.
    destruct (greedy_digits_complete (Re.match_here fl r) ds _ Hds IH)
      as [[[??]?] ->]. simpl. eauto.
  - rewrite str_app_assoc.
    destruct (lazy_any_complete (Re.match_here fl r) c _ Hc IH)
      as [[? [[??]?]] ->]. eauto.
  - rewrite str_app_assoc.
    destruct (lazy_any_complete (Re.match_here fl r) c _ Hc IH)
      as [[? [[??]?]] ->]. eauto.
Qed.

Lemma search_sound r s m gs rest :
  Re.search fl r s = Some (m, gs, rest) →
  ∃ pre, s = pre +:+ m +:+ rest ∧ Matches fl r m gs.
Proof.
  induction s as [|a s IH]; simpl.
  - destruct (Re.match_here fl r EmptyString) as [x|] eqn:Hm; [|done].
    intros [= ->]. apply match_here_sound in Hm as [-> Hm].
    by exists EmptyString.
  - destruct (Re.match_here fl r (String a s)) as [x|] eqn:Hm.
    + intros [= ->]. apply match_here_sound in Hm as [-> Hm].
      by exists EmptyString.
    + intros (pre & -> & Hm')%IH. by exists (String a pre).
Qed.

Lemma search_complete r pre m gs rest :
  Matches fl r m gs → is_Some (Re.search fl r (pre +:+ m +:+ rest)).
Proof.
  intros Hm. induction pre as [|a pre IH].
  - rewrite str_app_nil_l.
    destruct (match_here_complete r m gs rest Hm) as [x Hx].
    destruct (m +:+ rest); simpl; rewrite Hx; eauto.
  - rewrite str_app_cons. simpl.
    destruct (Re.match_here fl r _); eauto.
Qed.

End Matcher.

(** ** The integers of a selection line *)

Lemma greedy_digits_span k s :
  (∀ s', k s' = Some (EmptyString, [], s')) →
  Re.greedy_digits k s
  = Some ((Spec.span_digits s).1, [], (Spec.span_digits s).2).
Proof.
  intros Hk. induction s as [|a s IH]; simpl; [by rewrite Hk|].
  destruct (Py.is_digit a); [|by rewrite Hk].
  rewrite IH. simpl. by destruct (Spec.span_digits s).
Qed.

Lemma span_digits_spec s :
  s = (Spec.span_digits s).1 +:+ (Spec.span_digits s).2
  ∧ Spec.str_all Py.is_digit (Spec.span_digits s).1 = true.
Proof.
  induction s as [|a s [IH1 IH2]]; simpl; [done|].
  destruct (Py.is_digit a) eqn:Ha; [|done].
  destruct (Spec.span_digits s) as [run rest]; simpl in *.
  rewrite Ha, IH2. split; [|done]. by rewrite IH1 at 1.
Qed.

Lemma digit_runs_cur cur s :
  cur ≠ EmptyString →
  Spec.digit_runs cur s
  = (cur +:+ (Spec.span_digits s).1)
      :: Spec.digit_runs EmptyString (Spec.span_digits s).2.
Proof.
  revert cur. induction s as [|a s IH]; intros cur Hcur; simpl.
  - rewrite str_app_nil_r. by destruct cur.
  - destruct (Py.is_digit a) eqn:Ha.
    + rewrite IH by (by destruct cur).
      destruct (Spec.span_digits s) as [run rest]; simpl.
      by rewrite str_app_assoc.
    + simpl. rewrite Ha, str_app_nil_r. by destruct cur.
Qed.

Lemma search_digits1 fl s :
  match Re.search fl [Re.Digits1] s with
  | None => Spec.digit_runs EmptyString s = []
  | Some (m, gs, rest) =>
      Spec.digit_runs EmptyString s = m :: Spec.digit_runs EmptyString rest
      ∧ (String.length rest < String.length s)%nat
      ∧ digit_string m
  end.
Proof.
  induction s as [|a s IH]; simpl; [done|].
  destruct (Py.is_digit a) eqn:Ha.
  - rewrite greedy_digits_span by done. simpl.
    rewrite digit_runs_cur by done.
    destruct (span_digits_spec s) as [Hs Hd].
    destruct (Spec.span_digits s) as [run rest]; simpl in *.
    split; [done|]. split.
    + apply (f_equal String.length) in Hs. rewrite str_app_length in Hs. lia.
    + split; [done|]. simpl. by rewrite Ha, Hd.
  - destruct (Re.search fl [Re.Digits1] s) as [[[m gs] rest]|]; [|done].
    destruct IH as (-> & Hlen & Hm). split; [done|]. split; [lia|done].
Qed.

Lemma findall_digits_go fl fuel s :
  (String.length s < fuel)%nat →
  Re.findall_go fuel fl [Re.Digits1] s = Spec.integer_substrings s
  ∧ Forall digit_string (Spec.integer_substrings s).
Proof.
  unfold Spec.integer_substrings.
  revert s. induction fuel as [|fuel IH]; intros s Hlen; [lia|]. simpl.
  pose proof (search_digits1 fl s) as Hs.
  destruct (Re.search fl [Re.Digits1] s) as [[[m gs] rest]|].
  - destruct Hs as (-> & Hlt & Hm).
    destruct (IH rest) as [-> HF]; [lia|]. split; [done|]. by constructor.
  - rewrite Hs. by split.
Qed.

Lemma findall_digits fl s :
  Re.findall fl [Re.Digits1] s = Spec.integer_substrings s.
Proof. apply findall_digits_go. lia. Qed.

Lemma integer_substrings_digits s :
  Forall digit_string (Spec.integer_substrings s).
Proof. apply (findall_digits_go Re.no_flags (S (String.length s))). lia. Qed.


Lemma int_go_digits acc n :
  Spec.str_all Py.is_digit n = true →
  Py.int_go acc n = Ret (Spec.decimal_value_go acc n).
Proof.
  revert acc. induction n as [|a n IH]; intros acc; simpl; [done|].
  unfold Py.is_digit. destruct (Py.digit_val a); [|done]. simpl. apply IH.
Qed.

Lemma int_digits n : digit_string n → Py.int n = Ret (Spec.decimal_value n).
Proof.
  intros [Hne Hd]. unfold Py.int, Spec.decimal_value.
  destruct n; [done|]. by apply int_go_digits.
Qed.

(** ** The loop of [parse_selection] against "first occurrences" *)

Lemma select_step_resolve pids sel n :
  digit_string n →
  select_step pids (Ret sel) n
  = Ret match Spec.resolve pids (Spec.decimal_value n) with
        | Some pid => if bool_decide (pid ∈ sel) then sel else sel ++ [pid]
        | None => sel
        end.
Proof.
  intros Hn. unfold select_step. simpl. unfold mbind, result_bind. simpl.
  rewrite (int_digits n Hn). simpl.
  unfold Spec.resolve, len.
  set (v := Spec.decimal_value n).
  destruct (decide (1 ≤ v ≤ Z.of_nat (length pids))) as [Hv|Hv].
  - rewrite (bool_decide_eq_true_2 (0 ≤ v - 1 < _)) by lia.
    rewrite (bool_decide_eq_true_2 (1 ≤ v ≤ _)) by done.
    destruct (lookup_lt_is_Some_2 pids (Z.to_nat (v - 1))) as [pid ->]; [lia|].
    by destruct (bool_decide (pid ∈ sel)).
  - rewrite (bool_decide_eq_false_2 (0 ≤ v - 1 < _)) by lia.
    by rewrite (bool_decide_eq_false_2 (1 ≤ v ≤ _)) by done.
Qed.

Lemma filter_all {A} (P : A → Prop) `{!∀ x, Decision (P x)} (l : list A) :
  (∀ x, P x) → filter P l = l.
Proof.
  intros HP. induction l as [|x l IH]; [done|].
  by rewrite filter_cons_True, IH.
Qed.

Lemma first_occurrences_loop pids nums acc :
  Forall digit_string nums →
  foldl (select_step pids) (Ret acc) nums
  = Ret (acc ++ filter (λ y, y ∉ acc)
                  (Spec.first_occurrences
                     (omap (Spec.resolve pids) (Spec.decimal_value <$> nums)))).
Proof.
  intros HF. revert acc. induction HF as [|n nums Hn _ IH]; intros acc.
  - simpl. by rewrite app_nil_r.
  - cbn [foldl fmap list_fmap omap list_omap]. rewrite select_step_resolve by done.
    destruct (Spec.resolve pids (Spec.decimal_value n)) as [pid|]; [|apply IH].
    cbn [Spec.first_occurrences]. rewrite IH.
    set (l := Spec.first_occurrences _). f_equal.
    destruct (bool_decide_reflect (pid ∈ acc)) as [Hin|Hin].
    + rewrite filter_cons_False by (by intros ?).
      rewrite list_filter_filter. f_equal.
      apply list_filter_iff. intros y. split; [|by intros [? _]].
      intros Hy. split; [done|]. by intros ->.
    + rewrite filter_cons_True by done. rewrite <- app_assoc. simpl. do 2 f_equal.
      rewrite list_filter_filter. apply list_filter_iff. intros y.
      rewrite elem_of_app, list_elem_of_singleton. tauto.
Qed.

Lemma parse_selection_selection line pids :
  parse_selection line pids = Ret (Spec.selection line pids).
Proof.
  unfold parse_selection, Spec.selection. rewrite findall_digits.
  rewrite first_occurrences_loop by apply integer_substrings_digits.
  simpl. f_equal. apply filter_all. intros y. apply not_elem_of_nil.
Qed.



(** ** What the patterns of the scripts match *)

Lemma Matches_nil_inv fl m gs :
  Matches fl [] m gs → m = EmptyString ∧ gs = [].
Proof. by inversion 1. Qed.

Lemma Matches_digit_inv fl r m gs :
  Matches fl (Re.Digit :: r) m gs →
  ∃ a m', m = String a m' ∧ Py.is_digit a = true ∧ Matches fl r m' gs.
Proof. inversion 1; subst. eauto. Qed.

Lemma Matches_lazy_inv fl r m gs :
  Matches fl (Re.LazyAny :: r) m gs →
  ∃ c m', m = c +:+ m' ∧ Matches fl r m' gs.
Proof. inversion 1; subst. eauto. Qed.

Lemma Matches_cap_inv fl r m gs :
  Matches fl (Re.CapLazyAny :: r) m gs →
  ∃ c m' gs', m = c +:+ m' ∧ gs = c :: gs' ∧ Matches fl r m' gs'.
Proof. inversion 1; subst. eauto 6. Qed.

Lemma dot_ok_S_I c : Spec.str_all (Re.dot_ok Re.S_I) c = true.
Proof. by apply str_all_true. Qed.

Lemma Matches_lits_inv t r m gs :
  Matches Re.S_I (Re.lits t ++ r) m gs →
  ∃ t' m', m = t' +:+ m' ∧ Spec.same_tag t t' ∧ Matches Re.S_I r m' gs.
Proof.
  revert m. induction t as [|c t IH]; intros m.
  - intros Hm. by exists EmptyString, m.
  - inversion 1 as [|c' a r' m' gs' Hok Hm'| | | |]; subst.
    apply IH in Hm' as (t' & m'' & -> & Ht & Hm'').
    exists (String a t'), m''. split; [done|]. split; [|done].
    simpl. split; [|done]. by apply bool_decide_eq_true_1 in Hok.
Qed.

Lemma Matches_lits_intro t t' r m gs :
  Spec.same_tag t t' → Matches Re.S_I r m gs →
  Matches Re.S_I (Re.lits t ++ r) (t' +:+ m) gs.
Proof.
  revert t'. induction t as [|c t IH]; intros [|a t']; simpl; try done.
  intros [Ha Ht] Hm. apply (M_lit Re.S_I c a); [|by apply IH].
  by apply bool_decide_eq_true_2.
Qed.

Lemma TAG_RE_matches m gs :
  Matches Re.S_I HR.TAG_RE m gs ↔
  gs = [] ∧ ∃ t1 x t2 y t3 z d,
    m = t1 +:+ x +:+ t2 +:+ y +:+ t3 +:+ z +:+ String d EmptyString
    ∧ Spec.same_tag "<explanation>" t1 ∧ Spec.same_tag "</explanation>" t2
    ∧ Spec.same_tag "<top-3>" t3 ∧ Py.is_digit d = true.
Proof.
  unfold HR.TAG_RE. split.
  - intros H.
    apply Matches_lits_inv in H as (t1 & m1 & -> & Ht1 & H).
    apply Matches_lazy_inv in H as (x & m2 & -> & H).
    apply Matches_lits_inv in H as (t2 & m3 & -> & Ht2 & H).
    apply Matches_lazy_inv in H as (y & m4 & -> & H).
    apply Matches_lits_inv in H as (t3 & m5 & -> & Ht3 & H).
    apply Matches_lazy_inv in H as (z & m6 & -> & H).
    apply Matches_digit_inv in H as (d & m7 & -> & Hd & H).
    apply Matches_nil_inv in H as [-> ->].
    split; [done|]. by exists t1, x, t2, y, t3, z, d.
  - intros (-> & t1 & x & t2 & y & t3 & z & d & -> & Ht1 & Ht2 & Ht3 & Hd).
    apply Matches_lits_intro; [done|].
    apply (M_lazy Re.S_I x); [apply dot_ok_S_I|].
    apply Matches_lits_intro; [done|].
    apply (M_lazy Re.S_I y); [apply dot_ok_S_I|].
    apply Matches_lits_intro; [done|].
    apply (M_lazy Re.S_I z); [apply dot_ok_S_I|].
    apply M_digit; [done|]. constructor.
Qed.

Lemma EXPL_RE_matches m gs :
  Matches Re.S_I EXPL_RE m gs ↔
  ∃ t1 g1 t2 mid t3 g2 t4,
    m = t1 +:+ g1 +:+ t2 +:+ mid +:+ t3 +:+ g2 +:+ t4 ∧ gs = [g1; g2]
    ∧ Spec.same_tag "<explanation>" t1 ∧ Spec.same_tag "</explanation>" t2
    ∧ Spec.same_tag "<top-3>" t3 ∧ Spec.same_tag "</top-3>" t4.
Proof.
  unfold EXPL_RE. split.
  - intros H.
    apply Matches_lits_inv in H as (t1 & m1 & -> & Ht1 & H).
    apply Matches_cap_inv in H as (g1 & m2 & gs1 & -> & -> & H).
    apply Matches_lits_inv in H as (t2 & m3 & -> & Ht2 & H).
    apply Matches_lazy_inv in H as (mid & m4 & -> & H).
    apply Matches_lits_inv in H as (t3 & m5 & -> & Ht3 & H).
    apply Matches_cap_inv in H as (g2 & m6 & gs2 & -> & -> & H).
    rewrite <- (app_nil_r (Re.lits "</top-3>")) in H.
    apply Matches_lits_inv in H as (t4 & m7 & -> & Ht4 & H).
    apply Matches_nil_inv in H as [-> ->].
    exists t1, g1, t2, mid, t3, g2, t4. by rewrite str_app_nil_r.
  - intros (t1 & g1 & t2 & mid & t3 & g2 & t4 & -> & -> & Ht1 & Ht2 & Ht3 & Ht4).
    apply Matches_lits_intro; [done|].
    apply (M_cap Re.S_I g1); [apply dot_ok_S_I|].
    apply Matches_lits_intro; [done|].
    apply (M_lazy Re.S_I mid); [apply dot_ok_S_I|].
    apply Matches_lits_intro; [done|].
    apply (M_cap Re.S_I g2); [apply dot_ok_S_I|].
    rewrite <- (app_nil_r (Re.lits "</top-3>")), <- (str_app_nil_r t4).
    apply Matches_lits_intro; [done|]. constructor.
Qed.

(** The check of [run_gemini_hr.py] on an answer. *)
Lemma HR_shape_ok_spec txt :
  HR.shape_ok txt = true ↔ Spec.has_markers_then_digit txt.
Proof.
  unfold HR.shape_ok. rewrite bool_decide_eq_true. split.
  - intros [[[m gs] rest] Hs]. apply search_sound in Hs as (pre & -> & Hm).
    apply TAG_RE_matches in Hm
      as (-> & t1 & x & t2 & y & t3 & z & d & -> & Ht1 & Ht2 & Ht3 & Hd).
    exists pre, t1, x, t2, y, t3, z, d, rest.
    by rewrite !str_app_assoc.
  - intros (pre & t1 & x & t2 & y & t3 & z & d & post & -> & Ht1 & Ht2 & Ht3 & Hd).
    assert (Matches Re.S_I HR.TAG_RE
              (t1 +:+ x +:+ t2 +:+ y +:+ t3 +:+ z +:+ String d EmptyString) [])
      as Hm by (apply TAG_RE_matches; eauto 15).
    pose proof (search_complete Re.S_I HR.TAG_RE pre _ _ post Hm) as Hs.
    by rewrite !str_app_assoc in Hs.
Qed.

(** The check of [run_gemini_swe.py] on an answer. *)
Lemma SWE_shape_ok_spec text :
  SWE.shape_ok text = true ↔ Spec.has_digit text.
Proof.
  unfold SWE.shape_ok. rewrite bool_decide_eq_true. split.
  - intros [[[m gs] rest] Hs]. apply search_sound in Hs as (pre & -> & Hm).
    apply Matches_digit_inv in Hm as (d & m' & -> & Hd & Hm).
    apply Matches_nil_inv in Hm as [-> ->]. by exists pre, d, rest.
  - intros (pre & d & post & -> & Hd).
    apply (search_complete Re.no_flags [Re.Digit] pre
             (String d EmptyString) [] post).
    apply M_digit; [done|constructor].
Qed.

(** [split_response] on a text with and without the two elements. *)
Lemma search_EXPL_RE txt :
  match Re.search Re.S_I EXPL_RE txt with
  | Some (_, gs, _) => ∃ g1 g2, gs = [g1; g2] ∧ Spec.two_tags txt g1 g2
  | None => ¬ ∃ g1 g2, Spec.two_tags txt g1 g2
  end.
Proof.
  destruct (Re.search Re.S_I EXPL_RE txt) as [[[m gs] rest]|] eqn:Hs.
  - apply search_sound in Hs as (pre & -> & Hm).
    apply EXPL_RE_matches in Hm
      as (t1 & g1 & t2 & mid & t3 & g2 & t4 & -> & -> & Ht1 & Ht2 & Ht3 & Ht4).
    exists g1, g2. split; [done|].
    exists pre, t1, t2, mid, t3, t4, rest. by rewrite !str_app_assoc.
  - intros (g1 & g2 & pre & t1 & t2 & mid & t3 & t4 & post & -> & Ht1 & Ht2 & Ht3 & Ht4).
    assert (Matches Re.S_I EXPL_RE
              (t1 +:+ g1 +:+ t2 +:+ mid +:+ t3 +:+ g2 +:+ t4) [g1; g2])
      as Hm by (apply EXPL_RE_matches; eauto 15).
    pose proof (search_complete Re.S_I EXPL_RE pre _ _ post Hm) as [x Hx].
    rewrite !str_app_assoc in Hx. congruence.
Qed.

(** ** The monad *)

Ltac munfold :=
  unfold mbind, M_bind, bind, mret, M_ret, ret, lift, raise, emit,
    get_hist, get_disk, try_.

Lemma add_events_nil w : add_events w [] = w.
Proof. destruct w. unfold add_events. simpl. by rewrite app_nil_r. Qed.

Lemma add_events_app w evs1 evs2 :
  add_events (add_events w evs1) evs2 = add_events w (evs1 ++ evs2).
Proof. unfold add_events. simpl. by rewrite app_assoc. Qed.

Lemma emit_add ev w : emit ev w = Done tt (add_events w [ev]).
Proof. done. Qed.

(** ** The model invoker *)

Section Invoker.

Context (sc : script) (e : env) (prompt : string).

Lemma attempt_once_eq w :
  attempt_once sc e prompt w =
  let w1 := add_events w [EvGenerate prompt] in
  match svc e (hist w ++ [EvGenerate prompt]) with
  | Text s =>
      if sc_shape_ok sc (Py.strip s) then Done (Py.strip s) w1
      else Raised (ValueError (sc_shape_error sc)) w1
  | Fails x => Raised x w1
  end.
Proof.
  unfold attempt_once, generate. munfold. simpl.
  destruct (svc e _); [|done]. by destruct (sc_shape_ok sc _).
Qed.

Lemma retry_failed_eq a rest x w1 :
  (emit (EvWarning a x);;
   (if bool_decide (a < MAX_RETRIES)
    then emit (EvSleep (BACKOFF_BASE ^ a)) else mret tt);;
   retry_loop sc e prompt rest) w1
  = retry_loop sc e prompt rest
      (add_events w1 (EvWarning a x
         :: if bool_decide (a < MAX_RETRIES)
            then [EvSleep (BACKOFF_BASE ^ a)] else [])).
Proof.
  munfold. simpl. destruct (bool_decide (a < MAX_RETRIES)); simpl.
  - by rewrite <- app_assoc.
  - done.
Qed.

Lemma retry_loop_cons a rest w :
  retry_loop sc e prompt (a :: rest) w =
  match attempt_once sc e prompt w with
  | Done txt w1 => Done txt w1
  | Raised x w1 =>
      retry_loop sc e prompt rest
        (add_events w1 (EvWarning a x
           :: if bool_decide (a < MAX_RETRIES)
              then [EvSleep (BACKOFF_BASE ^ a)] else []))
  | Killed op w1 => Killed op w1
  end.
Proof.
  cbn [retry_loop]. unfold mbind at 1, M_bind at 1, bind at 1, try_.
  destruct (attempt_once sc e prompt w) as [txt w1|x w1|op w1]; [done| |done].
  apply retry_failed_eq.
Qed.

Lemma retry_loop_trace attempts w :
  ∃ txt evs,
    retry_loop sc e prompt attempts w = Done txt (add_events w evs)
    ∧ retry_trace sc prompt attempts evs txt.
Proof.
  revert w. induction attempts as [|a rest IH]; intros w.
  - exists EmptyString, []. rewrite add_events_nil. split; [done|constructor].
  - rewrite retry_loop_cons, attempt_once_eq. cbv zeta.
    destruct (svc e _) as [s|x].
    + destruct (sc_shape_ok sc (Py.strip s)) eqn:Hok.
      * exists (Py.strip s), [EvGenerate prompt]. split; [done|]. by constructor.
      * destruct (IH (add_events (add_events w [EvGenerate prompt])
                        (EvWarning a (ValueError (sc_shape_error sc))
                           :: if bool_decide (a < MAX_RETRIES)
                              then [EvSleep (BACKOFF_BASE ^ a)] else [])))
          as (txt & evs & -> & Htr).
        eexists txt, _. rewrite !add_events_app. split; [done|].
        by apply (rt_failed sc prompt a rest (ValueError (sc_shape_error sc))).
    + destruct (IH (add_events (add_events w [EvGenerate prompt])
                      (EvWarning a x
                         :: if bool_decide (a < MAX_RETRIES)
                            then [EvSleep (BACKOFF_BASE ^ a)] else [])))
        as (txt & evs & -> & Htr).
      eexists txt, _. rewrite !add_events_app. split; [done|].
      by apply (rt_failed sc prompt a rest x).
Qed.

Lemma retry_loop_exhausted attempts w :
  always_fails sc e →
  ∃ evs,
    retry_loop sc e prompt attempts w = Done EmptyString (add_events w evs)
    ∧ exhausted_trace prompt attempts evs.
Proof.
  intros Hfail. revert w. induction attempts as [|a rest IH]; intros w.
  - exists []. rewrite add_events_nil. split; [done|constructor].
  - rewrite retry_loop_cons, attempt_once_eq. cbv zeta.
    specialize (Hfail (hist w ++ [EvGenerate prompt])).
    destruct (svc e _) as [s|x].
    + rewrite Hfail.
      destruct (IH (add_events (add_events w [EvGenerate prompt])
                      (EvWarning a (ValueError (sc_shape_error sc))
                         :: if bool_decide (a < MAX_RETRIES)
                            then [EvSleep (BACKOFF_BASE ^ a)] else [])))
        as (evs & -> & Htr).
      eexists. rewrite !add_events_app. split; [done|].
      by apply (xt_cons prompt a rest (ValueError (sc_shape_error sc))).
    + destruct (IH (add_events (add_events w [EvGenerate prompt])
                      (EvWarning a x
                         :: if bool_decide (a < MAX_RETRIES)
                            then [EvSleep (BACKOFF_BASE ^ a)] else [])))
        as (evs & -> & Htr).
      eexists. rewrite !add_events_app. split; [done|].
      by apply (xt_cons prompt a rest x).
Qed.

Lemma retry_trace_requests attempts evs txt :
  retry_trace sc prompt attempts evs txt →
  (length (requests evs) ≤ length attempts)%nat
  ∧ Forall (λ p, p = prompt) (requests evs).
Proof.
  induction 1 as [|a rest txt Hok|a rest x evs txt _ [IH1 IH2]]; simpl.
  - split; [lia|constructor].
  - split; [lia|by repeat constructor].
  - unfold requests in *. rewrite omap_app.
    destruct (bool_decide (a < MAX_RETRIES)); simpl;
      (split; [lia|by constructor]).
Qed.

Lemma retry_trace_pauses attempts evs txt :
  retry_trace sc prompt attempts evs txt →
  pauses evs
  = (λ a, (BACKOFF_BASE ^ a)%Q)
      <$> filter (λ a, a < MAX_RETRIES) (failed_attempts evs).
Proof.
  induction 1 as [|a rest txt Hok|a rest x evs txt _ IH]; [done..|].
  unfold pauses, failed_attempts in *. simpl. rewrite !omap_app, filter_cons.
  destruct (bool_decide_reflect (a < MAX_RETRIES)) as [Ha|Ha]; simpl.
  - rewrite decide_True by done. simpl. by rewrite IH.
  - rewrite decide_False by done. by rewrite IH.
Qed.

Lemma retry_trace_failed attempts evs txt :
  retry_trace sc prompt attempts evs txt →
  failed_attempts evs `prefix_of` attempts.
Proof.
  induction 1 as [|a rest txt Hok|a rest x evs txt _ IH].
  - done.
  - apply prefix_nil.
  - unfold failed_attempts in *. simpl. rewrite omap_app.
    replace (omap _ (if bool_decide (a < MAX_RETRIES) then _ else _))
      with (@nil Z) by (by destruct (bool_decide _)).
    simpl. by apply prefix_cons.
Qed.

Lemma retry_trace_result attempts evs txt :
  retry_trace sc prompt attempts evs txt →
  txt = EmptyString ∧ failed_attempts evs = attempts
  ∨ sc_shape_ok sc txt = true
    ∧ length (requests evs) = S (length (failed_attempts evs)).
Proof.
  induction 1 as [|a rest txt Hok|a rest x evs txt _ IH].
  - by left.
  - by right.
  - unfold failed_attempts, requests in *. simpl. rewrite !omap_app.
    replace (omap _ (if bool_decide (a < MAX_RETRIES) then _ else _))
      with (@nil Z) by (by destruct (bool_decide _)).
    replace (omap _ (if bool_decide (a < MAX_RETRIES) then _ else _))
      with (@nil string) by (by destruct (bool_decide _)).
    simpl. destruct IH as [[-> ->]|[Hok Hlen]]; [by left|right].
    split; [done|]. by rewrite Hlen.
Qed.

Lemma call_model_eq api_key w :
  call_model sc e prompt api_key w
  = retry_loop sc e prompt (py_range 1 (MAX_RETRIES + 1))
      (add_events w [EvConfigure api_key]).
Proof. done. Qed.

End Invoker.

(** C5 — Retry exhaustion and the no-raise boundary.  Whatever the service
    does, the model invoker of either script returns (it neither raises
    nor is it killed: it does not touch the directory), after at most
    [MAX_RETRIES] requests, all for the given prompt; the failed attempts
    are numbered 1, 2, ... and each of them below [MAX_RETRIES] is followed
    by a pause of [BACKOFF_BASE ^ attempt] seconds.  When every attempt
    fails, the invoker makes exactly three requests, pauses after the first
    two and returns the empty string. *)
Theorem retry_exhaustion (sc : script) (e : env) (prompt api_key : string)
  (w : world) :
  ∃ txt evs,
    call_model sc e prompt api_key w
    = Done txt (add_events w (EvConfigure api_key :: evs))
    ∧ (length (requests evs) ≤ Z.to_nat MAX_RETRIES)%nat
    ∧ Forall (λ p, p = prompt) (requests evs)
    ∧ failed_attempts evs `prefix_of` py_range 1 (MAX_RETRIES + 1)
    ∧ pauses evs
      = (λ a, (BACKOFF_BASE ^ a)%Q)
          <$> filter (λ a, a < MAX_RETRIES) (failed_attempts evs)
    ∧ (always_fails sc e →
       txt = EmptyString
       ∧ ∃ x1 x2 x3,
           evs = [EvGenerate prompt; EvWarning 1 x1; EvSleep (BACKOFF_BASE ^ 1);
                  EvGenerate prompt; EvWarning 2 x2; EvSleep (BACKOFF_BASE ^ 2);
                  EvGenerate prompt; EvWarning 3 x3]).
Proof.
  rewrite call_model_eq.
  destruct (retry_loop_trace sc e prompt (py_range 1 (MAX_RETRIES + 1))
              (add_events w [EvConfigure api_key])) as (txt & evs & Hrun & Htr).
  exists txt, evs. rewrite Hrun, add_events_app. split; [done|].
  destruct (retry_trace_requests _ _ _ _ _ Htr) as [Hlen Hreq].
  split; [exact Hlen|]. split; [done|].
  split; [by eapply retry_trace_failed|].
  split; [by eapply retry_trace_pauses|].
  intros Hfail.
  destruct (retry_loop_exhausted sc e prompt (py_range 1 (MAX_RETRIES + 1))
              (add_events w [EvConfigure api_key]) Hfail) as (evs' & Hrun' & Hx).
  rewrite Hrun in Hrun'. injection Hrun' as -> Hevs.
  apply app_inv_head in Hevs as ->. split; [done|].
  change (py_range 1 (MAX_RETRIES + 1)) with [1; 2; 3] in Hx.
  inversion Hx as [|a1 r1 x1 evs1 Hx1]; subst.
  inversion Hx1 as [|a2 r2 x2 evs2 Hx2]; subst.
  inversion Hx2 as [|a3 r3 x3 evs3 Hx3]; subst.
  inversion Hx3; subst. by exists x1, x2, x3.
Qed.

Lemma retry_exhaustion_witness :
  let e := {| svc := λ _, Fails (ServiceError "503");
              now := λ _, "2025-06-01T00:00:00Z";
              ts := "20250601T000000Z" |} in
  let w := {| dsk := {| logs := ∅; cp_file := None |}; hist := []; kill := None |} in
  always_fails HRrun.script e
  ∧ ∃ evs, HRrun.call_model e "prompt" "key-1" w
           = Done EmptyString (add_events w (EvConfigure "key-1" :: evs)).
Proof.
  intros e w.
  assert (always_fails HRrun.script e) as Hfail by (intros h; exact I).
  split; [exact Hfail|].
  destruct (retry_exhaustion HRrun.script e "prompt" "key-1" w)
    as (txt & evs & Hrun & _ & _ & _ & _ & Hall).
  destruct (Hall Hfail) as [-> _]. by exists evs.
Defined.

(** ** The check on each answer *)

Lemma same_tag_length t t' :
  Spec.same_tag t t' → String.length t' = String.length t.
Proof.
  revert t'. induction t as [|c t IH]; intros [|a t']; simpl; try done.
  intros [_ Ht]. by rewrite (IH t').
Qed.

Lemma same_tag_refl t : Spec.same_tag t t.
Proof. induction t; simpl; auto. Qed.

(** C3, as amended — Per-attempt validation of the shape of an answer.
    When the service answers the text [raw], an attempt of the HR script
    accepts the stripped answer, returns it and ends the retry loop, if
    and only if the answer holds the tags [<explanation>], [</explanation>]
    and [<top-3>] in this order (letters in any case) and a digit
    somewhere after the last of them; an attempt of the SWE script does so
    if and only if the answer holds a digit, whatever its tags.  An answer
    that is not accepted makes the attempt fail with a [ValueError]. *)
Theorem attempt_validation (e : env) (prompt : string) (w : world)
  (raw : string) :
  svc e (hist w ++ [EvGenerate prompt]) = Text raw →
  let txt := Py.strip raw in
  let w1 := add_events w [EvGenerate prompt] in
  (Spec.has_markers_then_digit txt →
     attempt_once HRrun.script e prompt w = Done txt w1
     ∧ ∀ a rest, retry_loop HRrun.script e prompt (a :: rest) w = Done txt w1)
  ∧ (¬ Spec.has_markers_then_digit txt →
     attempt_once HRrun.script e prompt w
     = Raised (ValueError "Missing tags or digits") w1)
  ∧ (Spec.has_digit txt →
     attempt_once SWErun.script e prompt w = Done txt w1
     ∧ ∀ a rest, retry_loop SWErun.script e prompt (a :: rest) w = Done txt w1)
  ∧ (¬ Spec.has_digit txt →
     attempt_once SWErun.script e prompt w
     = Raised (ValueError "No digit found - parse error") w1).
Proof.
  intros Hsvc txt w1.
  assert (∀ sc, attempt_once sc e prompt w
                = if sc_shape_ok sc txt then Done txt w1
                  else Raised (ValueError (sc_shape_error sc)) w1) as Hatt.
  { intros sc. rewrite attempt_once_eq, Hsvc. done. }
  repeat split.
  - rewrite Hatt. simpl. by rewrite (proj2 (HR_shape_ok_spec txt)).
  - intros a rest. rewrite retry_loop_cons, Hatt. simpl.
    by rewrite (proj2 (HR_shape_ok_spec txt)).
  - intros Hno. rewrite Hatt. simpl.
    destruct (HR.shape_ok txt) eqn:Hok; [|done].
    by apply HR_shape_ok_spec in Hok.
  - rewrite Hatt. simpl. by rewrite (proj2 (SWE_shape_ok_spec txt)).
  - intros a rest. rewrite retry_loop_cons, Hatt. simpl.
    by rewrite (proj2 (SWE_shape_ok_spec txt)).
  - intros Hno. rewrite Hatt. simpl.
    destruct (SWE.shape_ok txt) eqn:Hok; [|done].
    by apply SWE_shape_ok_spec in Hok.
Qed.

Lemma attempt_validation_witness :
  let e := {| svc := λ _, Text " 7 "; now := λ _, "2025-06-01T00:00:00Z";
              ts := "20250601T000000Z" |} in
  let w := {| dsk := {| logs := ∅; cp_file := None |}; hist := []; kill := None |} in
  Spec.has_digit "7"
  ∧ attempt_once SWErun.script e "prompt" w
    = Done "7" (add_events w [EvGenerate "prompt"]).
Proof.
  intros e w.
  assert (Spec.has_digit "7") as Hd by (by exists EmptyString, "7"%char, EmptyString).
  split; [exact Hd|].
  apply (attempt_validation e "prompt" w " 7 " eq_refl). exact Hd.
Defined.

(** C3, as stated, fails in both scripts.  The SWE script accepts the
    answer "7", which holds a digit and none of the markers; the HR script
    rejects an answer that holds the three markers and a digit (the one of
    the tag [<top-3>] itself), because no digit follows the last marker. *)
Lemma attempt_validation_counterexample :
  let e := {| svc := λ _, Text "7"; now := λ _, "2025-06-01T00:00:00Z";
              ts := "20250601T000000Z" |} in
  let w := {| dsk := {| logs := ∅; cp_file := None |}; hist := []; kill := None |} in
  let bare := "<explanation>x</explanation><top-3>" in
  (attempt_once SWErun.script e "prompt" w
   = Done "7" (add_events w [EvGenerate "prompt"])
   ∧ ¬ Spec.has_markers "7")
  ∧ (HR.shape_ok bare = false ∧ Spec.has_markers bare ∧ Spec.has_digit bare).
Proof.
  intros e w bare. split; [split|split; [|split]].
  - reflexivity.
  - intros (pre & t1 & x & t2 & y & t3 & post & Heq & Ht1 & _).
    apply (f_equal String.length) in Heq.
    rewrite !str_app_length in Heq. apply same_tag_length in Ht1.
    simpl in Heq, Ht1. lia.
  - reflexivity.
  - exists EmptyString, "<explanation>", "x", "</explanation>", EmptyString,
      "<top-3>", EmptyString.
    split; [reflexivity|]. repeat split; apply same_tag_refl.
  - by exists "<explanation>x</explanation><top-", "3"%char, ">".
Qed.

(** ** The split of an answer *)


Lemma SWE_extract_eq txt pids :
  SWE.extract txt pids
  = Ret ((SWE.split_response txt).1, (SWE.split_response txt).2,
         Spec.selection (SWE.split_response txt).2 pids).
Proof.
  unfold SWE.extract. destruct (SWE.split_response txt) as [rat selb].
  by rewrite parse_selection_selection.
Qed.

Lemma HR_extract_eq txt pids :
  HR.extract txt pids
  = if bool_decide (txt ≠ EmptyString) then SWE.extract txt pids
    else Ret (EmptyString, EmptyString, []).
Proof.
  unfold HR.extract, SWE.extract, SWE.split_response.
  by destruct (bool_decide (txt ≠ EmptyString)).
Qed.




(** ** The rotation of the credentials *)

(** C4 — Credential rotation.  For an index [i ≥ 1], at least two keys and
    a block size of at least one, [pick_api_key] returns the key at
    position [((i - 1) div block_size) mod num_credentials], which is a
    valid position; it reads nothing but its arguments.  With the block
    size 450 of the scripts and two keys, the indices 1-450 get the first
    key, 451-900 the second and 901-1350 the first again. *)
Theorem credential_rotation (keys : list string) (block_size i : Z) :
  1 ≤ i → 2 ≤ len keys → 1 ≤ block_size →
  let slot := ((i - 1) / block_size) mod len keys in
  (0 ≤ slot < len keys
   ∧ ∃ k, keys !! Z.to_nat slot = Some k
          ∧ pick_api_key_with keys block_size i = Ret k)
  ∧ ∀ k0 k1 j,
      (1 ≤ j ≤ 450 → pick_api_key [k0; k1] j = Ret k0)
      ∧ (451 ≤ j ≤ 900 → pick_api_key [k0; k1] j = Ret k1)
      ∧ (901 ≤ j ≤ 1350 → pick_api_key [k0; k1] j = Ret k0).
Proof.
  intros Hi Hkeys Hbs slot. split.
  - assert (0 ≤ slot < len keys) as Hslot by (apply Z.mod_pos_bound; lia).
    split; [done|].
    destruct (lookup_lt_is_Some_2 keys (Z.to_nat slot)) as [k Hk];
      [unfold len in Hslot; lia|].
    exists k. split; [done|]. unfold pick_api_key_with, key_slot.
    rewrite (proj2 (Z.eqb_neq _ _)) by lia. fold slot. by rewrite Hk.
  - intros k0 k1 j. unfold pick_api_key, pick_api_key_with, key_slot,
      PROMPTS_PER_KEY. simpl.
    split; [|split]; intros Hj.
    + by rewrite (Z.div_small (j - 1) 450) by lia.
    + by rewrite <- (Z.div_unique (j - 1) 450 1 (j - 1 - 450)) by lia.
    + by rewrite <- (Z.div_unique (j - 1) 450 2 (j - 1 - 900)) by lia.
Qed.

Lemma credential_rotation_witness :
  1 ≤ 451 ∧ 2 ≤ len ["key-A"; "key-B"] ∧ 1 ≤ 450
  ∧ pick_api_key ["key-A"; "key-B"] 451 = Ret "key-B".
Proof.
  split; [lia|]. split; [done|]. split; [lia|].
  apply (credential_rotation ["key-A"; "key-B"] 450 451); [lia|done|lia|lia].
Defined.

(** ** The check of the credentials at start-up *)

(** C9 — Start-up credential check.  With fewer than two credentials in
    [GOOGLE_API_KEYS] (an absent or an empty variable gives none) either
    script raises a [RuntimeError] before anything happens: no request, no
    file touched.  With two or more the error about the keys is not
    raised, and the script goes on to [main] with these keys (for
    [run_gemini_swe.py], provided the [.env] file it insists on exists). *)
Theorem startup_credential_check (sc : script) (dotenv_exists : bool)
  (keys_env : option string) (inp : inputs) (e : env) (dry_run : bool)
  (w : world) :
  (len (read_key_list keys_env) < 2 →
     ∃ msg, program sc dotenv_exists keys_env inp e dry_run w
            = Raised (RuntimeError msg) w)
  ∧ (2 ≤ len (read_key_list keys_env) →
     startup sc dotenv_exists keys_env
     ≠ Exc (RuntimeError "Need at least two keys in GOOGLE_API_KEYS")
     ∧ ((sc_needs_dotenv sc = true → dotenv_exists = true) →
        program sc dotenv_exists keys_env inp e dry_run w
        = main sc (read_key_list keys_env) inp e dry_run w))
  ∧ read_key_list None = [] ∧ read_key_list (Some EmptyString) = []
  ∧ sc_needs_dotenv HRrun.script = false.
Proof.
  unfold program, startup, check_key_list. split; [|split].
  - intros Hfew. rewrite (proj2 (Z.ltb_lt _ _)) by done.
    destruct (sc_needs_dotenv sc && negb dotenv_exists); by eexists.
  - intros Hmany. rewrite (proj2 (Z.ltb_ge _ _)) by done. split.
    + by destruct (sc_needs_dotenv sc && negb dotenv_exists).
    + intros Hdot.
      destruct (sc_needs_dotenv sc); [rewrite Hdot by done|]; done.
  - done.
Qed.

Lemma startup_credential_check_witness :
  let w := {| dsk := {| logs := ∅; cp_file := None |}; hist := []; kill := None |} in
  let e := {| svc := λ _, Fails (ServiceError "503");
              now := λ _, "2025-06-01T00:00:00Z";
              ts := "20250601T000000Z" |} in
  let inp := {| variants := []; id2p := ∅; style_items := [] |} in
  len (read_key_list (Some "only-one-key, ")) < 2
  ∧ ∃ msg, program SWErun.script true (Some "only-one-key, ") inp e false w
           = Raised (RuntimeError msg) w.
Proof.
  intros w e inp. split; [done|].
  apply (startup_credential_check SWErun.script true (Some "only-one-key, ")
           inp e false w).
  done.
Defined.

(** ** Worlds and their histories *)

Lemma replay_app evs1 evs2 d :
  replay (evs1 ++ evs2) d = replay evs2 (replay evs1 d).
Proof. apply foldl_app. Qed.

Lemma extends_refl w : extends w [] w.
Proof. unfold extends. by rewrite app_nil_r. Qed.

Lemma extends_trans w evs1 w1 evs2 w2 :
  extends w evs1 w1 → extends w1 evs2 w2 → extends w (evs1 ++ evs2) w2.
Proof.
  intros (Hh1 & Hd1 & Hk1) (Hh2 & Hd2 & Hk2). split; [|split].
  - by rewrite Hh2, Hh1, app_assoc.
  - by rewrite Hd2, Hd1, replay_app.
  - auto.
Qed.

Lemma extends_add_events w evs :
  Forall (λ ev, ∀ op, ev ≠ EvDisk op) evs → extends w evs (add_events w evs).
Proof.
  intros Hevs. split; [done|]. split; [|done]. simpl.
  generalize (dsk w). induction Hevs as [|ev evs Hev _ IH]; intros d; [done|].
  simpl. rewrite <- IH. by destruct ev; [..|destruct (Hev op)|idtac|idtac].
Qed.

Lemma durable_eq op w :
  durable op w =
  match kill w with
  | Some O => Killed op w
  | k => Done tt {| dsk := apply_op op (dsk w);
                    hist := hist w ++ [EvDisk op];
                    kill := pred <$> k |}
  end.
Proof. done. Qed.

Lemma durable_extends op w w' :
  durable op w = Done tt w' → extends w [EvDisk op] w'.
Proof.
  rewrite durable_eq. destruct (kill w) as [[|n]|] eqn:Hk; [done|..];
    intros [= <-]; (split; [done|]; split; [done|]); simpl; congruence.
Qed.


Lemma durable_cases op w :
  (durable op w = Killed op w ∧ kill w ≠ None)
  ∨ ∃ w', durable op w = Done tt w' ∧ extends w [EvDisk op] w'.
Proof.
  destruct (durable op w) as [[] w'|x w'|op' w'] eqn:Hd.
  - right. exists w'. split; [done|]. by apply durable_extends.
  - rewrite durable_eq in Hd. by destruct (kill w) as [[|n]|].
  - left. rewrite durable_eq in Hd.
    destruct (kill w) as [[|n]|]; [|done..]. by injection Hd as <- <-.
Qed.

Lemma retry_trace_quiet sc prompt attempts evs txt :
  retry_trace sc prompt attempts evs txt →
  Forall (λ ev, ∀ op, ev ≠ EvDisk op) evs ∧ steps evs = [].
Proof.
  induction 1 as [|a rest txt Hok|a rest x evs txt _ [IH1 IH2]].
  - by split.
  - split; [by repeat constructor|done].
  - split.
    + repeat (constructor; [done|]). apply Forall_app. split; [|done].
      destruct (bool_decide _); by repeat constructor.
    + unfold steps in *. simpl. destruct (bool_decide _); simpl; apply IH2.
Qed.

(** The call of the model as one step of a run. *)
Lemma call_model_step sc e prompt api_key w :
  ∃ resp evs,
    call_model sc e prompt api_key w = Done resp (add_events w evs)
    ∧ extends w evs (add_events w evs)
    ∧ steps evs = [SInvoke]
    ∧ Forall (λ p, p = prompt) (requests evs)
    ∧ requests evs ≠ [].
Proof.
  rewrite call_model_eq.
  destruct (retry_loop_trace sc e prompt (py_range 1 (MAX_RETRIES + 1))
              (add_events w [EvConfigure api_key])) as (txt & evs & -> & Htr).
  destruct (retry_trace_quiet _ _ _ _ _ Htr) as [Hq Hs].
  destruct (retry_trace_requests _ _ _ _ _ Htr) as [_ Hreq].
  exists txt, (EvConfigure api_key :: evs). rewrite add_events_app.
  split; [done|]. split; [|split; [|split]].
  - apply extends_add_events. by constructor.
  - unfold steps in *. simpl. f_equal. apply Hs.
  - done.
  - change (py_range 1 (MAX_RETRIES + 1)) with [1; 2; 3] in Htr.
    by inversion Htr.
Qed.

(** ** One scenario *)

Section Loops.

Context (sc : script) (KEY_LIST : list string) (inp : inputs) (e : env).

Local Abbreviation L := (len (style_items inp)).

Lemma scenario_step_skip var block vi si style_key tpl done w :
  (vi - 1) * L + si ≤ done →
  scenario_step sc KEY_LIST inp e var block vi si style_key tpl done w
  = Done done w.
Proof. intros Hle. unfold scenario_step. by rewrite bool_decide_eq_true_2. Qed.

Lemma scenario_step_eq var block vi si style_key tpl done w :
  let idx := (vi - 1) * L + si in
  let prompt := sc_render_prompt sc tpl block in
  done < idx →
  scenario_step sc KEY_LIST inp e var block vi si style_key tpl done w =
  match pick_api_key KEY_LIST idx with
  | Exc x => Raised x w
  | Ret api_key =>
      match call_model sc e prompt api_key w with
      | Done resp w1 =>
          match sc_extract sc resp (persona_ids var) with
          | Exc x => Raised x w1
          | Ret parsed =>
              match persona_meta_of inp var with
              | Exc x => Raised x w1
              | Ret meta =>
                  let rec := record_of sc var style_key prompt resp parsed
                               meta (now e (hist w1)) in
                  match durable (OpAppend (ts e) idx rec) w1 with
                  | Done _ w2 =>
                      match durable (OpSaveCP idx) w2 with
                      | Done _ w3 =>
                          match key_number KEY_LIST api_key with
                          | Exc x => Raised x w3
                          | Ret key_no =>
                              Done idx
                                (add_events w3
                                   [EvPrint idx (total inp)
                                      (scenario_id rec)
                                      (if bool_decide (resp ≠ EmptyString)
                                       then Some parsed.2 else None)
                                      key_no;
                                    EvSleep DELAY_SECONDS])
                          end
                      | Raised x w3 => Raised x w3
                      | Killed op w3 => Killed op w3
                      end
                  | Raised x w2 => Raised x w2
                  | Killed op w2 => Killed op w2
                  end
              end
          end
      | Raised x w1 => Raised x w1
      | Killed op w1 => Killed op w1
      end
  end.
Proof.
  intros idx prompt Hlt. unfold scenario_step.
  rewrite bool_decide_eq_false_2 by (fold idx; lia). fold idx prompt.
  unfold mbind at 1, M_bind at 1, bind at 1.
  destruct (pick_api_key KEY_LIST idx) as [api_key|x]; [|done]. simpl.
  unfold mbind at 1, M_bind at 1, bind at 1.
  destruct (call_model sc e prompt api_key w) as [resp w1|x w1|op w1]; [|done..].
  unfold mbind at 1, M_bind at 1, bind at 1.
  destruct (sc_extract sc resp (persona_ids var)) as [[[rat selb] sel_ids]|x];
    [|done]. simpl.
  unfold mbind at 1, M_bind at 1, bind at 1.
  destruct (persona_meta_of inp var) as [meta|x]; [|done]. simpl.
  unfold mbind at 1, M_bind at 1, bind at 1. simpl.
  unfold mbind at 1, M_bind at 1, bind at 1.
  change (durable (OpAppend (ts e) idx _) w1)
    with (durable (OpAppend (ts e) idx
            (record_of sc var style_key prompt resp (rat, selb, sel_ids) meta
               (now e (hist w1)))) w1).
  destruct (durable (OpAppend (ts e) idx _) w1) as [[] w2|x w2|op w2]; [|done..].
  unfold mbind at 1, M_bind at 1, bind at 1. unfold save_checkpoint.
  destruct (durable (OpSaveCP idx) w2) as [[] w3|x w3|op w3]; [|done..].
  unfold mbind at 1, M_bind at 1, bind at 1.
  destruct (key_number KEY_LIST api_key) as [key_no|x]; [|done]. simpl.
  munfold. simpl. unfold add_events. simpl. by rewrite <- app_assoc.
Qed.

Lemma pick_api_key_elem idx k :
  pick_api_key KEY_LIST idx = Ret k → k ∈ KEY_LIST.
Proof.
  unfold pick_api_key, pick_api_key_with.
  destruct (len KEY_LIST =? 0); [done|].
  destruct (KEY_LIST !! _) as [k'|] eqn:Hk; [|done].
  intros [= <-]. by eapply list_elem_of_lookup_2.
Qed.

Lemma pick_api_key_some idx :
  KEY_LIST ≠ [] → ∃ k, pick_api_key KEY_LIST idx = Ret k.
Proof.
  intros Hne. unfold pick_api_key, pick_api_key_with, key_slot.
  assert (0 < len KEY_LIST) as Hlen
    by (unfold len; destruct KEY_LIST; [done|simpl; lia]).
  rewrite (proj2 (Z.eqb_neq _ _)) by lia.
  pose proof (Z.mod_pos_bound ((idx - 1) / PROMPTS_PER_KEY) (len KEY_LIST) Hlen).
  destruct (lookup_lt_is_Some_2 KEY_LIST
              (Z.to_nat (((idx - 1) / PROMPTS_PER_KEY) mod len KEY_LIST)))
    as [k ->]; [unfold len in *; lia|]. by exists k.
Qed.

Lemma key_number_elem k :
  k ∈ KEY_LIST → ∃ n, key_number KEY_LIST k = Ret n.
Proof.
  intros Hk. unfold key_number.
  destruct (list_find_elem_of (λ k', k' = k) KEY_LIST k Hk eq_refl)
    as [[i k'] ->]. eauto.
Qed.

Lemma steps_app evs1 evs2 : steps (evs1 ++ evs2) = steps evs1 ++ steps evs2.
Proof. apply omap_app. Qed.

(** What a scenario that ran to its end has done. *)
Lemma scenario_step_done var block vi si style_key tpl done w d w' :
  let idx := (vi - 1) * L + si in
  let prompt := sc_render_prompt sc tpl block in
  done < idx →
  scenario_step sc KEY_LIST inp e var block vi si style_key tpl done w
  = Done d w' →
  ∃ api_key resp cevs parsed meta key_no,
    d = idx
    ∧ pick_api_key KEY_LIST idx = Ret api_key
    ∧ call_model sc e prompt api_key w = Done resp (add_events w cevs)
    ∧ steps cevs = [SInvoke]
    ∧ Forall (λ p, p = prompt) (requests cevs)
    ∧ requests cevs ≠ []
    ∧ sc_extract sc resp (persona_ids var) = Ret parsed
    ∧ persona_meta_of inp var = Ret meta
    ∧ let rec := record_of sc var style_key prompt resp parsed meta
                   (now e (hist w ++ cevs)) in
      hist w' = hist w ++ cevs
                ++ [EvDisk (OpAppend (ts e) idx rec); EvDisk (OpSaveCP idx);
                    EvPrint idx (total inp) (scenario_id rec)
                      (if bool_decide (resp ≠ EmptyString)
                       then Some parsed.2 else None) key_no;
                    EvSleep DELAY_SECONDS]
      ∧ dsk w' = apply_op (OpSaveCP idx)
                   (apply_op (OpAppend (ts e) idx rec) (dsk w)).
Proof.
  intros idx prompt Hlt. rewrite scenario_step_eq by done. fold idx prompt.
  destruct (pick_api_key KEY_LIST idx) as [api_key|x]; [|done].
  destruct (call_model_step sc e prompt api_key w)
    as (resp & cevs & Hcall & Hext & Hsteps & Hreq & Hsent).
  rewrite Hcall.
  destruct (sc_extract sc resp (persona_ids var)) as [parsed|x] eqn:Hex; [|done].
  destruct (persona_meta_of inp var) as [meta|x]; [|done]. cbv zeta.
  rewrite !durable_eq. simpl.
  destruct (kill w) as [[|[|n]]|]; simpl; try done;
    (destruct (key_number KEY_LIST api_key) as [key_no|x]; [|done]);
    intros [= <- <-]; exists api_key, resp, cevs, parsed, meta, key_no;
    (repeat apply conj; try done; cbv zeta; repeat apply conj; try done);
    simpl; by rewrite <- !app_assoc.
Qed.

Hypothesis extract_total :
  ∀ resp pids, ∃ parsed, sc_extract sc resp pids = Ret parsed.

(** How a scenario that is not skipped can end. *)
Lemma scenario_step_progress var block vi si style_key tpl done w :
  let idx := (vi - 1) * L + si in
  done < idx →
  let o := scenario_step sc KEY_LIST inp e var block vi si style_key tpl done w in
  ∃ evs,
    extends w evs (final o)
    ∧ progress (ts e) [idx] (steps evs) (ending_of o)
    ∧ (∀ d w', o = Done d w' → d = idx)
    ∧ (kill w = None → ∀ op, ending_of o ≠ EKilled op)
    ∧ (KEY_LIST ≠ [] → (∃ meta, persona_meta_of inp var = Ret meta) →
       ∀ x, ending_of o ≠ ERaised x).
Proof.
  intros idx Hlt o. subst o. rewrite scenario_step_eq by done. fold idx.
  set (prompt := sc_render_prompt sc tpl block).
  destruct (pick_api_key KEY_LIST idx) as [api_key|x] eqn:Hpick.
  2:{ exists []. split; [apply extends_refl|]. split; [constructor|].
      split; [done|]. split; [done|]. intros Hne _.
      destruct (pick_api_key_some idx Hne) as [k Hk]. congruence. }
  destruct (call_model_step sc e prompt api_key w)
    as (resp & cevs & Hcall & Hext & Hsteps & _ & _).
  rewrite Hcall. set (w1 := add_events w cevs) in *.
  destruct (extract_total resp (persona_ids var)) as [parsed ->].
  destruct (persona_meta_of inp var) as [meta|x] eqn:Hmeta.
  2:{ exists cevs. split; [done|]. rewrite Hsteps. split; [constructor|].
      split; [done|]. split; [done|]. intros _ [meta' ?]. done. }
  cbv zeta. set (rec := record_of _ _ _ _ _ _ _ _).
  destruct (durable_cases (OpAppend (ts e) idx rec) w1)
    as [[-> Hk]|(w2 & -> & Hext2)].
  { exists cevs. split; [done|]. rewrite Hsteps. split; [constructor|].
    split; [done|]. split; [|done]. intros Hnone. by destruct Hk. }
  destruct (durable_cases (OpSaveCP idx) w2) as [[-> Hk]|(w3 & -> & Hext3)].
  { exists (cevs ++ [EvDisk (OpAppend (ts e) idx rec)]).
    split; [by eapply extends_trans|]. rewrite steps_app, Hsteps.
    split; [constructor|]. split; [done|]. split; [|done].
    intros Hnone. destruct Hk. apply Hext2, Hext, Hnone. }
  destruct (key_number_elem api_key (pick_api_key_elem idx api_key Hpick))
    as [key_no ->].
  eexists (cevs ++ [EvDisk (OpAppend (ts e) idx rec)]
           ++ [EvDisk (OpSaveCP idx)] ++ [_; _]).
  split.
  { eapply extends_trans; [done|]. eapply extends_trans; [done|].
    eapply extends_trans; [done|]. apply extends_add_events.
    by repeat constructor. }
  rewrite !steps_app, Hsteps. simpl.
  split; [apply (pr_item (ts e) idx [] [] EDone); constructor|].
  split; [by intros ?? [= <- _]|]. by split.
Qed.

(** ** The loops *)

Lemma bind_eq {A B} (m : M A) (f : A → M B) w :
  (m ≫= f) w = match m w with
               | Done a w' => f a w'
               | Raised x w' => Raised x w'
               | Killed op w' => Killed op w'
               end.
Proof. done. Qed.

Lemma progress_done_inv tstamp todo ss :
  progress tstamp todo ss EDone → ss = flat_map (item_steps tstamp) todo.
Proof.
  intros H. remember EDone as en eqn:Hen.
  induction H as [|i todo ss en _ IH| | | |]; try done.
  simpl. by rewrite IH.
Qed.

Lemma progress_app tstamp l1 ss1 l2 ss2 en :
  progress tstamp l1 ss1 EDone → progress tstamp l2 ss2 en →
  progress tstamp (l1 ++ l2) (ss1 ++ ss2) en.
Proof.
  intros H1 H2. remember EDone as en1 eqn:Hen.
  induction H1 as [|i todo ss en1 _ IH| | | |]; try done.
  rewrite <- app_assoc. simpl. apply (pr_item tstamp i). by apply IH.
Qed.

Lemma progress_stop tstamp l1 l2 ss en :
  progress tstamp l1 ss en → en ≠ EDone → progress tstamp (l1 ++ l2) ss en.
Proof.
  induction 1 as [|i todo ss en _ IH| | | |]; intros Hen; try done; simpl.
  - apply (pr_item tstamp i). by apply IH.
  - constructor.
  - constructor.
  - constructor.
  - constructor.
Qed.

Section OneVariant.

Context (k : Z) (var : variant) (block : string) (vi : Z).

Lemma style_loop_progress rest si done w :
  done_inv k ((vi - 1) * L + si) done →
  let o := style_loop sc KEY_LIST inp e var block vi si rest done w in
  ∃ evs,
    extends w evs (final o)
    ∧ progress (ts e)
        (filter (λ i, k < i) (seqZ ((vi - 1) * L + si) (len rest)))
        (steps evs) (ending_of o)
    ∧ (∀ d w', o = Done d w' → done_inv k ((vi - 1) * L + si + len rest) d)
    ∧ (kill w = None → ∀ op, ending_of o ≠ EKilled op)
    ∧ (KEY_LIST ≠ [] → (∃ meta, persona_meta_of inp var = Ret meta) →
       ∀ x, ending_of o ≠ ERaised x).
Proof.
  revert si done w.
  induction rest as [|[style_key tpl] rest IH]; intros si done w Hinv o.
  { exists []. subst o. simpl. split; [apply extends_refl|].
    split; [constructor|]. split; [|done].
    intros d w' [= <- <-]. by rewrite Z.add_0_r. }
  set (i0 := (vi - 1) * L + si) in *.
  assert (len ((style_key, tpl) :: rest) = 1 + len rest) as Hlen
    by (unfold len; simpl; lia).
  assert (seqZ i0 (len ((style_key, tpl) :: rest))
          = i0 :: seqZ ((vi - 1) * L + (si + 1)) (len rest)) as Hseq.
  { rewrite Hlen, seqZ_cons by (unfold len; lia). f_equal.
    f_equal; unfold i0; lia. }
  rewrite Hseq. clear Hseq. subst o. cbn [style_loop]. rewrite bind_eq.
  destruct (decide (i0 ≤ done)) as [Hle|Hgt].
  - (* skipped *)
    rewrite scenario_step_skip by done.
    assert (done = k) as -> by (destruct Hinv as [? Hd]; lia).
    rewrite filter_cons_False by lia.
    destruct (IH (si + 1) k w) as (evs & Hext & Hpr & Hd & Hk & Hr).
    { split; [lia|lia]. }
    exists evs. split; [done|]. split; [done|]. split; [|done].
    intros d w' Hdone. apply Hd in Hdone.
    by replace (i0 + len ((style_key, tpl) :: rest))
      with ((vi - 1) * L + (si + 1) + len rest) by (unfold i0; lia).
  - (* executed *)
    rewrite filter_cons_True by (destruct Hinv; lia).
    destruct (scenario_step_progress var block vi si style_key tpl done w)
      as (evs1 & Hext1 & Hpr1 & Hd1 & Hk1 & Hr1); [fold i0; lia|].
    fold i0 in Hpr1, Hd1.
    destruct (scenario_step sc KEY_LIST inp e var block vi si style_key tpl
                done w) as [d w1|x w1|op w1] eqn:Hstep; simpl in *.
    + rewrite (Hd1 d w1 eq_refl) in *.
      destruct (IH (si + 1) i0 w1) as (evs2 & Hext2 & Hpr2 & Hd2 & Hk2 & Hr2).
      { unfold i0. destruct Hinv. split; lia. }
      exists (evs1 ++ evs2). split; [by eapply extends_trans|].
      rewrite steps_app. split.
      { by apply (progress_app (ts e) [i0]). }
      split.
      { intros d' w' Hdone. apply Hd2 in Hdone.
        by replace (i0 + len ((style_key, tpl) :: rest))
          with ((vi - 1) * L + (si + 1) + len rest) by (unfold i0; lia). }
      split; [intros Hnone; apply Hk2, Hext1, Hnone|done].
    + exists evs1. split; [done|].
      split; [by apply (progress_stop (ts e) [i0])|]. by split.
    + exists evs1. split; [done|].
      split; [by apply (progress_stop (ts e) [i0])|]. by split.
Qed.

End OneVariant.

Lemma mapM_result_ok {A B} (f : A → result B) (l : list A) :
  Forall (λ x, ∃ y, f x = Ret y) l → ∃ ys, mapM f l = Ret ys.
Proof.
  induction 1 as [|x l [y Hy] _ [ys IH]]; [by exists []|].
  exists (y :: ys).
  change (mapM f (x :: l))
    with (f x ≫= λ y, mapM f l ≫= λ k, mret (y :: k)).
  by rewrite Hy, IH.
Qed.

Lemma variant_ok_block var :
  variant_ok sc inp var = true → ∃ block, candidates_block sc inp var = Ret block.
Proof.
  intros Hok. unfold candidates_block.
  destruct (mapM_result_ok (resume_text sc inp) (persona_ids var)) as [txts ->];
    [|by eexists].
  apply Forall_forall. intros pid Hpid. unfold variant_ok in Hok.
  rewrite forallb_forall in Hok.
  specialize (Hok pid (proj1 (list_elem_of_In _ _) Hpid)).
  unfold resume_text. destruct (id2p inp !! pid) as [p|]; [|done].
  apply bool_decide_eq_true_1 in Hok as [v ->]. by eexists.
Qed.

Lemma variant_ok_meta var :
  variant_ok sc inp var = true → ∃ meta, persona_meta_of inp var = Ret meta.
Proof.
  intros Hok. unfold persona_meta_of. apply mapM_result_ok.
  apply Forall_forall. intros pid Hpid. unfold variant_ok in Hok.
  rewrite forallb_forall in Hok.
  specialize (Hok pid (proj1 (list_elem_of_In _ _) Hpid)).
  destruct (id2p inp !! pid) as [p|]; [|done]. by eexists.
Qed.

Lemma variant_loop_progress k vars vi done w :
  done_inv k ((vi - 1) * L + 1) done →
  let o := variant_loop sc KEY_LIST inp e false vi vars done w in
  ∃ evs,
    extends w evs (final o)
    ∧ progress (ts e)
        (filter (λ i, k < i) (seqZ ((vi - 1) * L + 1) (len vars * L)))
        (steps evs) (ending_of o)
    ∧ (kill w = None → ∀ op, ending_of o ≠ EKilled op)
    ∧ (KEY_LIST ≠ [] → forallb (variant_ok sc inp) vars = true →
       ∀ x, ending_of o ≠ ERaised x).
Proof.
  revert vi done w. induction vars as [|var vars IH]; intros vi done w Hinv o.
  { exists []. subst o. simpl. split; [apply extends_refl|].
    split; [constructor|]. by split. }
  assert (0 ≤ L) as HL by (unfold len; lia).
  assert (len (var :: vars) * L = L + len vars * L) as ->
    by (unfold len; simpl; lia).
  rewrite seqZ_app by (unfold len in *; lia). rewrite filter_app.
  replace ((vi - 1) * L + 1 + L) with ((vi + 1 - 1) * L + 1) by lia.
  subst o. cbn [variant_loop]. cbn [andb]. rewrite bind_eq.
  destruct (candidates_block sc inp var) as [block|x] eqn:Hblock; simpl.
  2:{ exists []. split; [apply extends_refl|]. split; [constructor|].
      split; [done|]. intros _ [Hvar _]%andb_true_iff.
      destruct (variant_ok_block var Hvar) as [b Hb]. congruence. }
  rewrite bind_eq.
  destruct (style_loop_progress k var block vi (style_items inp) 1 done w Hinv)
    as (evs1 & Hext1 & Hpr1 & Hd1 & Hk1 & Hr1).
  destruct (style_loop sc KEY_LIST inp e var block vi 1 (style_items inp) done w)
    as [d w1|x w1|op w1] eqn:Hloop; simpl in *.
  - destruct (IH (vi + 1) d w1) as (evs2 & Hext2 & Hpr2 & Hk2 & Hr2).
    { specialize (Hd1 d w1 eq_refl).
      by replace ((vi + 1 - 1) * L + 1) with ((vi - 1) * L + 1 + L) by lia. }
    exists (evs1 ++ evs2). split; [by eapply extends_trans|].
    rewrite steps_app. split; [by apply progress_app|].
    split; [intros Hnone; apply Hk2, Hext1, Hnone|].
    intros Hne [Hvar Hvars]%andb_true_iff. by apply Hr2.
  - exists evs1. split; [done|]. split; [by apply progress_stop|].
    split; [done|]. intros Hne [Hvar Hvars]%andb_true_iff.
    apply Hr1; [done|]. by apply variant_ok_meta.
  - exists evs1. split; [done|]. split; [by apply progress_stop|].
    split; [done|]. intros Hne [Hvar Hvars]%andb_true_iff.
    apply Hr1; [done|]. by apply variant_ok_meta.
Qed.

End Loops.

(** ** A whole process *)

Section Process.

Context (sc : script) (KEY_LIST : list string) (inp : inputs).

Hypothesis extract_total :
  ∀ resp pids, ∃ parsed, sc_extract sc resp pids = Ret parsed.

Lemma main_progress e w :
  let o := main sc KEY_LIST inp e false w in
  ∃ evs,
    extends w evs (final o)
    ∧ process_steps (ts e) (todo_from (checkpoint_of (dsk w)) (total inp))
        (steps evs) (ending_of o)
    ∧ (kill w = None → ∀ op, ending_of o ≠ EKilled op)
    ∧ (KEY_LIST ≠ [] → corpus_ok sc inp = true → ∀ x, ending_of o ≠ ERaised x).
Proof.
  intros o. subst o. unfold main. rewrite bind_eq.
  change (load_checkpoint w) with (Done (checkpoint_of (dsk w)) w).
  cbv beta iota. set (k := checkpoint_of (dsk w)). rewrite bind_eq.
  destruct (durable_cases (OpOpen (ts e)) w) as [[-> Hk]|(w1 & -> & Hext1)].
  { exists []. split; [apply extends_refl|]. split; [constructor|].
    split; [|done]. intros Hnone. by destruct Hk. }
  cbv beta iota. rewrite bind_eq.
  destruct (variant_loop_progress sc KEY_LIST inp e extract_total k
              (variants inp) 1 k w1) as (evs2 & Hext2 & Hpr2 & Hk2 & Hr2).
  { split; lia. }
  change (filter _ _) with (todo_from k (total inp)) in Hpr2.
  destruct (variant_loop sc KEY_LIST inp e false 1 (variants inp) k w1)
    as [d w2|x w2|op w2] eqn:Hloop; simpl in *.
  2:{ exists ([EvDisk (OpOpen (ts e))] ++ evs2).
      split; [by eapply extends_trans|]. rewrite steps_app.
      split; [by apply ps_stopped|]. split; [done|]. unfold corpus_ok. auto. }
  2:{ exists ([EvDisk (OpOpen (ts e))] ++ evs2).
      split; [by eapply extends_trans|]. rewrite steps_app.
      split; [by apply ps_stopped|]. split; [|done].
      intros Hnone. apply Hk2, Hext1, Hnone. }
  apply progress_done_inv in Hpr2.
  rewrite bind_eq, emit_add. cbv iota beta. rewrite bind_eq.
  unfold get_disk. cbv iota beta.
  set (w3 := add_events w2 [EvInfo d (total inp)]).
  assert (extends w ([EvDisk (OpOpen (ts e))] ++ evs2 ++ [EvInfo d (total inp)]) w3)
    as Hext3.
  { eapply extends_trans; [done|]. eapply extends_trans; [done|].
    apply extends_add_events. by repeat constructor. }
  assert (steps ([EvDisk (OpOpen (ts e))] ++ evs2 ++ [EvInfo d (total inp)])
          = SOpen (ts e) :: flat_map (item_steps (ts e)) (todo_from k (total inp)))
    as Hsteps3.
  { rewrite !steps_app, Hpr2. simpl. by rewrite app_nil_r. }
  destruct (bool_decide (total inp ≤ d) && bool_decide (is_Some (cp_file (dsk w3)))).
  - destruct (durable_cases OpUnlink w3) as [[-> Hk]|(w4 & -> & Hext4)].
    + eexists. split; [exact Hext3|]. rewrite Hsteps3.
      split; [apply ps_killed_unlink|]. split; [|done].
      intros Hnone. destruct Hk. apply Hext3, Hnone.
    + eexists. split; [by eapply extends_trans|].
      rewrite steps_app, Hsteps3. split; [apply (ps_complete _ _ true)|].
      by split.
  - eexists. split; [exact Hext3|]. rewrite Hsteps3.
    rewrite <- (app_nil_r (flat_map _ _)).
    split; [apply (ps_complete _ _ false)|]. by split.
Qed.

End Process.

(** ** The directory after the steps of a run *)

Lemma file_lines_open d t t0 :
  file_lines (apply_op (OpOpen t) d) t0 = file_lines d t0.
Proof.
  unfold file_lines. simpl. destruct (decide (t = t0)) as [->|Hne].
  - by rewrite lookup_insert_eq.
  - by rewrite lookup_insert_ne.
Qed.

Lemma file_lines_append d t i r t0 :
  file_lines (apply_op (OpAppend t i r) d) t0
  = file_lines d t0 ++ (if decide (t = t0) then [(i, r)] else []).
Proof.
  unfold file_lines. simpl. destruct (decide (t = t0)) as [->|Hne].
  - by rewrite lookup_insert_eq.
  - by rewrite lookup_insert_ne, app_nil_r.
Qed.

Lemma replay_cons ev evs d :
  replay (ev :: evs) d
  = replay evs (match ev with EvDisk op => apply_op op d | _ => d end).
Proof. done. Qed.

Lemma file_indices_replay evs d t0 :
  file_indices (replay evs d) t0 = file_indices d t0 ++ appended t0 (steps evs).
Proof.
  revert d. induction evs as [|ev evs IH]; intros d.
  { simpl. by rewrite app_nil_r. }
  rewrite replay_cons, IH. unfold file_indices.
  destruct ev as [| | | |[t|t i r|n|]| |]; try done; cbv beta iota.
  - by rewrite file_lines_open.
  - rewrite file_lines_append, fmap_app, <- app_assoc. f_equal.
    unfold appended. simpl. by destruct (decide (t = t0)).
Qed.

Lemma indices_insert (m : gmap string (list (Z * record))) t extra :
  map_to_list (<[t := default [] (m !! t) ++ extra]> m) ≫= (λ f, fst <$> f.2)
  ≡ₚ (map_to_list m ≫= (λ f, fst <$> f.2)) ++ (fst <$> extra).
Proof.
  destruct (m !! t) as [l|] eqn:Hl; simpl.
  - rewrite <- insert_delete_eq.
    rewrite map_to_list_insert by apply lookup_delete_eq.
    rewrite <- (map_to_list_delete m t l Hl). simpl.
    rewrite fmap_app, <- !app_assoc. apply Permutation_app_head.
    apply Permutation_app_comm.
  - rewrite map_to_list_insert by done. simpl. apply Permutation_app_comm.
Qed.

Lemma all_indices_open d t : all_indices (apply_op (OpOpen t) d) ≡ₚ all_indices d.
Proof.
  pose proof (indices_insert (logs d) t []) as H.
  rewrite !app_nil_r in H. exact H.
Qed.

Lemma all_indices_append d t i r :
  all_indices (apply_op (OpAppend t i r) d) ≡ₚ all_indices d ++ [i].
Proof. exact (indices_insert (logs d) t [(i, r)]). Qed.

Lemma all_indices_replay evs d :
  all_indices (replay evs d) ≡ₚ all_indices d ++ all_appended (steps evs).
Proof.
  revert d. induction evs as [|ev evs IH]; intros d.
  { simpl. by rewrite app_nil_r. }
  rewrite replay_cons, IH.
  destruct ev as [| | | |[t|t i r|n|]| |]; try done; cbv beta iota.
  - by rewrite all_indices_open.
  - by rewrite all_indices_append, <- app_assoc.
Qed.

Lemma cp_value_replay evs d :
  cp_value (replay evs d) = cp_after (steps evs) (cp_value d).
Proof.
  revert d. induction evs as [|ev evs IH]; intros d; [done|].
  rewrite replay_cons, IH.
  destruct ev as [| | | |[t|t i r|n|]| |]; try done; simpl.
Qed.

Lemma checkpoint_of_cp_value d : checkpoint_of d = default 0 (cp_value d).
Proof. unfold checkpoint_of, cp_value. by destruct (cp_file d). Qed.

(** ** Sequences of indices *)

Lemma item_steps_all_appended t l : all_appended (flat_map (item_steps t) l) = l.
Proof. induction l as [|i l IH]; [done|]. simpl. by rewrite IH. Qed.

Lemma appended_app t ss1 ss2 :
  appended t (ss1 ++ ss2) = appended t ss1 ++ appended t ss2.
Proof. apply omap_app. Qed.

Lemma item_steps_appended t l : appended t (flat_map (item_steps t) l) = l.
Proof.
  induction l as [|i l IH]; [done|].
  change (flat_map (item_steps t) (i :: l))
    with (item_steps t i ++ flat_map (item_steps t) l).
  rewrite appended_app, IH. unfold appended. simpl.
  by rewrite decide_True.
Qed.

Lemma item_steps_saved t l : saved (flat_map (item_steps t) l) = l.
Proof. induction l as [|i l IH]; [done|]. simpl. by rewrite IH. Qed.

Lemma cp_after_app ss1 ss2 c : cp_after (ss1 ++ ss2) c = cp_after ss2 (cp_after ss1 c).
Proof. apply foldl_app. Qed.

Lemma item_steps_cp_after t l c :
  cp_after (flat_map (item_steps t) l) c = from_option Some c (last l).
Proof.
  revert c. induction l as [|i l IH]; intros c; [done|].
  simpl. rewrite IH, last_cons. by destruct (last l).
Qed.

Lemma all_appended_app ss1 ss2 :
  all_appended (ss1 ++ ss2) = all_appended ss1 ++ all_appended ss2.
Proof. apply omap_app. Qed.


Lemma filter_Forall_all {A} (P : A → Prop) `{!∀ x, Decision (P x)} (l : list A) :
  Forall P l → filter P l = l.
Proof.
  induction 1 as [|x l Hx _ IH]; [done|]. by rewrite filter_cons_True, IH.
Qed.

Lemma filter_Forall_none {A} (P : A → Prop) `{!∀ x, Decision (P x)} (l : list A) :
  Forall (λ x, ¬ P x) l → filter P l = [].
Proof.
  induction 1 as [|x l Hx _ IH]; [done|]. by rewrite filter_cons_False.
Qed.

Lemma todo_from_range k total :
  0 ≤ k ≤ total → todo_from k total = seqZ (k + 1) (total - k).
Proof.
  intros Hk. unfold todo_from.
  replace total with (k + (total - k)) at 1 by lia.
  rewrite seqZ_app by lia. rewrite filter_app.
  rewrite filter_Forall_none by (apply Forall_seqZ; lia).
  rewrite filter_Forall_all by (apply Forall_seqZ; lia).
  simpl. f_equal. lia.
Qed.

Lemma seqZ_prefix a n pre post :
  0 ≤ n → seqZ a n = pre ++ post →
  pre = seqZ a (len pre) ∧ len pre ≤ n.
Proof.
  intros Hn Heq.
  assert (length pre ≤ Z.to_nat n)%nat as Hlen.
  { apply (f_equal length) in Heq. rewrite length_seqZ, length_app in Heq. lia. }
  split; [|unfold len; lia].
  apply list_eq. intros i.
  destruct (decide (i < length pre)%nat) as [Hi|Hi].
  - rewrite lookup_seqZ_lt by (unfold len; lia).
    rewrite <- (lookup_app_l pre post) by done. rewrite <- Heq.
    apply lookup_seqZ_lt. lia.
  - rewrite lookup_ge_None_2 by lia.
    symmetry. apply lookup_seqZ_ge. unfold len. lia.
Qed.

Lemma last_seqZ a n : 0 < n → last (seqZ a n) = Some (a + n - 1).
Proof.
  intros Hn. replace n with (Z.of_nat (S (Z.to_nat (n - 1)))) at 1 by lia.
  rewrite seqZ_S, last_snoc. f_equal. lia.
Qed.

(** ** The shape of interrupted runs *)

Lemma progress_shape t todo ss en :
  progress t todo ss en →
  ∃ pre post tail,
    todo = pre ++ post ∧ ss = flat_map (item_steps t) pre ++ tail
    ∧ match en with
      | EDone => post = [] ∧ tail = []
      | ERaised _ => tail = [] ∨ tail = [SInvoke]
      | EKilled op =>
          ∃ i post', post = i :: post'
            ∧ ((∃ r, op = OpAppend t i r) ∧ tail = [SInvoke]
               ∨ op = OpSaveCP i ∧ tail = [SInvoke; SAppend t i])
      end.
Proof.
  induction 1 as [|i todo ss en _ (pre & post & tail & -> & -> & Htail)
                 |todo x|i todo x|i todo r|i todo].
  - by exists [], [], [].
  - exists (i :: pre), post, tail. by split.
  - exists [], todo, []. auto.
  - exists [], (i :: todo), [SInvoke]. auto.
  - exists [], (i :: todo), [SInvoke]. split; [done|]. split; [done|].
    exists i, todo. split; [done|]. left. eauto.
  - exists [], (i :: todo), [SInvoke; SAppend t i]. split; [done|]. split; [done|].
    exists i, todo. auto.
Qed.

(** What an interrupted process leaves when it did not stop between an
    append and the save of the checkpoint: the records of the scenarios
    [pre] it completed, and the checkpoint of the last of them. *)
Lemma process_boundary_shape t todo ss en :
  process_steps t todo ss en → at_boundary en →
  ∃ pre post,
    todo = pre ++ post ∧ all_appended ss = pre
    ∧ ∀ c, cp_after ss c = from_option Some c (last pre).
Proof.
  destruct 1 as [|ss en Hpr Hne| |unlinked]; intros Hb.
  - by exists [], todo.
  - apply progress_shape in Hpr as (pre & post & tail & -> & -> & Htail).
    exists pre, post. split; [done|].
    assert (tail = [] ∨ tail = [SInvoke]) as Ht.
    { destruct en as [|x|op]; [done|done|].
      destruct Htail as (i & post' & _ & [[[r ->] ->]|[-> ->]]); [by right|done]. }
    split.
    + simpl. rewrite all_appended_app, item_steps_all_appended.
      destruct Ht as [-> | ->]; by rewrite app_nil_r.
    + intros c. simpl. rewrite cp_after_app, item_steps_cp_after.
      by destruct Ht as [-> | ->].
  - exists todo, []. split; [by rewrite app_nil_r|]. split.
    + simpl. apply item_steps_all_appended.
    + intros c. simpl. apply item_steps_cp_after.
  - done.
Qed.

Lemma process_complete_shape t todo ss :
  process_steps t todo ss EDone →
  all_appended ss = todo ∧ appended t ss = todo ∧ saved ss = todo.
Proof.
  inversion 1 as [|ss' en Hpr Hne| |unlinked]; subst; [done|].
  simpl. unfold appended, all_appended, saved. rewrite !omap_app.
  fold (appended t (flat_map (item_steps t) todo)).
  fold (all_appended (flat_map (item_steps t) todo)).
  fold (saved (flat_map (item_steps t) todo)).
  rewrite item_steps_all_appended, item_steps_appended, item_steps_saved.
  by destruct unlinked; simpl; rewrite !app_nil_r.
Qed.

(** ** The state of the directory between two executions *)

Lemma consistent_boundary total d evs t en :
  consistent total d →
  process_steps t (todo_from (checkpoint_of d) total) (steps evs) en →
  at_boundary en →
  consistent total (replay evs d).
Proof.
  intros [Hk Hall] Hps Hb. set (k := checkpoint_of d) in *.
  destruct (process_boundary_shape _ _ _ _ Hps Hb) as (pre & post & Htodo & Happ & Hcp).
  rewrite todo_from_range in Htodo by done.
  destruct (seqZ_prefix (k + 1) (total - k) pre post) as [Hpre Hlen]; [lia|done|].
  assert (checkpoint_of (replay evs d) = k + len pre) as Hk'.
  { rewrite checkpoint_of_cp_value, cp_value_replay, Hcp.
    destruct (decide (len pre = 0)) as [H0|H0].
    - destruct pre; [|done]. simpl. rewrite <- checkpoint_of_cp_value. fold k. rewrite H0. lia.
    - assert (last pre = Some (k + len pre)) as ->.
      { rewrite Hpre at 1. rewrite last_seqZ by (unfold len in *; lia).
        f_equal. lia. }
      done. }
  split; [rewrite Hk'; unfold len in *; lia|].
  rewrite Hk', all_indices_replay, Happ, Hall.
  rewrite (seqZ_app 1 k (len pre)) by (unfold len; lia).
  rewrite Hpre at 1. by rewrite Z.add_comm.
Qed.

Lemma consistent_complete total d evs t :
  consistent total d →
  process_steps t (todo_from (checkpoint_of d) total) (steps evs) EDone →
  all_indices (replay evs d) ≡ₚ seqZ 1 total.
Proof.
  intros [Hk Hall] Hps. set (k := checkpoint_of d) in *.
  destruct (process_complete_shape _ _ _ Hps) as (Happ & _ & _).
  rewrite all_indices_replay, Happ, Hall, todo_from_range by done.
  replace total with (k + (total - k)) at 2 by lia.
  rewrite (seqZ_app 1 k (total - k)) by lia. by rewrite Z.add_comm.
Qed.

(** What any process leaves: the records of the scenarios [pre] it
    completed, perhaps one more, and the checkpoint of the last of [pre],
    or none. *)
Lemma process_any_shape t todo ss en :
  process_steps t todo ss en →
  ∃ pre post extra,
    todo = pre ++ post ∧ all_appended ss = pre ++ extra
    ∧ (∀ c, cp_after ss c = from_option Some c (last pre) ∨ cp_after ss c = None)
    ∧ (en = EDone → post = []).
Proof.
  destruct 1 as [|ss en Hpr Hne| |unlinked].
  - exists [], todo, []. split; [done|]. split; [done|]. split; [by left|done].
  - apply progress_shape in Hpr as (pre & post & tail & -> & -> & Htail).
    exists pre, post, (all_appended tail). split; [done|]. split.
    { simpl. by rewrite all_appended_app, item_steps_all_appended. }
    split; [|done]. intros c. left. simpl.
    rewrite cp_after_app, item_steps_cp_after.
    destruct en as [|x|op]; [done| |].
    + by destruct Htail as [-> | ->].
    + by destruct Htail as (i & post' & _ & [[[r ->] ->]|[-> ->]]).
  - exists todo, [], []. rewrite !app_nil_r. split; [done|]. split.
    { simpl. apply item_steps_all_appended. }
    split; [|done]. intros c. left. simpl. apply item_steps_cp_after.
  - exists todo, [], []. rewrite !app_nil_r. split; [done|]. split.
    { simpl. rewrite all_appended_app, item_steps_all_appended.
      destruct unlinked; by rewrite app_nil_r. }
    split; [|done]. intros c. simpl. rewrite cp_after_app, item_steps_cp_after.
    destruct unlinked; [by right|by left].
Qed.

Lemma covered_step total d evs t en :
  covered total d →
  process_steps t (todo_from (checkpoint_of d) total) (steps evs) en →
  covered total (replay evs d)
  ∧ (en = EDone → ∀ i, 1 ≤ i ≤ total → i ∈ all_indices (replay evs d)).
Proof.
  intros [Hk Hall] Hps. set (k := checkpoint_of d) in *.
  destruct (process_any_shape _ _ _ _ Hps)
    as (pre & post & extra & Htodo & Happ & Hcp & Hdone).
  rewrite todo_from_range in Htodo by done.
  destruct (seqZ_prefix (k + 1) (total - k) pre post) as [Hpre Hlen]; [lia|done|].
  assert (∀ i, 1 ≤ i ≤ k + len pre → i ∈ all_indices (replay evs d)) as Hin.
  { intros i Hi. rewrite all_indices_replay, Happ, !elem_of_app.
    destruct (decide (i ≤ k)) as [Hle|Hgt]; [left; apply Hall; lia|].
    right. left. rewrite Hpre. apply elem_of_seqZ. lia. }
  assert (checkpoint_of (replay evs d) = k + len pre
          ∨ checkpoint_of (replay evs d) = 0) as Hk'.
  { rewrite checkpoint_of_cp_value, cp_value_replay.
    destruct (Hcp (cp_value d)) as [-> | ->]; [left|by right].
    destruct (decide (len pre = 0)) as [H0|H0].
    - destruct pre; [|done]. simpl. rewrite <- checkpoint_of_cp_value.
      fold k. rewrite H0. lia.
    - assert (last pre = Some (k + len pre)) as ->; [|done].
      rewrite Hpre at 1. rewrite last_seqZ by (unfold len in *; lia).
      f_equal. lia. }
  split.
  - split.
    + destruct Hk' as [-> | ->]; unfold len in *; lia.
    + intros i Hi. apply Hin. destruct Hk' as [Hk' | Hk']; rewrite Hk' in Hi;
        unfold len in *; lia.
  - intros Hen i Hi. apply Hin. rewrite (Hdone Hen), app_nil_r in Htodo.
    apply (f_equal length) in Htodo. rewrite length_seqZ in Htodo.
    unfold len. lia.
Qed.

(** ** Both scripts parse every answer *)

Lemma HR_extract_total resp pids :
  ∃ parsed, sc_extract HRrun.script resp pids = Ret parsed.
Proof.
  simpl. rewrite HR_extract_eq, SWE_extract_eq.
  destruct (bool_decide (resp ≠ EmptyString)); by eexists.
Qed.

Lemma SWE_extract_total resp pids :
  ∃ parsed, sc_extract SWErun.script resp pids = Ret parsed.
Proof. simpl. rewrite SWE_extract_eq. by eexists. Qed.

Lemma script_extract_total sc :
  sc = HRrun.script ∨ sc = SWErun.script →
  ∀ resp pids, ∃ parsed, sc_extract sc resp pids = Ret parsed.
Proof.
  intros [-> | ->]; [apply HR_extract_total|apply SWE_extract_total].
Qed.


(** ** Several executions *)

Section Executions.

Context (sc : script) (keys : list string) (inp : inputs).

Hypothesis extract_total :
  ∀ resp pids, ∃ parsed, sc_extract sc resp pids = Ret parsed.

Lemma run_process_progress x w :
  let o := run_process sc keys inp x w in
  ∃ evs,
    dsk (final o) = replay evs (dsk w)
    ∧ process_steps (ts (ex_env x)) (todo_from (checkpoint_of (dsk w)) (total inp))
        (steps evs) (ending_of o).
Proof.
  destruct (main_progress sc keys inp extract_total (ex_env x)
              {| dsk := dsk w; hist := hist w; kill := ex_kill x |})
    as (evs & (_ & Hd & _) & Hps & _).
  by exists evs.
Qed.

Lemma run_all_app xs ys w :
  run_all sc keys inp (xs ++ ys) w
  = let '(ens1, w1) := run_all sc keys inp xs w in
    let '(ens2, w2) := run_all sc keys inp ys w1 in
    (ens1 ++ ens2, w2).
Proof.
  revert w. induction xs as [|x xs IH]; intros w; simpl.
  - by destruct (run_all sc keys inp ys w).
  - rewrite IH. destruct (run_all sc keys inp xs _) as [ens1 w1].
    by destruct (run_all sc keys inp ys w1).
Qed.

Lemma run_all_consistent xs w ens w' :
  consistent (total inp) (dsk w) →
  run_all sc keys inp xs w = (ens, w') →
  Forall at_boundary ens →
  consistent (total inp) (dsk w').
Proof.
  revert w ens. induction xs as [|x xs IH]; intros w ens Hc; simpl.
  - by intros [= <- <-].
  - destruct (run_all sc keys inp xs _) as [ens1 w1] eqn:Hrest.
    intros [= <- <-] [Hb Hbs]%Forall_cons.
    destruct (run_process_progress x w) as (evs & Hd & Hps).
    apply (IH (final (run_process sc keys inp x w)) ens1); [|done..].
    rewrite Hd. by eapply consistent_boundary.
Qed.

Lemma run_all_exactly_once xs x w0 ens w' :
  consistent (total inp) (dsk w0) →
  run_all sc keys inp (xs ++ [x]) w0 = (ens ++ [EDone], w') →
  Forall at_boundary ens →
  all_indices (dsk w') ≡ₚ seqZ 1 (total inp).
Proof.
  intros Hc Hrun Hb. rewrite run_all_app in Hrun.
  destruct (run_all sc keys inp xs w0) as [ens1 w1] eqn:Hxs.
  simpl in Hrun. injection Hrun as Hens <-.
  apply app_inj_tail in Hens as [<- Hend].
  destruct (run_process_progress x w1) as (evs & Hd & Hps).
  rewrite Hd. rewrite Hend in Hps.
  eapply consistent_complete; [|done].
  by eapply run_all_consistent.
Qed.

Lemma run_all_covered xs w ens w' :
  covered (total inp) (dsk w) →
  run_all sc keys inp xs w = (ens, w') →
  covered (total inp) (dsk w').
Proof.
  revert w ens. induction xs as [|x xs IH]; intros w ens Hc; simpl.
  - by intros [= <- <-].
  - destruct (run_all sc keys inp xs _) as [ens1 w1] eqn:Hrest.
    intros [= <- <-].
    destruct (run_process_progress x w) as (evs & Hd & Hps).
    apply (IH (final (run_process sc keys inp x w)) ens1); [|done].
    rewrite Hd. by eapply covered_step.
Qed.

Lemma run_all_no_gaps xs x w0 ens w' :
  covered (total inp) (dsk w0) →
  run_all sc keys inp (xs ++ [x]) w0 = (ens ++ [EDone], w') →
  ∀ i, 1 ≤ i ≤ total inp → i ∈ all_indices (dsk w').
Proof.
  intros Hc Hrun. rewrite run_all_app in Hrun.
  destruct (run_all sc keys inp xs w0) as [ens1 w1] eqn:Hxs.
  simpl in Hrun. injection Hrun as Hens <-.
  apply app_inj_tail in Hens as [<- Hend].
  destruct (run_process_progress x w1) as (evs & Hd & Hps).
  rewrite Hd. rewrite Hend in Hps.
  eapply covered_step; [|done..].
  by eapply run_all_covered.
Qed.

Lemma run_process_own_file x w :
  ending_of (run_process sc keys inp x w) = EDone →
  logs (dsk w) !! ts (ex_env x) = None →
  file_indices (dsk (final (run_process sc keys inp x w))) (ts (ex_env x))
  = todo_from (checkpoint_of (dsk w)) (total inp).
Proof.
  intros Hend Hfresh.
  destruct (run_process_progress x w) as (evs & Hd & Hps).
  rewrite Hd, file_indices_replay. rewrite Hend in Hps.
  destruct (process_complete_shape _ _ _ Hps) as (_ & -> & _).
  unfold file_indices, file_lines. by rewrite Hfresh.
Qed.

End Executions.

Lemma consistent_empty total logs_none :
  0 ≤ total → logs_none = ∅ →
  consistent total {| logs := logs_none; cp_file := None |}.
Proof.
  intros Ht ->. split; [done|]. unfold all_indices. simpl.
  by rewrite map_to_list_empty.
Qed.

Lemma total_nonneg inp : 0 ≤ total inp.
Proof. unfold total, len. lia. Qed.

Lemma consistent_covered total d : consistent total d → covered total d.
Proof.
  intros [Hk Hall]. split; [done|]. intros i Hi.
  rewrite Hall. apply elem_of_seqZ. lia.
Qed.

(** C1, as amended — Exactly-once accounting.  Every process writes a log
    file of its own, so the records of one run are spread over the files of
    its executions.  Take a run of either script that starts in a
    consistent directory (an empty one is), is interrupted any number of
    times and is resumed until an execution completes.  Then the log files
    of the role together hold a record for each [global_index] in
    1..total (no gaps); and if no interruption fell between the append of a
    record and the save of its checkpoint, they hold exactly one record for
    each index (no duplicates either).  The file of an execution that
    completes holds, if it was new, exactly the records of the indices
    above the checkpoint the execution started from, in order. *)
Theorem exactly_once_accounting (sc : script) (keys : list string)
  (inp : inputs) :
  sc = HRrun.script ∨ sc = SWErun.script →
  (∀ xs x w0 ens w',
     consistent (total inp) (dsk w0) →
     run_all sc keys inp (xs ++ [x]) w0 = (ens ++ [EDone], w') →
     (∀ i, 1 ≤ i ≤ total inp → i ∈ all_indices (dsk w'))
     ∧ (Forall at_boundary ens →
        all_indices (dsk w') ≡ₚ seqZ 1 (total inp)))
  ∧ (∀ x w,
       ending_of (run_process sc keys inp x w) = EDone →
       logs (dsk w) !! ts (ex_env x) = None →
       file_indices (dsk (final (run_process sc keys inp x w))) (ts (ex_env x))
       = todo_from (checkpoint_of (dsk w)) (total inp))
  ∧ consistent (total inp) {| logs := ∅; cp_file := None |}.
Proof.
  intros Hsc. pose proof (script_extract_total sc Hsc) as Htot.
  split; [|split].
  - intros xs x w0 ens w' Hc Hrun. split.
    + eapply run_all_no_gaps; [done| |done]. by apply consistent_covered.
    + by eapply run_all_exactly_once.
  - intros x w. by apply run_process_own_file.
  - apply consistent_empty; [apply total_nonneg|done].
Qed.

Lemma exactly_once_accounting_witness :
  let r := run_all HRrun.script Example.keys Example.inp
             [Example.first_run 3; Example.second_run] Example.empty_dir in
  r.1 = removelast r.1 ++ [EDone]
  ∧ Forall at_boundary (removelast r.1)
  ∧ all_indices (dsk r.2) ≡ₚ seqZ 1 (total Example.inp).
Proof.
  intros r.
  assert (r.1 = removelast r.1 ++ [EDone]) as H1 by (vm_compute; reflexivity).
  assert (Forall at_boundary (removelast r.1)) as H2
    by (vm_compute; repeat constructor).
  split; [exact H1|]. split; [exact H2|].
  apply (proj1 (exactly_once_accounting HRrun.script Example.keys Example.inp
                  (or_introl eq_refl))
           [Example.first_run 3] Example.second_run Example.empty_dir
           (removelast r.1) r.2).
  - apply consistent_empty; [apply total_nonneg|done].
  - rewrite <- H1. apply surjective_pairing.
  - exact H2.
Defined.

(** C1, as stated, fails.  Three scenarios; the first execution is killed
    after it appended the record of the second scenario and before it saved
    the checkpoint; the second execution completes.  The final run log
    holds the records 2 and 3 only, and the logs together hold the record
    2 twice: neither is one record for each index in 1..3. *)
Lemma exactly_once_accounting_counterexample :
  let r := run_all HRrun.script Example.keys Example.inp
             [Example.first_run 4; Example.second_run] Example.empty_dir in
  r.1 = [EKilled (OpSaveCP 2); EDone]
  ∧ total Example.inp = 3
  ∧ file_indices (dsk r.2) "20250601T000000Z" = [1; 2]
  ∧ file_indices (dsk r.2) "20250601T010000Z" = [2; 3]
  ∧ ¬ (file_indices (dsk r.2) "20250601T010000Z" ≡ₚ seqZ 1 3)
  ∧ ¬ (all_indices (dsk r.2) ≡ₚ seqZ 1 3).
Proof.
  intros r.
  assert (file_indices (dsk r.2) "20250601T010000Z" = [2; 3]) as Hlast
    by (vm_compute; reflexivity).
  assert (length (all_indices (dsk r.2)) = 4%nat) as Hall
    by (vm_compute; reflexivity).
  split; [vm_compute; reflexivity|]. split; [vm_compute; reflexivity|].
  split; [vm_compute; reflexivity|]. split; [exact Hlast|]. split.
  - rewrite Hlast. intros Hp. apply Permutation_length in Hp. done.
  - intros Hp. apply Permutation_length in Hp. rewrite Hall in Hp. done.
Qed.

(** ** One execution from a checkpoint *)










(** ** The record of a failed call *)




(** ** The prompt *)

Lemma strip_prefix_app p s : Py.strip_prefix p (p +:+ s) = Some s.
Proof.
  induction p as [|a p IH]; [by destruct s|].
  rewrite str_app_cons. simpl. by rewrite decide_True.
Qed.

Lemma replace_go_skip old new u s :
  Py.replace_go old new (String.length u) (u +:+ s) = Py.replace_go old new O s.
Proof. induction u as [|a u IH]; [done|]. rewrite str_app_cons. simpl. apply IH. Qed.

Lemma replace_go_no_brace old new s :
  Spec.no_brace s →
  Py.replace_go (String "{" old) new O s = s.
Proof.
  unfold Spec.no_brace. induction s as [|a s IH]; [done|]. simpl.
  intros [Ha Hs]%andb_true_iff. apply negb_true_iff, bool_decide_eq_false_1 in Ha.
  rewrite decide_False by congruence. by rewrite IH.
Qed.

Lemma replace_go_pre old new pre s :
  Spec.no_brace pre →
  Py.replace_go (String "{" old) new O (pre +:+ s)
  = pre +:+ Py.replace_go (String "{" old) new O s.
Proof.
  unfold Spec.no_brace. induction pre as [|a pre IH]; [done|]. simpl.
  intros [Ha Hs]%andb_true_iff. apply negb_true_iff, bool_decide_eq_false_1 in Ha.
  rewrite decide_False by congruence. by rewrite IH.
Qed.

Lemma replace_go_here old new s :
  Py.replace_go (String "{" old) new O (String "{" old +:+ s)
  = new +:+ Py.replace_go (String "{" old) new O s.
Proof.
  rewrite str_app_cons. cbn [Py.replace_go].
  rewrite <- str_app_cons, strip_prefix_app. f_equal.
  replace (String.length (String "{" old) - 1)%nat with (String.length old)
    by (simpl; lia).
  apply replace_go_skip.
Qed.

(** The template with its one placeholder replaced. *)
Lemma replace_placeholder pre post block :
  Spec.no_brace pre → Spec.no_brace post →
  Py.replace (pre +:+ "{{candidates_block}}" +:+ post) "{{candidates_block}}" block
  = pre +:+ block +:+ post.
Proof.
  intros Hpre Hpost. unfold Py.replace.
  change "{{candidates_block}}" with (String "{" "{candidates_block}}").
  by rewrite replace_go_pre, replace_go_here, replace_go_no_brace.
Qed.

Lemma str_app_not_self s t : t ≠ EmptyString → s +:+ t ≠ s.
Proof.
  intros Ht Heq. apply (f_equal String.length) in Heq.
  rewrite str_app_length in Heq. destruct t; [done|]. simpl in Heq. lia.
Qed.

(** C10 — The two entry points do not send the same prompt for a template
    and a block of candidates.  The prompt of [run_gemini_hr.py] is the
    template with its placeholder replaced by the block, followed by two
    newlines and "Please add a brief rationale."; the prompt of
    [run_gemini_swe.py] is the template with its placeholder replaced and
    nothing more, so the two differ.  In each script this prompt is the
    text of every request of a processed scenario (there is at least one)
    and the [prompt_text] of the record logged for it.  On a template with
    one placeholder the replacement puts the block in its place. *)
Theorem prompt_rendering (tpl block : string) :
  sc_render_prompt HRrun.script tpl block
  = Py.replace tpl "{{candidates_block}}" block
    +:+ NL +:+ NL +:+ "Please add a brief rationale."
  ∧ sc_render_prompt SWErun.script tpl block
    = Py.replace tpl "{{candidates_block}}" block
  ∧ sc_render_prompt HRrun.script tpl block
    ≠ sc_render_prompt SWErun.script tpl block
  ∧ (∀ sc keys inp e var vi si style_key done w d w',
       done < (vi - 1) * len (style_items inp) + si →
       scenario_step sc keys inp e var block vi si style_key tpl done w
       = Done d w' →
       ∃ evs rec,
         hist w' = hist w ++ evs
         ∧ requests evs ≠ []
         ∧ Forall (λ p, p = sc_render_prompt sc tpl block) (requests evs)
         ∧ file_lines (dsk w') (ts e) = file_lines (dsk w) (ts e) ++ [(d, rec)]
         ∧ prompt_text rec = sc_render_prompt sc tpl block)
  ∧ (∀ pre post,
       Spec.no_brace pre → Spec.no_brace post →
       Py.replace (pre +:+ "{{candidates_block}}" +:+ post)
         "{{candidates_block}}" block
       = pre +:+ block +:+ post).
Proof.
  split; [done|]. split; [done|]. split; [by apply str_app_not_self|].
  split; [|intros; by apply replace_placeholder].
  intros sc keys inp e var vi si style_key done w d w' Hlt Hstep.
  destruct (scenario_step_done sc keys inp e var block vi si style_key tpl
              done w d w' Hlt Hstep)
    as (api_key & resp & cevs & parsed & meta & key_no & -> & Hpick & Hcall
        & _ & Hreq & Hsent & Hex & Hmeta & Hhist & Hdsk).
  eexists _, (record_of sc var style_key (sc_render_prompt sc tpl block) resp
                parsed meta (now e (hist w ++ cevs))).
  split; [exact Hhist|].
  assert (∀ tail, Forall (λ ev, ∀ p, ev ≠ EvGenerate p) tail →
                  requests (cevs ++ tail) = requests cevs) as Hreqs.
  { intros tail Htail. unfold requests. rewrite omap_app.
    rewrite <- (app_nil_r (omap _ cevs)) at 2. f_equal.
    induction Htail as [|ev tail Hev _ IH]; [done|]. simpl.
    destruct ev; try done. by destruct (Hev prompt). }
  rewrite Hreqs by (by repeat constructor).
  split; [done|]. split; [done|]. split; [|done].
  rewrite Hdsk. unfold file_lines. simpl. by rewrite lookup_insert_eq.
Qed.

Lemma prompt_rendering_witness :
  let o := scenario_step SWErun.script Example.keys Example.inp
             (Example.env_ok "20250601T040000Z")
             {| variant_id := "sh0_b0_p0"; persona_ids := ["pers_001"] |}
             "### Candidate 1" 1 1 "terse" "Rank: {{candidates_block}}" 0
             Example.empty_dir in
  0 < (1 - 1) * len (style_items Example.inp) + 1
  ∧ ∃ rec, file_lines (dsk (final o)) "20250601T040000Z" = [(1, rec)]
           ∧ prompt_text rec = "Rank: ### Candidate 1".
Proof.
  intros o. split; [done|].
  destruct (proj1 (proj2 (proj2 (proj2
              (prompt_rendering "Rank: {{candidates_block}}" "### Candidate 1"))))
              SWErun.script Example.keys Example.inp
              (Example.env_ok "20250601T040000Z")
              {| variant_id := "sh0_b0_p0"; persona_ids := ["pers_001"] |}
              1 1 "terse" 0 Example.empty_dir 1 (final o))
    as (evs & rec & _ & _ & _ & Hfile & Hprompt);
    [done|vm_compute; reflexivity|].
  exists rec. split; [exact Hfile|]. exact Hprompt.
Defined.

(** ** More on strings *)

Lemma str_all_impl (P Q : ascii → bool) s :
  (∀ a, P a = true → Q a = true) →
  Spec.str_all P s = true → Spec.str_all Q s = true.
Proof.
  intros HPQ. induction s as [|a s IH]; simpl; [done|].
  intros [Ha Hs]%andb_true_iff. by rewrite (HPQ a Ha), IH.
Qed.

Lemma lstrip_all P s :
  Spec.str_all P s = true → Spec.str_all P (Py.lstrip s) = true.
Proof.
  induction s as [|a s IH]; simpl; [done|].
  intros Has. destruct (Py.is_space a); [|done].
  apply andb_true_iff in Has as [_ Hs]. auto.
Qed.

Lemma rstrip_all P s :
  Spec.str_all P s = true → Spec.str_all P (Py.rstrip s) = true.
Proof.
  induction s as [|a s IH]; simpl; [done|].
  intros [Ha Hs]%andb_true_iff. specialize (IH Hs).
  destruct (Py.rstrip s) as [|b r].
  - destruct (Py.is_space a); simpl; [done|]. by rewrite Ha.
  - change (P a && Spec.str_all P (String b r) = true). by rewrite Ha, IH.
Qed.

Lemma strip_all P s :
  Spec.str_all P s = true → Spec.str_all P (Py.strip s) = true.
Proof. intros Hs. by apply rstrip_all, lstrip_all. Qed.

Lemma lstrip_head s :
  match Py.lstrip s with
  | String a _ => Py.is_space a = false
  | EmptyString => True
  end.
Proof.
  induction s as [|a s IH]; simpl; [done|].
  by destruct (Py.is_space a) eqn:Ha.
Qed.

Lemma lstrip_fix s :
  match s with String a _ => Py.is_space a = false | EmptyString => True end →
  Py.lstrip s = s.
Proof. destruct s as [|a s]; simpl; [done|]. by intros ->. Qed.

Lemma rstrip_head s :
  match s with String a _ => Py.is_space a = false | EmptyString => True end →
  match Py.rstrip s with
  | String a _ => Py.is_space a = false
  | EmptyString => True
  end.
Proof.
  destruct s as [|a s]; simpl; [done|]. intros Ha.
  destruct (Py.rstrip s); by rewrite ?Ha.
Qed.

Lemma rstrip_idem s : Py.rstrip (Py.rstrip s) = Py.rstrip s.
Proof.
  induction s as [|a s IH]; simpl; [done|].
  destruct (Py.rstrip s) as [|b r] eqn:Hr.
  - destruct (Py.is_space a) eqn:Ha; simpl; [done|]. by rewrite Ha.
  - simpl in *. by rewrite IH.
Qed.

(** [s.strip().strip() == s.strip()] *)
Lemma strip_idem s : Py.strip (Py.strip s) = Py.strip s.
Proof.
  unfold Py.strip.
  rewrite (lstrip_fix (Py.rstrip (Py.lstrip s)))
    by apply rstrip_head, lstrip_head.
  apply rstrip_idem.
Qed.

Lemma split_fields sep s :
  Forall (λ f, Spec.str_all (λ c, negb (bool_decide (c = sep))) f = true)
    (Py.split sep s).
Proof.
  induction s as [|a s IH]; simpl; [by repeat constructor|].
  destruct (decide (a = sep)) as [->|Hne]; [by constructor|].
  destruct (Py.split sep s) as [|f fs].
  - repeat constructor. simpl. by rewrite bool_decide_eq_false_2.
  - inversion IH as [|?? Hf Hfs]; subst. constructor; [|done].
    simpl. by rewrite bool_decide_eq_false_2, Hf.
Qed.

Lemma split_no_sep sep p :
  Spec.str_all (λ c, negb (bool_decide (c = sep))) p = true →
  Py.split sep p = [p].
Proof.
  induction p as [|a p IH]; simpl; [done|].
  intros [Ha Hp]%andb_true_iff. apply negb_true_iff, bool_decide_eq_false in Ha.
  rewrite decide_False by done. by rewrite IH.
Qed.

Lemma split_app_sep sep p rest :
  Spec.str_all (λ c, negb (bool_decide (c = sep))) p = true →
  Py.split sep (p +:+ String sep rest) = p :: Py.split sep rest.
Proof.
  induction p as [|a p IH]; simpl.
  - intros _. by rewrite decide_True.
  - intros [Ha Hp]%andb_true_iff.
    apply negb_true_iff, bool_decide_eq_false in Ha.
    rewrite decide_False by done. by rewrite IH.
Qed.

(** [sep.join(parts).split(sep) == parts] when no part holds [sep] and
    there is a part. *)
Lemma split_join sep parts :
  parts ≠ [] →
  Forall (λ f, Spec.str_all (λ c, negb (bool_decide (c = sep))) f = true) parts →
  Py.split sep (Py.join (String sep EmptyString) parts) = parts.
Proof.
  intros Hne HF. induction HF as [|p ps Hp Hps IH]; [done|].
  destruct ps as [|q ps].
  - simpl. by apply split_no_sep.
  - change (Py.join (String sep EmptyString) (p :: q :: ps))
      with (p +:+ String sep EmptyString
              +:+ Py.join (String sep EmptyString) (q :: ps)).
    change (String sep EmptyString +:+ ?x) with (String sep x).
    rewrite split_app_sep by done. by rewrite IH.
Qed.

(** ** The list of keys *)

(** X1 — The keys of [KEY_LIST].  Whatever the value of [GOOGLE_API_KEYS]
    (absent included), every key that the start-up block of either script
    keeps is non-empty, has no blank at either end ([strip] leaves it as
    it is) and holds no comma. *)
Theorem read_key_list_clean (env : option string) (k : string) :
  k ∈ read_key_list env →
  k ≠ EmptyString
  ∧ Py.strip k = k
  ∧ Spec.str_all (λ c, negb (bool_decide (c = ","%char))) k = true.
Proof.
  unfold read_key_list. intros [Hne Hk]%list_elem_of_filter.
  apply list_elem_of_fmap in Hk as (f & -> & Hf).
  split; [done|]. split; [apply strip_idem|].
  apply strip_all.
  pose proof (split_fields ","%char (default EmptyString env)) as HF.
  rewrite Forall_forall in HF. by apply HF.
Qed.

Lemma read_key_list_clean_witness :
  "key-B" ∈ read_key_list (Some " key-A , ,key-B,")
  ∧ "key-B" ≠ EmptyString ∧ Py.strip "key-B" = "key-B".
Proof.
  assert ("key-B" ∈ read_key_list (Some " key-A , ,key-B,")) as Hin
    by (vm_compute; apply list_elem_of_further, list_elem_of_here).
  split; [exact Hin|].
  destruct (read_key_list_clean (Some " key-A , ,key-B,") "key-B" Hin)
    as (H1 & H2 & _).
  by split.
Defined.

(** X2 — Round trip of the key list.  Keys that are non-empty, without
    blanks at their ends and without a comma, written in [GOOGLE_API_KEYS]
    with commas between them, are read back as the same list in the same
    order; a key written twice is read twice. *)
Theorem read_key_list_join (keys : list string) :
  Forall (λ k, k ≠ EmptyString ∧ Py.strip k = k
               ∧ Spec.str_all (λ c, negb (bool_decide (c = ","%char))) k = true)
    keys →
  read_key_list (Some (Py.join "," keys)) = keys.
Proof.
  intros HF. unfold read_key_list. simpl.
  destruct keys as [|k0 keys]; [done|].
  rewrite split_join; [|done|].
  2:{ eapply Forall_impl; [exact HF|]. by intros k (_ & _ & Hk). }
  induction HF as [|k ks (Hne & Hs & _) _ IH]; [done|].
  rewrite fmap_cons, Hs, filter_cons_True by done. by rewrite IH.
Qed.

Lemma read_key_list_join_witness :
  read_key_list (Some (Py.join "," ["key-A"; "key-B"; "key-C"]))
  = ["key-A"; "key-B"; "key-C"].
Proof.
  apply (read_key_list_join ["key-A"; "key-B"; "key-C"]).
  repeat constructor; done.
Defined.

(** ** The rotation, for any index *)

(** X3 — [pick_api_key] on any integer.  On an empty [KEY_LIST] the
    function raises [ZeroDivisionError].  On a non-empty one it returns a
    key of the list for every integer index, zero and the negative ones
    included: the remainder that [%] gives is never negative, so no
    position is counted from the end of the list and none is out of range.
    The choice has the period [PROMPTS_PER_KEY * len(KEY_LIST)], and two
    indices of the same block of 450 get the same key. *)
Theorem pick_api_key_any_index (keys : list string) (idx : Z) :
  (keys = [] → pick_api_key keys idx = Exc ZeroDivisionError)
  ∧ (keys ≠ [] → ∃ k, pick_api_key keys idx = Ret k ∧ k ∈ keys)
  ∧ pick_api_key keys (idx + PROMPTS_PER_KEY * len keys) = pick_api_key keys idx
  ∧ (∀ idx', (idx - 1) / PROMPTS_PER_KEY = (idx' - 1) / PROMPTS_PER_KEY →
             pick_api_key keys idx' = pick_api_key keys idx).
Proof.
  split; [by intros ->|]. split; [|split].
  - intros Hne. destruct (pick_api_key_some keys idx Hne) as [k Hk].
    exists k. split; [done|]. by eapply pick_api_key_elem.
  - unfold pick_api_key, pick_api_key_with, key_slot, PROMPTS_PER_KEY.
    replace ((idx + 450 * len keys - 1) / 450)
      with ((idx - 1) / 450 + len keys).
    2:{ replace (idx + 450 * len keys - 1) with (idx - 1 + len keys * 450) by lia.
        by rewrite Z.div_add. }
    destruct (len keys =? 0) eqn:Hz; [done|].
    apply Z.eqb_neq in Hz.
    replace ((idx - 1) / 450 + len keys)
      with ((idx - 1) / 450 + 1 * len keys) by lia.
    by rewrite Z.mod_add.
  - intros idx' Heq. unfold pick_api_key, pick_api_key_with, key_slot.
    by rewrite Heq.
Qed.

Lemma pick_api_key_any_index_witness :
  pick_api_key [] 1 = Exc ZeroDivisionError
  ∧ ∃ k, pick_api_key ["key-A"; "key-B"] (-7) = Ret k ∧ k ∈ ["key-A"; "key-B"].
Proof.
  split.
  - by apply (pick_api_key_any_index [] 1).
  - by apply (pick_api_key_any_index ["key-A"; "key-B"] (-7)).
Defined.

(** X4 — The key number of the status line.  For the key that
    [pick_api_key] returned, [KEY_LIST.index(api_key) + 1] does not raise;
    it is the first position, counted from 1, that holds this key, so it
    is at most the position that the rotation chose, and it is that
    position when the keys are distinct. *)
Theorem key_number_position (keys : list string) (idx : Z) :
  keys ≠ [] →
  let slot := key_slot (len keys) PROMPTS_PER_KEY idx in
  ∃ k n,
    pick_api_key keys idx = Ret k
    ∧ key_number keys k = Ret n
    ∧ 1 ≤ n ≤ slot + 1
    ∧ keys !! Z.to_nat (n - 1) = Some k
    ∧ (∀ j, 1 ≤ j < n → keys !! Z.to_nat (j - 1) ≠ Some k)
    ∧ (NoDup keys → n = slot + 1).
Proof.
  intros Hne slot.
  assert (0 < len keys) as Hlen
    by (unfold len; destruct keys; [done|simpl; lia]).
  assert (0 ≤ slot < len keys) as Hslot by (apply Z.mod_pos_bound; lia).
  destruct (lookup_lt_is_Some_2 keys (Z.to_nat slot)) as [k Hk];
    [unfold len in Hslot; lia|].
  assert (pick_api_key keys idx = Ret k) as Hpick.
  { unfold pick_api_key, pick_api_key_with. fold slot.
    rewrite (proj2 (Z.eqb_neq _ _)) by lia. by rewrite Hk. }
  destruct (list_find (λ k', k' = k) keys) as [[i k']|] eqn:Hfind.
  2:{ apply list_find_None in Hfind. rewrite Forall_forall in Hfind.
      exfalso. apply (Hfind k); [by eapply list_elem_of_lookup_2|done]. }
  assert (key_number keys k = Ret (Z.of_nat i + 1)) as Hnum
    by (unfold key_number; by rewrite Hfind).
  apply list_find_Some in Hfind as (Hi & -> & Hmin).
  exists k, (Z.of_nat i + 1). split; [done|]. split; [done|].
  assert (i ≤ Z.to_nat slot)%nat as Hle.
  { destruct (decide (i ≤ Z.to_nat slot)%nat) as [|Hgt]; [done|].
    destruct (Hmin (Z.to_nat slot) k Hk); [lia|done]. }
  split; [lia|]. split.
  { by replace (Z.to_nat (Z.of_nat i + 1 - 1)) with i by lia. }
  split.
  { intros j Hj Hkj. destruct (Hmin (Z.to_nat (j - 1)) k Hkj); [lia|done]. }
  intros Hnd. pose proof (NoDup_lookup keys i (Z.to_nat slot) k Hnd Hi Hk). lia.
Qed.

Lemma key_number_position_witness :
  ["key-A"; "key-B"] ≠ []
  ∧ ∃ k, pick_api_key ["key-A"; "key-B"] 451 = Ret k
         ∧ key_number ["key-A"; "key-B"] k = Ret 2.
Proof.
  split; [done|].
  destruct (key_number_position ["key-A"; "key-B"] 451 ltac:(done))
    as (k & n & Hpick & Hn & _ & _ & _ & Hnd).
  exists k. split; [done|]. rewrite Hn. f_equal. apply Hnd.
  apply NoDup_cons. split; [|apply NoDup_singleton].
  by intros [=]%list_elem_of_singleton.
Defined.

(** ** What the model invoker returns *)

Lemma retry_loop_answer sc e prompt attempts w txt w' :
  retry_loop sc e prompt attempts w = Done txt w' →
  txt = EmptyString
  ∨ ∃ raw, svc e (hist w') = Text raw ∧ txt = Py.strip raw.
Proof.
  revert w. induction attempts as [|a rest IH]; intros w.
  - intros [= <- _]. by left.
  - rewrite retry_loop_cons, attempt_once_eq. cbv zeta.
    destruct (svc e (hist w ++ [EvGenerate prompt])) as [s|x] eqn:Hsvc.
    + destruct (sc_shape_ok sc (Py.strip s)).
      * intros [= <- <-]. right. by exists s.
      * apply IH.
    + apply IH.
Qed.

(** X5 — What the model invoker returns.  The invoker of either script
    returns the empty string if and only if all three attempts failed.
    Any other result passed the check of the script, has no blank at
    either end, and is the stripped text of the answer to the last request
    made; the requests are then one more than the failed attempts. *)
Theorem call_model_result (sc : script) (e : env) (prompt api_key : string)
  (w : world) :
  sc = HRrun.script ∨ sc = SWErun.script →
  ∃ txt evs,
    let w' := add_events w (EvConfigure api_key :: evs) in
    call_model sc e prompt api_key w = Done txt w'
    ∧ (txt = EmptyString ↔ failed_attempts evs = [1; 2; 3])
    ∧ (txt ≠ EmptyString →
       sc_shape_ok sc txt = true
       ∧ Py.strip txt = txt
       ∧ (∃ raw, svc e (hist w') = Text raw ∧ txt = Py.strip raw)
       ∧ length (requests evs) = S (length (failed_attempts evs))).
Proof.
  intros Hsc.
  assert (sc_shape_ok sc EmptyString = false) as Hempty
    by (by destruct Hsc as [-> | ->]).
  rewrite call_model_eq.
  destruct (retry_loop_trace sc e prompt (py_range 1 (MAX_RETRIES + 1))
              (add_events w [EvConfigure api_key])) as (txt & evs & Hrun & Htr).
  exists txt, evs. cbv zeta. rewrite Hrun, add_events_app.
  split; [done|].
  pose proof (retry_trace_result _ _ _ _ _ Htr) as Hres.
  pose proof (retry_trace_requests _ _ _ _ _ Htr) as [Hlen _].
  change (py_range 1 (MAX_RETRIES + 1)) with [1; 2; 3] in *.
  split; [split|].
  - intros ->. destruct Hres as [[_ ?]|[Hok _]]; [done|congruence].
  - intros Hall. destruct Hres as [[? _]|[_ Hreq]]; [done|].
    rewrite Hall in Hreq. simpl in *. lia.
  - intros Hne. destruct Hres as [[? _]|[Hok Hreq]]; [done|].
    split; [done|].
    apply retry_loop_answer in Hrun as [?|(raw & Hraw & ->)]; [done|].
    rewrite add_events_app in Hraw.
    split; [apply strip_idem|]. split; [by exists raw|done].
Qed.

Lemma call_model_result_witness :
  let e := Example.env_ok "20250601T000000Z" in
  ∃ evs, HRrun.call_model e "prompt" "key-A" Example.empty_dir
         = Done "<explanation>Strong profile.</explanation><top-3>2, 1</top-3>"
             (add_events Example.empty_dir (EvConfigure "key-A" :: evs))
         ∧ failed_attempts evs ≠ [1; 2; 3].
Proof.
  intros e.
  destruct (call_model_result HRrun.script e "prompt" "key-A" Example.empty_dir
              ltac:(by left)) as (txt & evs & Hrun & Hiff & _).
  assert (txt = "<explanation>Strong profile.</explanation><top-3>2, 1</top-3>")
    as Htxt.
  { cbv zeta in Hrun. vm_compute in Hrun. by injection Hrun as <- _. }
  exists evs. split; [by rewrite <- Htxt|].
  intros Hall. apply Hiff in Hall. by rewrite Htxt in Hall.
Defined.

(** ** The selection, seen from the list of candidates *)

Lemma first_occurrences_elem (l : list string) x :
  x ∈ Spec.first_occurrences l ↔ x ∈ l.
Proof.
  induction l as [|y l IH]; simpl; [done|].
  rewrite !elem_of_cons, list_elem_of_filter, IH.
  destruct (decide (x = y)); tauto.
Qed.

Lemma first_occurrences_NoDup (l : list string) :
  NoDup (Spec.first_occurrences l).
Proof.
  induction l as [|y l IH]; simpl; [constructor|].
  apply NoDup_cons. split; [|by apply NoDup_filter].
  rewrite list_elem_of_filter. by intros [? _].
Qed.



(** ** The identifier of a scenario *)

Lemma str_app_inv_tail s s' t : s +:+ t = s' +:+ t → s = s'.
Proof.
  intros Heq.
  assert (String.length s = String.length s') as Hlen.
  { apply (f_equal String.length) in Heq. rewrite !str_app_length in Heq. lia. }
  revert s' Heq Hlen. induction s as [|a s IH]; intros [|b s'] Heq Hlen;
    try done.
  rewrite !str_app_cons in Heq. injection Heq as -> Heq.
  f_equal. apply IH; [done|]. simpl in Hlen. lia.
Qed.

Lemma last_sep_unique sep v1 k1 v2 k2 :
  Spec.str_all (λ c, negb (bool_decide (c = sep))) k1 = true →
  Spec.str_all (λ c, negb (bool_decide (c = sep))) k2 = true →
  v1 +:+ String sep k1 = v2 +:+ String sep k2 →
  v1 = v2 ∧ k1 = k2.
Proof.
  intros Hk1 Hk2.
  assert (∀ v k k', Spec.str_all (λ c, negb (bool_decide (c = sep))) k' = true →
                    k' ≠ v +:+ String sep k) as Hno.
  { intros v k k' Hk' ->. rewrite str_all_app in Hk'.
    apply andb_true_iff in Hk' as [_ Hk']. simpl in Hk'.
    by rewrite bool_decide_eq_true_2 in Hk'. }
  revert v2. induction v1 as [|a v1 IH]; intros [|b v2]; simpl.
  - by intros [= ->].
  - intros [= <- Heq]. by destruct (Hno v2 k2 k1).
  - intros [= -> Heq]. by destruct (Hno v1 k1 k2).
  - intros [= -> Heq]. destruct (IH v2 Heq) as [-> ->]. done.
Qed.

(** X7 — A scenario identifier names one variant and one style.  When
    the style keys hold no underscore, two records of one script with the
    same [scenario_id] come from variants with the same [variant_id] and
    from the same style key. *)
Theorem scenario_id_injective (sc : script) (var1 var2 : variant)
  (style1 style2 : string) (prompt1 prompt2 resp1 resp2 : string)
  (parsed1 parsed2 : string * string * list string)
  (meta1 meta2 : list (list (string * json))) (stamp1 stamp2 : string) :
  Spec.str_all (λ c, negb (bool_decide (c = "_"%char))) style1 = true →
  Spec.str_all (λ c, negb (bool_decide (c = "_"%char))) style2 = true →
  scenario_id (record_of sc var1 style1 prompt1 resp1 parsed1 meta1 stamp1)
  = scenario_id (record_of sc var2 style2 prompt2 resp2 parsed2 meta2 stamp2) →
  variant_id var1 = variant_id var2 ∧ style1 = style2.
Proof.
  intros Hs1 Hs2. simpl. intros Heq.
  rewrite <- !str_app_assoc in Heq. do 2 apply str_app_inv_tail in Heq.
  rewrite !str_app_assoc in Heq.
  by apply (last_sep_unique "_"%char).
Qed.

Lemma scenario_id_injective_witness :
  let r1 := record_of HRrun.script
              {| variant_id := "sh0_b7_p1"; persona_ids := [] |} "formal"
              "" "" ("", "", []) [] "" in
  let r2 := record_of HRrun.script
              {| variant_id := "sh0_b7_p1"; persona_ids := ["pers_001"] |} "formal"
              "p" "r" ("", "", []) [] "t" in
  scenario_id r1 = "sh0_b7_p1_formal_hr"
  ∧ variant_id {| variant_id := "sh0_b7_p1"; persona_ids := [] |}
    = variant_id {| variant_id := "sh0_b7_p1"; persona_ids := ["pers_001"] |}.
Proof.
  intros r1 r2. split; [done|].
  apply (scenario_id_injective HRrun.script _ _ "formal" "formal"
           "" "p" "" "r" ("", "", []) ("", "", []) [] [] "" "t");
    done.
Defined.

(** ** The numbers shown to the model and the numbers read back *)

Lemma pretty_N_char_digit x :
  (x < 10)%N → Py.digit_val (pretty_N_char x) = Some (Z.of_N x).
Proof.
  intros Hx.
  assert (∃ n, x = N.of_nat n ∧ (n < 10)%nat) as (n & -> & Hn)
    by (exists (N.to_nat x); lia).
  do 10 (destruct n as [|n]; [reflexivity|]). lia.
Qed.

Lemma pretty_N_go_digits x s :
  Spec.str_all Py.is_digit s = true →
  Spec.str_all Py.is_digit (pretty_N_go x s) = true
  ∧ Spec.decimal_value (pretty_N_go x s) = Spec.decimal_value_go (Z.of_N x) s.
Proof.
  revert s. induction (N.lt_wf_0 x) as [x _ IH]; intros s Hs.
  destruct (decide (x = 0)%N) as [->|Hx]; [by rewrite pretty_N_go_0|].
  rewrite pretty_N_go_step by lia.
  pose proof (pretty_N_char_digit (x `mod` 10)%N
                ltac:(by apply N.mod_lt)) as Hd.
  destruct (IH (x `div` 10)%N ltac:(apply N.div_lt; lia)
              (String (pretty_N_char (x `mod` 10)) s)) as [IH1 IH2].
  { simpl. rewrite Hs, andb_true_r. unfold Py.is_digit. by rewrite Hd. }
  split; [done|]. rewrite IH2. simpl. rewrite Hd. simpl. f_equal.
  rewrite (N.div_mod x 10) at 3 by done. lia.
Qed.

Lemma pretty_N_go_nonempty x s : (0 < x)%N → pretty_N_go x s ≠ EmptyString.
Proof.
  revert s. induction (N.lt_wf_0 x) as [x _ IH]; intros s Hx.
  rewrite pretty_N_go_step by done.
  destruct (decide (x `div` 10 = 0)%N) as [->|Hq]; [by rewrite pretty_N_go_0|].
  apply IH; [apply N.div_lt; lia|].
  by apply N.neq_0_lt_0.
Qed.

(** [str(n)] for a positive [n] is a string of digits that reads back
    as [n]. *)
Lemma pretty_pos_digits (z : Z) :
  0 < z → digit_string (pretty z) ∧ Spec.decimal_value (pretty z) = z.
Proof.
  intros Hz. destruct z as [|p|p]; [lia| |lia].
  change (pretty (Z.pos p)) with (pretty_N_go (N.pos p) EmptyString).
  destruct (pretty_N_go_digits (N.pos p) EmptyString eq_refl) as [H1 H2].
  split; [split; [by apply pretty_N_go_nonempty|done]|].
  by rewrite H2.
Qed.

Lemma span_digits_all ds :
  Spec.str_all Py.is_digit ds = true →
  Spec.span_digits ds = (ds, EmptyString).
Proof.
  induction ds as [|a ds IH]; simpl; [done|].
  intros [Ha Hds]%andb_true_iff. by rewrite Ha, IH.
Qed.

Lemma integer_substrings_number ds :
  digit_string ds → Spec.integer_substrings ds = [ds].
Proof.
  intros [Hne Hds]. destruct ds as [|a ds]; [done|].
  simpl in Hds. apply andb_true_iff in Hds as [Ha Hds].
  unfold Spec.integer_substrings. simpl. rewrite Ha.
  rewrite digit_runs_cur by done. by rewrite span_digits_all.
Qed.

Lemma mapM_result_Forall2 {A B} (f : A → result B) (l : list A) ys :
  mapM f l = Ret ys → Forall2 (λ x y, f x = Ret y) l ys.
Proof.
  revert ys. induction l as [|x l IH]; intros ys.
  - intros [= <-]. constructor.
  - change (mapM f (x :: l))
      with (f x ≫= λ y, mapM f l ≫= λ k, mret (y :: k)).
    destruct (f x) as [y|?] eqn:Hy; [|done].
    destruct (mapM f l) as [k|?]; [|done].
    intros [= <-]. constructor; [done|]. by apply IH.
Qed.

Lemma join_lookup sep parts i p :
  parts !! i = Some p →
  ∃ pre post, Py.join sep parts = pre +:+ p +:+ post.
Proof.
  revert i. induction parts as [|p0 ps IH]; intros i Hi; [done|].
  destruct i as [|i]; simpl in Hi.
  - injection Hi as ->. exists EmptyString.
    destruct ps as [|q ps].
    + exists EmptyString. by rewrite str_app_nil_r.
    + by exists (sep +:+ Py.join sep (q :: ps)).
  - destruct (IH i Hi) as (pre & post & Hj).
    destruct ps as [|q ps]; [done|].
    exists (p0 +:+ sep +:+ pre), post.
    change (Py.join sep (p0 :: q :: ps))
      with (p0 +:+ sep +:+ Py.join sep (q :: ps)).
    by rewrite Hj, !str_app_assoc.
Qed.

(** X8 — The numbers shown and the numbers read.  The block of
    candidates shows the résumé of the persona at position [i] of
    [persona_ids] under the heading "### Candidate i+1", and an answer
    that names the number [i+1] selects this very persona. *)
Theorem candidate_number_round_trip (sc : script) (inp : inputs)
  (var : variant) (block : string) (i : nat) (pid : string) :
  candidates_block sc inp var = Ret block →
  persona_ids var !! i = Some pid →
  ∃ txt pre post,
    resume_text sc inp pid = Ret txt
    ∧ block = pre +:+ ("### Candidate " +:+ pretty (Z.of_nat i + 1)
                        +:+ NL +:+ txt) +:+ post
    ∧ parse_selection (pretty (Z.of_nat i + 1)) (persona_ids var) = Ret [pid].
Proof.
  unfold candidates_block. intros Hblock Hpid.
  destruct (mapM (resume_text sc inp) (persona_ids var)) as [txts|?] eqn:Hm;
    [|done].
  injection Hblock as <-. apply mapM_result_Forall2 in Hm.
  destruct (Forall2_lookup_l _ _ _ _ _ Hm Hpid) as (txt & Htxt & Hres).
  edestruct (join_lookup (NL +:+ Py.repeat_char "-" 80 +:+ NL)
               (imap (λ i txt, "### Candidate " +:+ pretty (Z.of_nat i + 1)
                               +:+ NL +:+ txt) txts) i)
    as (pre & post & Hjoin).
  { rewrite list_lookup_imap, Htxt. done. }
  exists txt, pre, post. split; [done|]. split; [exact Hjoin|].
  destruct (pretty_pos_digits (Z.of_nat i + 1)) as [Hd Hv]; [lia|].
  rewrite parse_selection_selection. unfold Spec.selection.
  rewrite integer_substrings_number by done. simpl. rewrite Hv.
  unfold Spec.resolve. rewrite bool_decide_eq_true_2.
  2:{ apply lookup_lt_Some in Hpid. unfold len. lia. }
  replace (Z.to_nat (Z.of_nat i + 1 - 1)) with i by lia.
  by rewrite Hpid.
Qed.

Lemma candidate_number_round_trip_witness :
  let var := {| variant_id := "sh0_b0_p0";
                persona_ids := ["pers_001"; "pers_002"] |} in
  ∃ block, candidates_block HRrun.script Example.inp var = Ret block
           ∧ parse_selection "2" (persona_ids var) = Ret ["pers_002"].
Proof.
  intros var.
  destruct (candidates_block HRrun.script Example.inp var) as [block|] eqn:Hb;
    [|by vm_compute in Hb].
  exists block. split; [done|].
  destruct (candidate_number_round_trip HRrun.script Example.inp var block 1
              "pers_002" Hb eq_refl) as (_ & _ & _ & _ & _ & Hsel).
  exact Hsel.
Defined.

(** ** The fallback of the split and the digit of the tag *)








(** ** Where the regions of an answer end *)

Lemma str_app_eq_nil s t : s +:+ t = EmptyString → s = EmptyString ∧ t = EmptyString.
Proof. destruct s; [done|]. by rewrite str_app_cons. Qed.

(** A lazy [.*?] stops at the first place where the rest of the pattern
    matches. *)
Lemma lazy_any_minimal fl k s c r c1 c2 s' :
  Re.lazy_any fl k s = Some (c, r) →
  c = c1 +:+ c2 → c2 ≠ EmptyString → s = c +:+ s' →
  k (c2 +:+ s') = None.
Proof.
  revert c c1. induction s as [|a s IH]; intros c c1; simpl.
  - destruct (k EmptyString); [|done]. intros [= <- _] Hc.
    symmetry in Hc. by apply str_app_eq_nil in Hc as [_ ->].
  - destruct (k (String a s)) eqn:Hk.
    { intros [= <- _] Hc. symmetry in Hc.
      by apply str_app_eq_nil in Hc as [_ ->]. }
    destruct (Re.dot_ok fl a); [|done].
    destruct (Re.lazy_any fl k s) as [[c' r']|] eqn:Hl; [|done].
    intros [= <- <-] Hc Hc2 Hs. rewrite str_app_cons in Hs.
    injection Hs as Hs. destruct c1 as [|b c1].
    + rewrite str_app_nil_l in Hc. subst c2.
      by rewrite str_app_cons, <- Hs.
    + rewrite str_app_cons in Hc. injection Hc as <- Hc.
      by eapply IH.
Qed.

Lemma match_here_lits t r s m gs rest :
  Re.match_here Re.S_I (Re.lits t ++ r) s = Some (m, gs, rest) →
  ∃ t' s1 m1,
    s = t' +:+ s1 ∧ Spec.same_tag t t'
    ∧ Re.match_here Re.S_I r s1 = Some (m1, gs, rest).
Proof.
  revert s m. induction t as [|c t IH]; intros s m.
  - intros H. by exists EmptyString, s, m.
  - change (Re.lits (String c t) ++ r) with (Re.Lit c :: (Re.lits t ++ r)).
    cbn [Re.match_here]. destruct s as [|a s]; [done|].
    destruct (Re.lit_ok Re.S_I c a) eqn:Hok; [|done].
    apply bool_decide_eq_true_1 in Hok.
    intros (m' & -> & H)%cons_m_Some.
    destruct (IH _ _ H) as (t' & s1 & m1 & -> & Ht & Hm).
    by exists (String a t'), s1, m1.
Qed.

Lemma search_match_here fl r s x :
  Re.search fl r s = Some x →
  ∃ pre s1, s = pre +:+ s1 ∧ Re.match_here fl r s1 = Some x.
Proof.
  induction s as [|a s IH]; simpl.
  - destruct (Re.match_here fl r EmptyString) eqn:Hm; [|done].
    intros [= <-]. by exists EmptyString, EmptyString.
  - destruct (Re.match_here fl r (String a s)) eqn:Hm.
    + intros [= <-]. by exists EmptyString, (String a s).
    + intros (pre & s1 & -> & H)%IH. by exists (String a pre), s1.
Qed.

Lemma lstrip_suffix s : ∃ l, s = l +:+ Py.lstrip s.
Proof.
  induction s as [|a s [l IH]]; simpl; [by exists EmptyString|].
  destruct (Py.is_space a); [|by exists EmptyString].
  exists (String a l). by rewrite str_app_cons, <- IH.
Qed.

Lemma rstrip_prefix s : ∃ r, s = Py.rstrip s +:+ r.
Proof.
  induction s as [|a s [r IH]]; simpl; [by exists EmptyString|].
  destruct (Py.rstrip s) as [|b u].
  - destruct (Py.is_space a).
    + by exists (String a s).
    + exists r. rewrite str_app_cons. by rewrite <- IH.
  - exists r. rewrite str_app_cons. by rewrite <- IH.
Qed.

Lemma strip_infix s : ∃ l r, s = l +:+ Py.strip s +:+ r.
Proof.
  destruct (lstrip_suffix s) as [l Hl].
  destruct (rstrip_prefix (Py.lstrip s)) as [r Hr].
  exists l, r. unfold Py.strip. by rewrite <- Hr.
Qed.

(** The groups that [EXPL_RE] captures at the first match. *)
Lemma search_EXPL_RE_minimal txt m gs rest :
  Re.search Re.S_I EXPL_RE txt = Some (m, gs, rest) →
  ∃ g1 g2,
    gs = [g1; g2]
    ∧ (∀ a t b, g1 = a +:+ t +:+ b → ¬ Spec.same_tag "</explanation>" t)
    ∧ (∀ a t b, g2 = a +:+ t +:+ b → ¬ Spec.same_tag "</top-3>" t).
Proof.
  intros (pre & s1 & _ & Hm)%search_match_here.
  unfold EXPL_RE in Hm.
  apply match_here_lits in Hm as (t1 & s2 & m1 & _ & _ & Hm).
  change ([Re.CapLazyAny] ++ ?r) with (Re.CapLazyAny :: r) in Hm.
  cbn [Re.match_here] in Hm.
  destruct (Re.lazy_any Re.S_I _ s2) as [[g1 [[m2 gs2] rest2]]|] eqn:Hl1;
    [|done].
  injection Hm as _ <- <-.
  destruct (lazy_any_sound _ _ _ _ _ Hl1) as (s3 & Hs2 & Hk1 & _).
  pose proof Hk1 as Hk1'.
  apply match_here_lits in Hk1' as (t2 & s4 & m3 & Hs3 & Ht2 & Hm).
  change ([Re.LazyAny] ++ ?r) with (Re.LazyAny :: r) in Hm.
  cbn [Re.match_here] in Hm.
  destruct (Re.lazy_any Re.S_I _ s4) as [[mid [[m4 gs4] rest4]]|] eqn:Hl2;
    [|done].
  injection Hm as _ <- <-.
  destruct (lazy_any_sound _ _ _ _ _ Hl2) as (s5 & Hs4 & Hk2 & _).
  apply match_here_lits in Hk2 as (t3 & s6 & m5 & Hs5 & Ht3 & Hm).
  change ([Re.CapLazyAny] ++ ?r) with (Re.CapLazyAny :: r) in Hm.
  cbn [Re.match_here] in Hm.
  destruct (Re.lazy_any Re.S_I _ s6) as [[g2 [[m6 gs6] rest6]]|] eqn:Hl3;
    [|done].
  injection Hm as _ <- <-.
  destruct (lazy_any_sound _ _ _ _ _ Hl3) as (s7 & Hs6 & Hk3 & _).
  pose proof Hk3 as Hk3'.
  rewrite <- (app_nil_r (Re.lits "</top-3>")) in Hk3'.
  apply match_here_lits in Hk3' as (t4 & s8 & m7 & Hs7 & Ht4 & Hm).
  simpl in Hm. injection Hm as _ <- <-.
  exists g1, g2. split; [done|]. split.
  - intros a t b Hg1 Ht.
    assert (t +:+ b ≠ EmptyString) as Hne by (by destruct t).
    pose proof (lazy_any_minimal _ _ _ _ _ a (t +:+ b) s3 Hl1 Hg1 Hne Hs2)
      as Hnone.
    assert (Matches Re.S_I
              (Re.lits "</explanation>" ++ [Re.LazyAny] ++ Re.lits "<top-3>"
               ++ [Re.CapLazyAny] ++ Re.lits "</top-3>")
              (t +:+ (b +:+ t2 +:+ mid) +:+ t3 +:+ g2 +:+ t4) [g2]) as HM.
    { apply Matches_lits_intro; [done|].
      apply (M_lazy Re.S_I (b +:+ t2 +:+ mid)); [apply dot_ok_S_I|].
      apply Matches_lits_intro; [done|].
      apply (M_cap Re.S_I g2); [apply dot_ok_S_I|].
      rewrite <- (app_nil_r (Re.lits "</top-3>")), <- (str_app_nil_r t4).
      apply Matches_lits_intro; [done|]. constructor. }
    destruct (match_here_complete Re.S_I _ _ _ s8 HM) as [x Hx].
    rewrite Hs3, Hs4, Hs5, Hs6, Hs7 in Hnone.
    rewrite ?str_app_assoc in Hx. rewrite ?str_app_assoc in Hnone. congruence.
  - intros a t b Hg2 Ht.
    assert (t +:+ b ≠ EmptyString) as Hne by (by destruct t).
    pose proof (lazy_any_minimal _ _ _ _ _ a (t +:+ b) s7 Hl3 Hg2 Hne Hs6)
      as Hnone.
    assert (Matches Re.S_I (Re.lits "</top-3>") t []) as HM.
    { rewrite <- (app_nil_r (Re.lits "</top-3>")), <- (str_app_nil_r t).
      apply Matches_lits_intro; [done|]. constructor. }
    destruct (match_here_complete Re.S_I _ _ _ (b +:+ s7) HM) as [x Hx].
    rewrite ?str_app_assoc in Hx. rewrite ?str_app_assoc in Hnone. congruence.
Qed.

(** X10 — Where the regions end.  The rationale that either script
    extracts holds no closing tag [</explanation>], and when the answer has
    the two elements the selection region holds no closing tag
    [</top-3>] (letters in any case): each region ends at the first
    closing tag after its start. *)
Theorem split_first_closing_tag (sc : script) (txt : string)
  (pids : list string) (rat selb : string) (sel : list string) :
  sc = HRrun.script ∨ sc = SWErun.script →
  sc_extract sc txt pids = Ret (rat, selb, sel) →
  (∀ a t b, rat = a +:+ t +:+ b → ¬ Spec.same_tag "</explanation>" t)
  ∧ ((∃ g1 g2, Spec.two_tags txt g1 g2) →
     ∀ a t b, selb = a +:+ t +:+ b → ¬ Spec.same_tag "</top-3>" t).
Proof.
  intros Hsc Hex.
  assert (∀ a t b, EmptyString = a +:+ t +:+ b →
                   ¬ Spec.same_tag "</explanation>" t) as Hempty.
  { intros a t b Heq. symmetry in Heq.
    apply str_app_eq_nil in Heq as [_ Heq].
    apply str_app_eq_nil in Heq as [-> _]. simpl. tauto. }
  assert (txt ≠ EmptyString → SWE.extract txt pids = Ret (rat, selb, sel)) as HS.
  { intros Hne. destruct Hsc as [-> | ->]; simpl in Hex; [|done].
    by rewrite HR_extract_eq, bool_decide_eq_true_2 in Hex. }
  destruct (decide (txt = EmptyString)) as [->|Hne].
  { assert (rat = EmptyString ∧ selb = EmptyString) as [-> ->].
    { destruct Hsc as [-> | ->]; vm_compute in Hex; by injection Hex as <- <- _. }
    split; [done|]. intros (g1 & g2 & Htags) a t b Heq. symmetry in Heq.
    apply str_app_eq_nil in Heq as [_ Heq].
    apply str_app_eq_nil in Heq as [-> _]. simpl. tauto. }
  specialize (HS Hne). rewrite SWE_extract_eq in HS.
  injection HS as <- <- _. unfold SWE.split_response.
  pose proof (search_EXPL_RE txt) as Htags.
  destruct (Re.search Re.S_I EXPL_RE txt) as [[[m gs] rest]|] eqn:Hs.
  2:{ simpl. split; [done|]. by intros ?. }
  destruct (search_EXPL_RE_minimal _ _ _ _ Hs) as (g1 & g2 & -> & H1 & H2).
  simpl. split.
  - intros a t b Heq. destruct (strip_infix g1) as (l & r & Hg1).
    apply (H1 (l +:+ a) t (b +:+ r)).
    rewrite Hg1 at 1. rewrite Heq. by rewrite !str_app_assoc.
  - intros _ a t b Heq. destruct (strip_infix g2) as (l & r & Hg2).
    apply (H2 (l +:+ a) t (b +:+ r)).
    rewrite Hg2 at 1. rewrite Heq. by rewrite !str_app_assoc.
Qed.

Lemma split_first_closing_tag_witness :
  let txt := "<explanation>a</explanation>b</explanation><top-3>1</top-3>2</top-3>" in
  HR.extract txt ["p"; "q"] = Ret ("a", "1", ["p"])
  ∧ ∀ a t b, "a" = a +:+ t +:+ b → ¬ Spec.same_tag "</explanation>" t.
Proof.
  intros txt. split; [reflexivity|].
  apply (split_first_closing_tag HRrun.script txt ["p"; "q"] "a" "1" ["p"]);
    [by left|reflexivity].
Defined.

(** ** The personas of a record *)

Lemma build_id2p_keys personas acc m :
  foldl id2p_add acc personas = Ret m →
  (∀ m0, acc = Ret m0 →
         ∀ s p, m0 !! s = Some p → p !! "persona_id" = Some (JStr s)) →
  ∀ s p, m !! s = Some p → p !! "persona_id" = Some (JStr s).
Proof.
  revert acc. induction personas as [|q personas IH]; intros acc; simpl.
  - intros -> Hacc. by apply Hacc.
  - intros Hfold Hacc. apply (IH _ Hfold).
    destruct acc as [m0|x]; [|done]. unfold id2p_add. simpl.
    destruct (q !! "persona_id") as [[| | |s0]|] eqn:Hq; try done;
      intros m1 [= <-]; try by apply Hacc.
    intros s p. destruct (decide (s0 = s)) as [->|Hne].
    + rewrite lookup_insert_eq. by intros [= <-].
    + rewrite lookup_insert_ne by done. by apply Hacc.
Qed.

(** X11 — The attributes logged with a record.  With the table of
    personas built as the scripts build it, [meta] has one entry for each
    identifier of [persona_ids], in the same order; the entry at position
    [i] gives as [persona_id] the identifier at position [i], followed by
    the six attributes of that persona, [None] for one that the persona
    lacks. *)
Theorem persona_meta_aligned (personas : list (gmap string json))
  (inp : inputs) (var : variant) (metas : list (list (string * json))) :
  build_id2p personas = Ret (id2p inp) →
  persona_meta_of inp var = Ret metas →
  length metas = length (persona_ids var)
  ∧ ∀ i pid, persona_ids var !! i = Some pid →
      ∃ p, id2p inp !! pid = Some p
           ∧ metas !! i
             = Some (("persona_id", JStr pid)
                       :: ((λ k, (k, default JNull (p !! k)))
                             <$> ["gender"; "race"; "religion"; "class";
                                  "lgbtq"; "marginalized"])).
Proof.
  intros Hbuild Hmeta. unfold persona_meta_of in Hmeta.
  apply mapM_result_Forall2 in Hmeta.
  split; [symmetry; by eapply Forall2_length|].
  intros i pid Hpid.
  destruct (Forall2_lookup_l _ _ _ _ _ Hmeta Hpid) as (m & Hm & Hres).
  destruct (id2p inp !! pid) as [p|] eqn:Hp; [|done].
  exists p. split; [done|]. rewrite Hm. f_equal.
  injection Hres as <-. unfold META_KEYS. rewrite fmap_cons. f_equal.
  rewrite (build_id2p_keys personas (Ret ∅) (id2p inp) Hbuild) with (s := pid);
    [done| |done].
  intros m0 [= <-] s q. by rewrite lookup_empty.
Qed.

Lemma persona_meta_aligned_witness :
  let people := [Example.persona "pers_001" "female";
                 Example.persona "pers_002" "male"] in
  let var := {| variant_id := "sh0_b0_p0";
                persona_ids := ["pers_002"; "pers_001"] |} in
  build_id2p people = Ret (id2p Example.inp)
  ∧ ∃ metas, persona_meta_of Example.inp var = Ret metas
             ∧ length metas = 2%nat.
Proof.
  intros people var.
  assert (build_id2p people = Ret (id2p Example.inp)) as Hb.
  { reflexivity. }
  split; [exact Hb|].
  destruct (persona_meta_of Example.inp var) as [metas|] eqn:Hm;
    [|by vm_compute in Hm].
  exists metas. split; [done|].
  by destruct (persona_meta_aligned people Example.inp var metas Hb Hm) as [-> _].
Defined.

(** ** A variant that names a persona that does not exist *)

Lemma mapM_result_exc {A B} (f : A → result B) (good : list A) a tail x :
  Forall (λ q, ∃ y, f q = Ret y) good → f a = Exc x →
  mapM f (good ++ a :: tail) = Exc x.
Proof.
  intros Hgood Ha. induction Hgood as [|q good [y Hy] _ IH].
  - change (mapM f ([] ++ a :: tail))
      with (f a ≫= λ y, mapM f tail ≫= λ k, mret (y :: k)).
    by rewrite Ha.
  - change (mapM f ((q :: good) ++ a :: tail))
      with (f q ≫= λ y, mapM f (good ++ a :: tail) ≫= λ k, mret (y :: k)).
    by rewrite Hy, IH.
Qed.

(** X12 — An unknown persona.  If the first variant names a persona
    that is not in the table (after personas that are there and have a
    résumé), [main] raises [KeyError] for it right after opening the log,
    provided it is not killed before: no request is made, nothing is
    appended, and the checkpoint is not touched.  This is so whatever the
    checkpoint says, even when all the scenarios of the variant are done,
    and in a dry run as well. *)
Theorem unknown_persona_raises (sc : script) (keys : list string)
  (inp : inputs) (e : env) (dry_run : bool) (w : world)
  (var : variant) (rest : list variant) (good : list string) (pid : string)
  (tail : list string) :
  variants inp = var :: rest →
  persona_ids var = good ++ pid :: tail →
  Forall (λ q, ∃ txt, resume_text sc inp q = Ret txt) good →
  id2p inp !! pid = None →
  1 ≤ sc_dry_run_limit sc →
  kill w ≠ Some 0%nat →
  ∃ w',
    main sc keys inp e dry_run w = Raised (KeyError pid) w'
    ∧ hist w' = hist w ++ [EvDisk (OpOpen (ts e))]
    ∧ dsk w' = apply_op (OpOpen (ts e)) (dsk w).
Proof.
  intros Hvars Hpids Hgood Hpid Hlimit Hkill.
  assert (candidates_block sc inp var = Exc (KeyError pid)) as Hblock.
  { unfold candidates_block. rewrite Hpids.
    rewrite (mapM_result_exc _ good pid tail (KeyError pid)); [done|done|].
    unfold resume_text. by rewrite Hpid. }
  unfold main. rewrite bind_eq.
  change (load_checkpoint w) with (Done (checkpoint_of (dsk w)) w).
  cbv beta iota. rewrite bind_eq, durable_eq.
  assert (∀ w1, variant_loop sc keys inp e dry_run 1 (variants inp)
                  (checkpoint_of (dsk w)) w1 = Raised (KeyError pid) w1) as Hloop.
  { intros w1. rewrite Hvars. cbn [variant_loop].
    rewrite (bool_decide_eq_false_2 (sc_dry_run_limit sc < 1)) by lia.
    rewrite andb_false_r, bind_eq, Hblock. done. }
  destruct (kill w) as [[|n]|]; [done| |]; cbv beta iota;
    rewrite bind_eq, Hloop; by eexists.
Qed.

Lemma unknown_persona_raises_witness :
  let var := {| variant_id := "sh0_b0_p0";
                persona_ids := ["pers_001"; "pers_404"] |} in
  let inp := {| variants := [var]; id2p := id2p Example.inp;
                style_items := style_items Example.inp |} in
  let w := {| dsk := {| logs := ∅; cp_file := Some {["done" := 3]} |};
              hist := []; kill := None |} in
  ∃ w', HRrun.main Example.keys inp (Example.env_ok "20250601T020000Z") false w
        = Raised (KeyError "pers_404") w'
        ∧ requests (hist w') = [].
Proof.
  intros var inp w.
  destruct (unknown_persona_raises HRrun.script Example.keys inp
              (Example.env_ok "20250601T020000Z") false w var []
              ["pers_001"] "pers_404" [])
    as (w' & Hmain & Hhist & _); try done.
  - repeat constructor. by eexists.
  - exists w'. split; [exact Hmain|]. by rewrite Hhist.
Defined.

(** ** A dry run *)

Section DryRun.

Context (sc : script) (KEY_LIST : list string) (inp : inputs) (e : env).

Hypothesis extract_total :
  ∀ resp pids, ∃ parsed, sc_extract sc resp pids = Ret parsed.

Local Abbreviation L := (len (style_items inp)).




End DryRun.



(** ** One line for each record *)

Lemma no_control_app s t : no_control s → no_control t → no_control (s +:+ t).
Proof. unfold no_control. intros Hs Ht. by rewrite str_all_app, Hs, Ht. Qed.

Lemma escape_char_clean c : no_control (escape_char c).
Proof. destruct c as [[] [] [] [] [] [] [] []]; reflexivity. Qed.

Lemma escape_clean s : no_control (escape s).
Proof.
  induction s as [|c s IH]; [done|]. simpl.
  apply no_control_app; [apply escape_char_clean|done].
Qed.

Lemma encode_basestring_clean s : no_control (encode_basestring s).
Proof.
  unfold encode_basestring.
  change (String QUOTE ?x) with (String QUOTE EmptyString +:+ x).
  apply no_control_app; [done|]. apply no_control_app; [apply escape_clean|done].
Qed.

Lemma pretty_Z_clean (z : Z) : no_control (pretty z).
Proof.
  assert (∀ p, no_control (pretty (N.pos p))) as Hpos.
  { intros p. change (pretty (N.pos p)) with (pretty_N_go (N.pos p) EmptyString).
    destruct (pretty_N_go_digits (N.pos p) EmptyString eq_refl) as [Hd _].
    revert Hd. apply str_all_impl. intros a.
    destruct a as [[] [] [] [] [] [] [] []]; done. }
  destruct z as [|p|p]; [done|apply Hpos|].
  change (pretty (Z.neg p)) with ("-" +:+ pretty (N.pos p)).
  apply no_control_app; [done|apply Hpos].
Qed.

Lemma join_clean sep parts :
  no_control sep → Forall no_control parts → no_control (Py.join sep parts).
Proof.
  intros Hsep HF. induction HF as [|p ps Hp _ IH]; [done|].
  destruct ps as [|q ps]; [done|].
  change (Py.join sep (p :: q :: ps)) with (p +:+ sep +:+ Py.join sep (q :: ps)).
  by repeat apply no_control_app.
Qed.

(** The text that [json.dumps] gives holds no control character,
    whatever the value. *)
Lemma json_dumps_clean : ∀ v, no_control (json_dumps v).
Proof.
  fix IH 1. intros [s|items|fields].
  - destruct s as [|[]|z|s]; [done|done|done|apply pretty_Z_clean|
      apply encode_basestring_clean].
  - cbn [json_dumps]. apply no_control_app; [done|].
    apply no_control_app; [|done]. apply join_clean; [done|].
    induction items as [|x items IHl]; [constructor|].
    rewrite fmap_cons. constructor; [apply IH|apply IHl].
  - cbn [json_dumps]. apply no_control_app; [done|].
    apply no_control_app; [|done]. apply join_clean; [done|].
    induction fields as [|[k x] fields IHl]; [constructor|].
    rewrite fmap_cons. constructor; [|apply IHl]. simpl.
    apply no_control_app; [apply encode_basestring_clean|].
    apply no_control_app; [done|apply IH].
Qed.

Lemma no_control_no_newline s :
  no_control s →
  Spec.str_all (λ c, negb (bool_decide (c = "010"%char))) s = true.
Proof.
  apply str_all_impl. intros a Ha.
  destruct (bool_decide_reflect (a = "010"%char)) as [->|]; done.
Qed.

(** X14 — One line for each record.  The text that [json.dumps] gives
    for a record holds no character below U+0020, hence no line break,
    although prompts and answers hold some.  So the text of a log, cut at
    its newlines, gives the texts of its records, one piece each and in
    order, and the empty piece after the last newline. *)
Theorem log_lines_records (lines : list (Z * record)) :
  Forall (λ l, no_control (json_dumps (record_json l.2))) lines
  ∧ Py.split "010"%char (log_text lines)
    = ((λ l, json_dumps (record_json l.2)) <$> lines) ++ [EmptyString].
Proof.
  split.
  - apply Forall_forall. intros l _. apply json_dumps_clean.
  - induction lines as [|l lines IH]; [done|].
    cbn [log_text foldr]. unfold record_line at 1. rewrite str_app_assoc.
    change (NL +:+ ?x) with (String "010"%char x).
    rewrite split_app_sep by apply no_control_no_newline, json_dumps_clean.
    fold (log_text lines). by rewrite IH.
Qed.

(** ** The order of strings *)

Lemma ascii_compare_N a b :
  Ascii.compare a b = N.compare (N_of_ascii a) (N_of_ascii b).
Proof. reflexivity. Qed.

Lemma str_compare_trans_lt s1 s2 s3 :
  String.compare s1 s2 ≠ Gt → String.compare s2 s3 ≠ Gt →
  String.compare s1 s3 ≠ Gt.
Proof.
  revert s2 s3. induction s1 as [|a s1 IH]; intros [|b s2] [|c s3]; simpl;
    try done.
  rewrite !ascii_compare_N.
  destruct (N.compare_spec (N_of_ascii a) (N_of_ascii b)) as [Hab|Hab|Hab];
    [|intros _|done].
  - apply (f_equal ascii_of_N) in Hab. rewrite !ascii_N_embedding in Hab.
    subst a.
    destruct (N.compare (N_of_ascii b) (N_of_ascii c)); [apply IH|done..].
  - destruct (N.compare_spec (N_of_ascii b) (N_of_ascii c)) as [Hbc|Hbc|Hbc];
      [| |done]; intros _.
    + rewrite <- Hbc. by rewrite (proj2 (N.compare_lt_iff _ _) Hab).
    + by rewrite (proj2 (N.compare_lt_iff _ _) (N.lt_trans _ _ _ Hab Hbc)).
Qed.

Lemma name_le_total role : Total (name_le role).
Proof.
  intros t1 t2. unfold name_le.
  destruct (String.leb_total (log_name role t1) (log_name role t2)) as [->| ->];
    [by left|by right].
Qed.

Lemma name_le_trans role : Transitive (name_le role).
Proof.
  intros t1 t2 t3. unfold name_le, String.leb.
  pose proof (str_compare_trans_lt (log_name role t1) (log_name role t2)
                (log_name role t3)) as Htr.
  destruct (String.compare (log_name role t1) (log_name role t2));
    destruct (String.compare (log_name role t2) (log_name role t3));
    destruct (String.compare (log_name role t1) (log_name role t3));
    try done; intros _ _; by destruct Htr.
Qed.

(** The last of the sorted names is the one that is above all others. *)
Lemma last_sorted_max role (l : list string) x :
  x ∈ l →
  (∀ y, y ∈ l → y ≠ x →
        String.ltb (log_name role y) (log_name role x) = true) →
  last (merge_sort (name_le role) l) = Some x.
Proof.
  intros Hx Hmax.
  pose proof (name_le_total role) as Htot.
  pose proof (name_le_trans role) as Htr.
  pose proof (StronglySorted_merge_sort (name_le role) l) as Hs.
  pose proof (merge_sort_Permutation (name_le role) l) as Hp.
  destruct (last (merge_sort (name_le role) l)) as [z|] eqn:Hlast.
  2:{ apply last_None in Hlast. rewrite Hlast in Hp.
      apply Permutation_nil_l in Hp. subst l. by apply elem_of_nil in Hx. }
  apply last_Some in Hlast as [s' Hs'].
  destruct (decide (z = x)) as [->|Hne]; [done|]. exfalso.
  assert (z ∈ l) as Hz.
  { rewrite <- Hp, Hs'. apply elem_of_app. right. apply list_elem_of_here. }
  assert (x ∈ s') as Hx'.
  { rewrite <- Hp, Hs' in Hx. apply elem_of_app in Hx as [|Hx]; [done|].
    apply list_elem_of_singleton in Hx. congruence. }
  rewrite Hs' in Hs.
  pose proof (StronglySorted_app_1_elem_of _ _ _ x z Hs Hx'
                ltac:(apply list_elem_of_here)) as Hle.
  specialize (Hmax z Hz Hne). unfold name_le, String.leb in Hle.
  unfold String.ltb in Hmax.
  rewrite String.compare_antisym in Hle.
  by destruct (String.compare (log_name role z) (log_name role x)).
Qed.

(** The logs of a directory after a process that writes to [t0] only. *)
Lemma apply_op_logs_other op d t t0 :
  match op with
  | OpOpen t' | OpAppend t' _ _ => t' = t0
  | _ => True
  end →
  t ≠ t0 → logs (apply_op op d) !! t = logs d !! t.
Proof.
  destruct op as [t'|t' i r|n|]; simpl; try done;
    intros -> Hne; by rewrite lookup_insert_ne.
Qed.

Lemma apply_op_logs_kept op d t :
  is_Some (logs d !! t) → is_Some (logs (apply_op op d) !! t).
Proof.
  destruct op as [t'|t' i r|n|]; simpl; try done; intros Hd;
    (destruct (decide (t' = t)) as [->|Hne];
     [by rewrite lookup_insert_eq|by rewrite lookup_insert_ne]).
Qed.

Lemma replay_logs_kept evs d t :
  is_Some (logs d !! t) → is_Some (logs (replay evs d) !! t).
Proof.
  revert d. induction evs as [|ev evs IH]; intros d Hd; [done|].
  rewrite replay_cons. apply IH. destruct ev; try done.
  by apply apply_op_logs_kept.
Qed.

Lemma replay_logs_other evs d t t0 :
  Forall (λ s, match s with
               | SOpen t' | SAppend t' _ => t' = t0
               | _ => True
               end) (steps evs) →
  t ≠ t0 → logs (replay evs d) !! t = logs d !! t.
Proof.
  revert d. induction evs as [|ev evs IH]; intros d HF Hne; [done|].
  rewrite replay_cons.
  destruct ev as [| | | |op| |]; simpl in HF;
    try (by apply IH); try (inversion HF; subst; by apply IH).
  destruct op as [t'|t' i r|n|]; inversion HF as [|?? Hs HF']; subst;
    rewrite IH by done; by apply (apply_op_logs_other _ _ t t0).
Qed.

(** X15 — The log that the analysis reads.  When an execution of a
    runner completes and the name of its log sorts after the names of the
    logs that were there (as it does for a later time stamp), [latest_log]
    returns this log, and this log holds the records of the scenarios
    above the checkpoint the execution started from, and no other.  The
    records written before an interruption are in an earlier file, which
    the analysis does not read. *)
Theorem analysis_reads_last_execution (sc : script) (keys : list string)
  (inp : inputs) (x : execution) (w : world) :
  sc = HRrun.script ∨ sc = SWErun.script →
  ending_of (run_process sc keys inp x w) = EDone →
  (∀ t, is_Some (logs (dsk w) !! t) →
        String.ltb (log_name (sc_role sc) t)
          (log_name (sc_role sc) (ts (ex_env x))) = true) →
  let d' := dsk (final (run_process sc keys inp x w)) in
  latest_log (sc_role sc) d' = Some (ts (ex_env x))
  ∧ file_indices d' (ts (ex_env x))
    = todo_from (checkpoint_of (dsk w)) (total inp).
Proof.
  intros Hsc Hend Hlater d'.
  pose proof (script_extract_total sc Hsc) as Htot.
  assert (logs (dsk w) !! ts (ex_env x) = None) as Hfresh.
  { destruct (logs (dsk w) !! ts (ex_env x)) as [f|] eqn:Hf; [|done].
    specialize (Hlater (ts (ex_env x)) (mk_is_Some _ _ Hf)).
    unfold String.ltb in Hlater.
    pose proof (String.compare_antisym (log_name (sc_role sc) (ts (ex_env x)))
                  (log_name (sc_role sc) (ts (ex_env x)))) as Ha.
    by destruct (String.compare _ _). }
  split; [|by apply run_process_own_file].
  destruct (run_process_progress sc keys inp Htot x w) as (evs & Hd & Hps).
  rewrite Hend in Hps. subst d'. rewrite Hd.
  inversion Hps as [|ss en Hpr Hen| |unlinked Hss]; subst; [done|].
  assert (Forall (λ s, match s with
                       | SOpen t' | SAppend t' _ => t' = ts (ex_env x)
                       | _ => True
                       end) (steps evs)) as Hown.
  { rewrite <- Hss. constructor; [done|]. apply Forall_app. split.
    - apply Forall_flat_map, Forall_forall. intros i _. by repeat constructor.
    - destruct unlinked; by repeat constructor. }
  apply last_sorted_max.
  - apply list_elem_of_fmap.
    assert (is_Some (logs (replay evs (dsk w)) !! ts (ex_env x))) as [f Hf].
    { clear Hown Hd Hps. revert Hss. generalize (dsk w).
      induction evs as [|ev evs IH]; intros d0 Hss; [done|].
      rewrite replay_cons.
      destruct ev as [| | | |op| |]; simpl in Hss; try (by apply IH).
      destruct op as [t'|t' i r|n|]; simpl in Hss; try done.
      injection Hss as -> _. apply replay_logs_kept. simpl.
      by rewrite lookup_insert_eq. }
    exists (ts (ex_env x), f). split; [done|]. by apply elem_of_map_to_list.
  - intros t Ht Hne. apply Hlater.
    apply list_elem_of_fmap in Ht as ([t' f] & -> & Hf).
    apply elem_of_map_to_list in Hf. simpl in *.
    rewrite (replay_logs_other evs (dsk w) t' (ts (ex_env x))) in Hf by done.
    by rewrite Hf.
Qed.

Lemma analysis_reads_last_execution_witness :
  let o1 := run_process HRrun.script Example.keys Example.inp
              (Example.first_run 3) Example.empty_dir in
  let o2 := run_process HRrun.script Example.keys Example.inp
              Example.second_run (final o1) in
  checkpoint_of (dsk (final o1)) = 1
  ∧ latest_log "hr" (dsk (final o2)) = Some "20250601T010000Z"
  ∧ file_indices (dsk (final o2)) "20250601T010000Z" = [2; 3].
Proof.
  intros o1 o2. split; [by vm_compute|].
  destruct (analysis_reads_last_execution HRrun.script Example.keys Example.inp
              Example.second_run (final o1)) as [H1 H2].
  - by left.
  - by vm_compute.
  - intros t [f Hf]. apply elem_of_map_to_list in Hf.
    apply (list_elem_of_fmap_2 fst) in Hf. simpl in Hf.
    replace ((map_to_list (logs (dsk (final o1)))).*1)
      with ["20250601T000000Z"] in Hf by (by vm_compute).
    apply list_elem_of_singleton in Hf as ->. reflexivity.
  - split; [exact H1|]. etrans; [exact H2|]. by vm_compute.
Defined.

(** ** The pooled counts *)

Lemma key_eq_sym a b : key_eq a b = key_eq b a.
Proof.
  destruct a as [|x|x|s], b as [|y|y|t]; simpl; try done;
    apply bool_decide_ext; split; congruence.
Qed.

Lemma key_eq_trans a b c :
  key_eq a b = true → key_eq b c = true → key_eq a c = true.
Proof.
  destruct a as [|x|x|s], b as [|y|y|t], c as [|z|z|u]; simpl; try done;
    rewrite !bool_decide_eq_true; try congruence;
    intros; subst;
    repeat match goal with b : bool |- _ => destruct b end;
    lia || congruence || done.
Qed.

Lemma counter_get_incr k c q :
  counter_get (counter_incr k c) q
  = counter_get c q + (if key_eq k q then 1 else 0).
Proof.
  induction c as [|[k' n] c IH]; simpl.
  - by destruct (key_eq k q).
  - destruct (key_eq k' k) eqn:Hk'k; simpl.
    + destruct (key_eq k' q) eqn:Hk'q.
      * rewrite key_eq_sym in Hk'k.
        by rewrite (key_eq_trans k k' q Hk'k Hk'q).
      * destruct (key_eq k q) eqn:Hkq; [|lia].
        by rewrite (key_eq_trans k' k q Hk'k Hkq) in Hk'q.
    + destruct (key_eq k' q) eqn:Hk'q; [|done].
      destruct (key_eq k q) eqn:Hkq; [|lia].
      rewrite key_eq_sym in Hkq.
      by rewrite (key_eq_trans k' q k Hk'q Hkq) in Hk'k.
Qed.

Lemma counter_total_incr k c :
  counter_total (counter_incr k c) = counter_total c + 1.
Proof.
  induction c as [|[k' n] c IH]; [done|]. cbn [counter_incr].
  destruct (key_eq k' k).
  - unfold counter_total. simpl. lia.
  - change (counter_total ((k', n) :: counter_incr k c))
      with (n + counter_total (counter_incr k c)).
    change (counter_total ((k', n) :: c)) with (n + counter_total c).
    rewrite IH. lia.
Qed.

Lemma init_tables_empty attr : default [] (init_tables !! attr) = [].
Proof.
  destruct (init_tables !! attr) as [c|] eqn:Hc; [|done].
  apply elem_of_list_to_map_2, list_elem_of_fmap in Hc as (a & [= _ ->] & _).
  done.
Qed.

Lemma table_get_incr a v t a' q :
  table_get (table_incr a v t) a' q
  = table_get t a' q
    + (if decide (a = a') then if key_eq v q then 1 else 0 else 0).
Proof.
  unfold table_get, table_incr. destruct (decide (a = a')) as [->|Hne].
  - rewrite lookup_insert_eq. simpl. apply counter_get_incr.
  - rewrite lookup_insert_ne by done. symmetry. apply Z.add_0_r.
Qed.

Lemma table_total_incr a v t a' :
  counter_total (default [] (table_incr a v t !! a'))
  = counter_total (default [] (t !! a')) + (if decide (a = a') then 1 else 0).
Proof.
  unfold table_incr. destruct (decide (a = a')) as [->|Hne].
  - rewrite lookup_insert_eq. simpl. apply counter_total_incr.
  - rewrite lookup_insert_ne by done. symmetry. apply Z.add_0_r.
Qed.

Lemma count_attrs_bounded meta is_sel attrs st :
  counts_bounded st → counts_bounded (foldl (count_attr meta is_sel) st attrs).
Proof.
  revert st. induction attrs as [|a attrs IH]; intros st Hst; [done|].
  simpl. apply IH. intros attr val. specialize (Hst attr val).
  unfold count_attr. simpl. rewrite table_get_incr.
  destruct is_sel; [rewrite table_get_incr|];
    destruct (decide (a = attr)); try destruct (key_eq _ val); lia.
Qed.

Lemma Ret_inj {A} (a b : A) : Ret a = Ret b → a = b.
Proof. by intros [=]. Qed.

Lemma count_meta_ret sel_set st meta :
  count_meta sel_set (Ret st) meta
  = match dict_get meta "persona_id" with
    | None => Exc (KeyError "persona_id")
    | Some pid =>
        Ret (foldl (count_attr meta
                      match pid with
                      | JStr s => bool_decide (s ∈ sel_set)
                      | _ => false
                      end) st ATTRIBUTES)
    end.
Proof. done. Qed.

Lemma count_meta_exc sel_set x metas :
  foldl (count_meta sel_set) (Exc x) metas = Exc x.
Proof. induction metas as [|m metas IH]; [done|]. simpl. apply IH. Qed.

Lemma count_metas_bounded sel_set metas st st' :
  foldl (count_meta sel_set) (Ret st) metas = Ret st' →
  counts_bounded st → counts_bounded st'.
Proof.
  revert st. induction metas as [|m metas IH]; intros st; cbn [foldl].
  - by intros [= <-].
  - destruct (count_meta sel_set (Ret st) m) as [st1|x] eqn:Hm;
      [|by rewrite count_meta_exc].
    intros Hrest Hst. apply (IH _ Hrest).
    rewrite count_meta_ret in Hm.
    destruct (dict_get m "persona_id") as [pid|]; [|done].
    apply Ret_inj in Hm. subst st1. by apply count_attrs_bounded.
Qed.

Lemma count_record_exc x recs : foldl count_record (Exc x) recs = Exc x.
Proof.
  induction recs as [|r recs IH]; [done|]. cbn [foldl].
  replace (count_record (Exc x) r) with (@Exc (tables * tables) x); [done|].
  symmetry. apply count_meta_exc.
Qed.

Lemma count_records_bounded recs st st' :
  foldl count_record (Ret st) recs = Ret st' → counts_bounded st → counts_bounded st'.
Proof.
  revert st. induction recs as [|r recs IH]; intros st; cbn [foldl].
  - by intros [= <-].
  - destruct (count_record (Ret st) r) as [st1|x] eqn:Hr;
      [|by rewrite count_record_exc].
    intros Hrest Hst. apply (IH _ Hrest).
    by eapply count_metas_bounded.
Qed.

Lemma count_attrs_total meta is_sel attrs st attr :
  appearances_total (foldl (count_attr meta is_sel) st attrs) attr
  = appearances_total st attr + len (filter (λ a, a = attr) attrs).
Proof.
  revert st. induction attrs as [|a attrs IH]; intros st.
  - unfold len. simpl. lia.
  - cbn [foldl]. rewrite IH. unfold appearances_total, count_attr. cbn [fst].
    rewrite table_total_incr, filter_cons.
    destruct (decide (a = attr)); unfold len; rewrite ?length_cons; lia.
Qed.

Lemma count_metas_total sel_set metas st st' attr :
  attr ∈ ATTRIBUTES →
  foldl (count_meta sel_set) (Ret st) metas = Ret st' →
  appearances_total st' attr = appearances_total st attr + len metas.
Proof.
  intros Hattr. revert st.
  induction metas as [|m metas IH]; intros st; cbn [foldl].
  - intros [= <-]. unfold len. simpl. lia.
  - destruct (count_meta sel_set (Ret st) m) as [st1|x] eqn:Hm;
      [|by rewrite count_meta_exc].
    intros Hrest. rewrite (IH _ Hrest).
    rewrite count_meta_ret in Hm.
    destruct (dict_get m "persona_id") as [pid|]; [|done].
    apply Ret_inj in Hm. subst st1. rewrite count_attrs_total.
    replace (len (filter (λ a, a = attr) ATTRIBUTES)) with 1.
    + unfold len. simpl. lia.
    + unfold ATTRIBUTES in *.
      repeat (apply elem_of_cons in Hattr as [->|Hattr]; [done|]).
      by apply elem_of_nil in Hattr.
Qed.

Lemma count_records_total recs st st' attr :
  attr ∈ ATTRIBUTES →
  foldl count_record (Ret st) recs = Ret st' →
  appearances_total st' attr = appearances_total st attr + shown recs.
Proof.
  intros Hattr. revert st.
  induction recs as [|r recs IH]; intros st; cbn [foldl].
  - intros [= <-]. simpl. lia.
  - destruct (count_record (Ret st) r) as [st1|x] eqn:Hr;
      [|by rewrite count_record_exc].
    intros Hrest. rewrite (IH _ Hrest).
    rewrite (count_metas_total _ _ _ _ _ Hattr Hr).
    change (shown (r :: recs)) with (len (persona_meta r) + shown recs). lia.
Qed.

(** The counting succeeds when every entry of [persona_meta] has a
    [persona_id]. *)
Lemma count_metas_ok sel_set metas st :
  Forall (λ m, is_Some (dict_get m "persona_id")) metas →
  ∃ st', foldl (count_meta sel_set) (Ret st) metas = Ret st'.
Proof.
  intros HF. revert st. induction HF as [|m metas [pid Hm] _ IH]; intros st.
  - by exists st.
  - cbn [foldl]. rewrite count_meta_ret, Hm. apply IH.
Qed.

Lemma compute_pooled_counts_ok recs :
  Forall (λ r, Forall (λ m, is_Some (dict_get m "persona_id"))
                 (persona_meta r)) recs →
  ∃ st, compute_pooled_counts recs = Ret st.
Proof.
  unfold compute_pooled_counts. generalize (init_tables, init_tables).
  intros st HF. revert st. induction HF as [|r recs Hr _ IH]; intros st.
  - by exists st.
  - cbn [foldl]. destruct (count_metas_ok (selected_persona_ids r) _ st Hr)
      as [st1 Hst1].
    change (count_record (Ret st) r)
      with (foldl (count_meta (selected_persona_ids r)) (Ret st)
              (persona_meta r)).
    rewrite Hst1. apply IH.
Qed.

(** X16 — No more selections than appearances.  In the tables that
    [compute_pooled_counts] returns, the count of selections of every
    value of every attribute is between 0 and the count of its
    appearances, so no selection rate is above 1. *)
Theorem pooled_counts_bounded (recs : list record) (apps sels : tables) :
  compute_pooled_counts recs = Ret (apps, sels) →
  ∀ attr val, 0 ≤ table_get sels attr val ≤ table_get apps attr val.
Proof.
  intros Hc. apply (count_records_bounded recs (init_tables, init_tables)
                      (apps, sels) Hc).
  intros attr val. unfold table_get. simpl. by rewrite init_tables_empty.
Qed.

(** X17 — Every attribute counts every candidate shown.  For each of the
    six attributes, the appearances counted for its values add up to the
    number of entries of [persona_meta] in the records read; a candidate
    without the attribute is counted under [None]. *)
Theorem pooled_counts_total (recs : list record) (apps sels : tables)
  (attr : string) :
  compute_pooled_counts recs = Ret (apps, sels) →
  attr ∈ ATTRIBUTES →
  counter_total (default [] (apps !! attr)) = shown recs.
Proof.
  intros Hc Hattr.
  pose proof (count_records_total recs (init_tables, init_tables) (apps, sels)
                attr Hattr Hc) as Htotal.
  unfold appearances_total in Htotal. cbn [fst] in Htotal.
  by rewrite Htotal, init_tables_empty.
Qed.

Lemma pooled_counts_bounded_witness :
  let meta pid gender :=
    [("persona_id", JStr pid); ("gender", JStr gender);
     ("marginalized", JBool false)] in
  let rec sel := {|
    scenario_id := "sh0_b0_p0_formal_hr"; role := "hr";
    prompt_style := "formal"; rec_persona_ids := ["pers_001"; "pers_002"];
    persona_meta := [meta "pers_001" "female"; meta "pers_002" "male"];
    prompt_text := "p"; response_text := "r"; rationale_text := "";
    selection_line := "1"; selected_persona_ids := sel;
    timestamp_utc := "2025-06-01T00:00:00Z" |} in
  ∃ apps sels,
    compute_pooled_counts [rec ["pers_001"]; rec []] = Ret (apps, sels)
    ∧ 0 ≤ table_get sels "gender" (JStr "female")
        ≤ table_get apps "gender" (JStr "female").
Proof.
  intros meta rec.
  destruct (compute_pooled_counts_ok [rec ["pers_001"]; rec []])
    as [[apps sels] Hc].
  { repeat constructor; by eexists. }
  exists apps, sels. split; [done|].
  by apply (pooled_counts_bounded [rec ["pers_001"]; rec []] apps sels).
Defined.

Lemma pooled_counts_total_witness :
  let meta pid gender :=
    [("persona_id", JStr pid); ("gender", JStr gender);
     ("marginalized", JBool false)] in
  let rec sel := {|
    scenario_id := "sh0_b0_p0_formal_hr"; role := "hr";
    prompt_style := "formal"; rec_persona_ids := ["pers_001"; "pers_002"];
    persona_meta := [meta "pers_001" "female"; meta "pers_002" "male"];
    prompt_text := "p"; response_text := "r"; rationale_text := "";
    selection_line := "1"; selected_persona_ids := sel;
    timestamp_utc := "2025-06-01T00:00:00Z" |} in
  ∃ apps sels,
    compute_pooled_counts [rec ["pers_001"]; rec []] = Ret (apps, sels)
    ∧ counter_total (default [] (apps !! "race")) = 4.
Proof.
  intros meta rec.
  destruct (compute_pooled_counts_ok [rec ["pers_001"]; rec []])
    as [[apps sels] Hc].
  { repeat constructor; by eexists. }
  exists apps, sels. split; [done|].
  rewrite (pooled_counts_total [rec ["pers_001"]; rec []] apps sels "race" Hc);
    [done|].
  unfold ATTRIBUTES. apply list_elem_of_further, list_elem_of_here.
Defined.

(** ** The activities on a résumé *)

(** X18 — Two activities on every résumé.  For any persona
    [activities_block] lists exactly two activities, one on each line
    after "- ".  A persona with no religious activity to its religion and
    without [lgbtq] equal to "yes" gets the block of an anonymous persona
    (the two neutral activities); a persona with [lgbtq] equal to "yes"
    has the LGBTQ+ activity among its two. *)
Theorem activities_block_two (p : gmap string json) :
  ∃ a1 a2,
    activities p = [a1; a2]
    ∧ activities_block p = "- " +:+ a1 +:+ NL +:+ "- " +:+ a2
    ∧ ((∀ r, p !! "religion" = Some (JStr r) → religious_acts r = None) →
       p !! "lgbtq" ≠ Some (JStr "yes") →
       activities_block p = anonymous_activities_block)
    ∧ (p !! "lgbtq" = Some (JStr "yes") → lgbtq_act ∈ [a1; a2]).
Proof.
  unfold activities_block, anonymous_activities_block, activities.
  destruct (p !! "religion") as [[| | |r]|] eqn:Hr;
    try destruct (religious_acts r) as [a|] eqn:Ha;
    destruct (p !! "lgbtq") as [[| | |v]|] eqn:Hl;
    try destruct (decide (v = "yes")) as [->|Hv];
    simpl; eexists _, _; (split; [reflexivity|]); (split; [reflexivity|]);
    (split; [|intros; simplify_eq; repeat constructor]);
    try (by intros _ ?); try done.
  all: try (intros Hnone _; by rewrite (Hnone r eq_refl) in Ha).
  all: try (apply list_elem_of_further, list_elem_of_here).
Qed.

Lemma activities_block_two_witness :
  let p : gmap string json :=
    {[ "religion" := JStr "muslim"; "lgbtq" := JStr "yes" ]} in
  p !! "lgbtq" = Some (JStr "yes")
  ∧ activities p = ["Helped set up chairs for mosque community events.";
                    lgbtq_act].
Proof.
  intros p. split; [reflexivity|].
  destruct (activities_block_two p) as (a1 & a2 & Hacts & _).
  rewrite Hacts. vm_compute in Hacts. by injection Hacts as <- <-.
Defined.

(** ** A record can be checked against itself *)

Lemma extract_selection sc resp pids rat selb sel :
  sc = HRrun.script ∨ sc = SWErun.script →
  sc_extract sc resp pids = Ret (rat, selb, sel) →
  parse_selection selb pids = Ret sel.
Proof.
  intros [-> | ->]; simpl.
  - unfold HR.extract. destruct (bool_decide (resp ≠ EmptyString)).
    + destruct (match Re.search Re.S_I EXPL_RE resp with
                | Some (_, [g1; g2], _) => (Py.strip g1, Py.strip g2)
                | _ => (EmptyString, resp)
                end) as [rat' selb'].
      destruct (parse_selection selb' pids) as [sel'|] eqn:Hp; [|done].
      simpl. by intros [= _ <- <-].
    + by intros [= _ <- <-].
  - unfold SWE.extract. destruct (SWE.split_response resp) as [rat' selb'].
    destruct (parse_selection selb' pids) as [sel'|] eqn:Hp; [|done].
    simpl. by intros [= _ <- <-].
Qed.

Lemma selection_subseteq line pids : Spec.selection line pids ⊆ pids.
Proof.
  intros pid. unfold Spec.selection.
  rewrite first_occurrences_elem, list_elem_of_omap.
  intros (v & _ & Hres). unfold Spec.resolve in Hres.
  case_bool_decide; [|done]. by eapply list_elem_of_lookup_2.
Qed.

(** X19 — A logged record is consistent with itself.  The record that
    either script appends for a scenario carries the role of the script
    and the [persona_ids] of the variant, has one entry of [persona_meta]
    for each of them, and its [selected_persona_ids] is what
    [parse_selection] gives on its own [selection_line] and
    [persona_ids]: a list without repetition of identifiers of
    [persona_ids]. *)
Theorem logged_record_consistent (sc : script) (keys : list string)
  (inp : inputs) (e : env) (var : variant) (block : string) (vi si : Z)
  (style_key tpl : string) (done : Z) (w : world) (d : Z) (w' : world) :
  sc = HRrun.script ∨ sc = SWErun.script →
  done < (vi - 1) * len (style_items inp) + si →
  scenario_step sc keys inp e var block vi si style_key tpl done w = Done d w' →
  ∃ rec,
    file_lines (dsk w') (ts e) = file_lines (dsk w) (ts e) ++ [(d, rec)]
    ∧ role rec = sc_role sc
    ∧ rec_persona_ids rec = persona_ids var
    ∧ length (persona_meta rec) = length (rec_persona_ids rec)
    ∧ parse_selection (selection_line rec) (rec_persona_ids rec)
      = Ret (selected_persona_ids rec)
    ∧ NoDup (selected_persona_ids rec)
    ∧ selected_persona_ids rec ⊆ rec_persona_ids rec.
Proof.
  intros Hsc Hlt Hstep.
  destruct (scenario_step_done sc keys inp e var block vi si style_key tpl
              done w d w' Hlt Hstep)
    as (api_key & resp & cevs & [[rat selb] sel] & meta & key_no & -> & _ & _
        & _ & _ & _ & Hex & Hmeta & _ & Hdsk).
  eexists (record_of sc var style_key (sc_render_prompt sc tpl block) resp
             (rat, selb, sel) meta (now e (hist w ++ cevs))).
  split.
  { rewrite Hdsk. unfold file_lines. simpl. by rewrite lookup_insert_eq. }
  split; [done|]. split; [done|]. simpl. split.
  { unfold persona_meta_of in Hmeta. apply mapM_result_Forall2 in Hmeta.
    symmetry. by eapply Forall2_length. }
  pose proof (extract_selection sc resp (persona_ids var) rat selb sel Hsc Hex)
    as Hsel.
  split; [done|].
  rewrite parse_selection_selection in Hsel. injection Hsel as <-.
  split; [apply first_occurrences_NoDup|apply selection_subseteq].
Qed.

Lemma logged_record_consistent_witness :
  let var := {| variant_id := "sh0_b0_p0";
                persona_ids := ["pers_001"; "pers_002"] |} in
  let o := scenario_step HRrun.script Example.keys Example.inp
             (Example.env_ok "20250601T050000Z") var "### Candidate 1" 1 1
             "terse" "{{candidates_block}}" 0 Example.empty_dir in
  0 < (1 - 1) * len (style_items Example.inp) + 1
  ∧ ∃ rec, file_lines (dsk (final o)) "20250601T050000Z" = [(1, rec)]
           ∧ parse_selection (selection_line rec) (rec_persona_ids rec)
             = Ret (selected_persona_ids rec).
Proof.
  intros var o. split; [done|].
  destruct o as [d w'|x w'|op w'] eqn:Ho; [|by vm_compute in Ho..].
  assert (d = 1) as -> by (vm_compute in Ho; by injection Ho as <- _).
  destruct (logged_record_consistent HRrun.script Example.keys Example.inp
              (Example.env_ok "20250601T050000Z") var "### Candidate 1" 1 1
              "terse" "{{candidates_block}}" 0 Example.empty_dir 1 w')
    as (rec & Hfile & _ & _ & _ & Hsel & _); [by left|done|exact Ho|].
  exists rec. by split.
Defined.


(** ** The cluster of a row *)

Lemma pretty_nonneg_digits (z : Z) :
  0 ≤ z → digit_string (pretty z) ∧ Spec.decimal_value (pretty z) = z.
Proof.
  intros Hz. destruct (decide (z = 0)) as [->|Hne]; [done|].
  apply pretty_pos_digits. lia.
Qed.

Lemma digit_not_space a : Py.is_digit a = true → Py.is_space a = false.
Proof. destruct a as [[] [] [] [] [] [] [] []]; done. Qed.

Lemma digit_not_underscore a :
  Py.is_digit a = true → negb (bool_decide (a = "_"%char)) = true.
Proof. destruct a as [[] [] [] [] [] [] [] []]; done. Qed.

Lemma rstrip_digits n : Spec.str_all Py.is_digit n = true → Py.rstrip n = n.
Proof.
  induction n as [|a n IH]; simpl; [done|].
  intros [Ha Hn]%andb_true_iff. rewrite (IH Hn).
  destruct n; [|done]. by rewrite (digit_not_space a Ha).
Qed.

Lemma int_digits_go_digits st acc n :
  n ≠ EmptyString → Spec.str_all Py.is_digit n = true →
  int_digits_go st acc n = Some (Spec.decimal_value_go acc n).
Proof.
  revert st acc. induction n as [|a n IH]; intros st acc Hne; [done|]. simpl.
  intros [Ha Hn]%andb_true_iff. unfold Py.is_digit in Ha.
  destruct (Py.digit_val a) as [d|]; [|done]. simpl.
  destruct n as [|b n]; [done|]. by apply IH.
Qed.

(** [int(n)] on a string of digits *)
Lemma int_text_digits n :
  digit_string n → int_text n = Ret (Spec.decimal_value n).
Proof.
  intros [Hne Hd]. unfold int_text, Py.strip.
  destruct n as [|a n]; [done|].
  pose proof Hd as Hd'. simpl in Hd'. apply andb_true_iff in Hd' as [Ha _].
  rewrite (lstrip_fix (String a n)) by (by apply digit_not_space).
  rewrite rstrip_digits by done.
  rewrite decide_False by (intros ->; done).
  rewrite decide_False by (intros ->; done).
  by rewrite int_digits_go_digits.
Qed.

(** X20 — The cluster of a row.  For a record of a variant that
    [compose_batches.py] named (shuffle [sh], batch [b_idx], permutation
    [perm]), whatever the prompt style and the script, the [batch_idx]
    that [load_flattened_runs] reads from [scenario_id] is [b_idx].  The
    number of the shuffle does not enter: batches at the same position of
    different shuffles get the same cluster. *)
Theorem batch_idx_ignores_shuffle (sc : script) (var : variant)
  (sh b_idx perm : Z) (style_key prompt resp : string)
  (parsed : string * string * list string)
  (meta : list (list (string * json))) (stamp : string) :
  0 ≤ sh → 0 ≤ b_idx → 0 ≤ perm →
  variant_id var = variant_name sh b_idx perm →
  batch_idx (scenario_id (record_of sc var style_key prompt resp parsed meta
                            stamp))
  = Ret b_idx.
Proof.
  intros Hsh Hb Hp Hvar. simpl. rewrite Hvar. unfold variant_name, batch_idx.
  destruct (pretty_nonneg_digits sh Hsh) as [[_ Hdsh] _].
  destruct (pretty_nonneg_digits b_idx Hb) as [Hdig Hvb].
  pose proof Hdig as [Hbne Hdb].
  assert (∀ n, Spec.str_all Py.is_digit n = true →
               Spec.str_all (λ c, negb (bool_decide (c = "_"%char))) n = true)
    as Hus.
  { intros n. apply str_all_impl, digit_not_underscore. }
  rewrite !str_app_assoc.
  change ("sh" +:+ ?x) with (String "s" (String "h" x)).
  change ("_b" +:+ ?x) with (String "_" (String "b" x)).
  change ("_p" +:+ ?x) with (String "_" (String "p" x)).
  change (String "s" (String "h" (pretty sh +:+ ?x)))
    with ((String "s" (String "h" (pretty sh))) +:+ x).
  rewrite split_app_sep by (simpl; by apply Hus).
  change (String "b" (pretty b_idx +:+ ?x))
    with ((String "b" (pretty b_idx)) +:+ x).
  rewrite split_app_sep by (simpl; by apply Hus).
  cbn [list_find]. rewrite decide_False by (by intros [? [=]]).
  cbn [fmap option_fmap option_map].
  rewrite decide_True by (by eexists).
  change (int_text (pretty b_idx) = Ret b_idx).
  by rewrite (int_text_digits _ Hdig), Hvb.
Qed.

Lemma batch_idx_ignores_shuffle_witness :
  let var sh := {| variant_id := variant_name sh 7 1; persona_ids := [] |} in
  let rec sh := record_of HRrun.script (var sh) "formal" "" "" ("", "", []) []
                  "" in
  scenario_id (rec 2) = "sh2_b7_p1_formal_hr"
  ∧ batch_idx (scenario_id (rec 2)) = Ret 7
  ∧ batch_idx (scenario_id (rec 9)) = Ret 7.
Proof.
  intros var rec. split; [reflexivity|]. split.
  - by apply (batch_idx_ignores_shuffle HRrun.script (var 2) 2 7 1).
  - by apply (batch_idx_ignores_shuffle HRrun.script (var 9) 9 7 1).
Defined.


(** ** The variants of compose_batches.py *)

Lemma take_add_drop {A} (n m : nat) (l : list A) :
  take (n + m) l = take n l ++ take m (drop n l).
Proof.
  revert l. induction n as [|n IH]; intros [|x l]; simpl; try done.
  - by rewrite take_nil.
  - by rewrite IH.
Qed.

(** Cutting a list into [k] pieces of length [b], from position [j * b]
    on, and joining the pieces again. *)
Lemma chunks_join {A} (b k j : nat) (l : list A) :
  mjoin ((λ i, take b (drop (i * b) l)) <$> seq j k)
  = take (k * b) (drop (j * b) l).
Proof.
  revert j. induction k as [|k IH]; intros j; simpl; [done|].
  rewrite IH, take_add_drop, drop_drop. do 3 f_equal. lia.
Qed.

Lemma base_batches_join ids :
  length ids = 110%nat → mjoin (base_batches ids) = ids.
Proof.
  intros Hlen. unfold base_batches. rewrite chunks_join. simpl.
  apply take_ge. lia.
Qed.

Lemma base_batches_lookup ids i base :
  base_batches ids !! i = Some base →
  base = take BATCH_SIZE (drop (i * BATCH_SIZE) ids) ∧ (i < NUM_BASE_BATCHES)%nat.
Proof.
  unfold base_batches. rewrite list_lookup_fmap.
  destruct (seq 0 NUM_BASE_BATCHES !! i) as [j|] eqn:Hj; [|done].
  apply lookup_seq in Hj as [-> Hi]. simpl. by intros [= <-].
Qed.

Lemma shown_in_app pid vs1 vs2 :
  shown_in pid (vs1 ++ vs2) = (shown_in pid vs1 + shown_in pid vs2)%nat.
Proof. unfold shown_in. by rewrite filter_app, length_app. Qed.

Lemma shown_in_join_imap pid c (f : nat → list string → list variant) ls :
  (∀ i l, shown_in pid (f i l) = if decide (pid ∈ l) then c else 0%nat) →
  shown_in pid (mjoin (imap f ls))
  = (c * length (filter (λ l, pid ∈ l) ls))%nat.
Proof.
  revert f. induction ls as [|l ls IH]; intros f Hf; simpl.
  - unfold shown_in. simpl. lia.
  - rewrite shown_in_app, Hf, (IH (f ∘ S)) by (intros; apply Hf).
    rewrite filter_cons. destruct (decide (pid ∈ l)); simpl; lia.
Qed.

Lemma shown_in_bind pid c {A} (g : A → list variant) (l : list A) :
  (∀ a, shown_in pid (g a) = c) →
  shown_in pid (l ≫= g) = (c * length l)%nat.
Proof.
  intros Hg. induction l as [|a l IH].
  - unfold shown_in. simpl. lia.
  - change ((a :: l) ≫= g) with (g a ++ (l ≫= g)).
    rewrite shown_in_app, Hg, IH. simpl. lia.
Qed.

(** An element of a join without repetition is in one piece. *)
Lemma join_NoDup_once (x : string) (ls : list (list string)) :
  NoDup (mjoin ls) → x ∈ mjoin ls →
  length (filter (λ l, x ∈ l) ls) = 1%nat.
Proof.
  induction ls as [|l ls IH]; simpl; [by intros _ ?%elem_of_nil|].
  intros (Hl & Hdisj & Hls)%NoDup_app Hx. rewrite filter_cons.
  destruct (decide (x ∈ l)) as [Hin|Hout]; simpl.
  - f_equal. apply length_zero_iff_nil, filter_Forall_none, Forall_forall.
    intros l' Hl' Hxl'. apply (Hdisj x Hin).
    apply list_elem_of_join. by exists l'.
  - apply IH; [done|]. apply elem_of_app in Hx as [|]; done.
Qed.

Section Compose.

Context (shuffle : nat → list string → list string).
Hypothesis shuffle_perm : ∀ n l, shuffle n l ≡ₚ l.

Lemma shown_in_permuted pid sh b base :
  shown_in pid (permuted_variant shuffle sh b base <$> seq 0 INBATCH_PERMS)
  = if decide (pid ∈ base) then INBATCH_PERMS else 0%nat.
Proof.
  unfold shown_in. simpl.
  rewrite !filter_cons, filter_nil. simpl.
  destruct (decide (pid ∈ base)) as [Hin|Hout].
  - rewrite !decide_True by (by rewrite shuffle_perm). done.
  - rewrite !decide_False by (by rewrite shuffle_perm). done.
Qed.

Lemma shown_in_round pid all_ids sh :
  length all_ids = 110%nat → NoDup all_ids → pid ∈ all_ids →
  shown_in pid (round_variants shuffle all_ids sh) = INBATCH_PERMS.
Proof.
  intros Hlen Hnd Hpid. unfold round_variants.
  rewrite (shown_in_join_imap pid INBATCH_PERMS)
    by (intros; apply shown_in_permuted).
  rewrite join_NoDup_once; [lia| |];
    rewrite base_batches_join by (by rewrite shuffle_perm);
    by rewrite shuffle_perm.
Qed.

Lemma round_variants_elem all_ids sh v :
  v ∈ round_variants shuffle all_ids sh →
  ∃ b perm,
    (b < NUM_BASE_BATCHES)%nat ∧ (perm < INBATCH_PERMS)%nat
    ∧ variant_id v = variant_name (Z.of_nat sh) (Z.of_nat b) (Z.of_nat perm)
    ∧ persona_ids v
      ≡ₚ take BATCH_SIZE
           (drop (b * BATCH_SIZE) (shuffle (sh * calls_per_round) all_ids)).
Proof.
  unfold round_variants. intros (vs & Hv & Hvs)%list_elem_of_join.
  apply elem_of_lookup_imap in Hvs as (b & base & -> & Hbase).
  apply base_batches_lookup in Hbase as [-> Hb].
  apply list_elem_of_fmap in Hv as (perm & -> & Hperm).
  apply elem_of_seq in Hperm.
  exists b, perm. split; [done|]. split; [lia|]. split; [done|].
  simpl. apply shuffle_perm.
Qed.

Lemma round_variants_length all_ids sh :
  length (round_variants shuffle all_ids sh) = 30%nat.
Proof. reflexivity. Qed.

End Compose.

(** X21 — Every persona is shown equally often.  Whatever the shuffles
    do, as long as each permutes its list: with other than 110 identifiers
    the assertion of [compose_batches.py] fails; with 110 distinct ones the
    script saves 300 variants (10 rounds of 10 batches in 3 orders), their
    names are distinct, each holds 11 distinct identifiers of the list,
    and every persona is in exactly 30 of them. *)
Theorem compose_batches_balanced (shuffle : nat → list string → list string)
  (all_ids : list string) :
  (∀ n l, shuffle n l ≡ₚ l) → NoDup all_ids →
  (length all_ids ≠ 110%nat → compose_batches shuffle all_ids = None)
  ∧ (length all_ids = 110%nat →
     ∃ vs,
       compose_batches shuffle all_ids = Some vs
       ∧ length vs = 300%nat
       ∧ NoDup (variant_id <$> vs)
       ∧ Forall (λ v, length (persona_ids v) = 11%nat
                      ∧ NoDup (persona_ids v)
                      ∧ persona_ids v ⊆ all_ids) vs
       ∧ ∀ pid, pid ∈ all_ids → shown_in pid vs = 30%nat).
Proof.
  intros Hperm Hnd. unfold compose_batches. split.
  { intros Hlen. by rewrite decide_False. }
  intros Hlen. rewrite decide_True by done. eexists. split; [done|].
  split; [reflexivity|]. split.
  { apply (bool_decide_unpack _). by vm_compute. }
  split.
  - apply Forall_forall. intros v (sh & Hv & Hsh)%list_elem_of_bind.
    apply (round_variants_elem shuffle Hperm) in Hv
      as (b & perm & Hb & _ & _ & Hids).
    set (ids := shuffle (sh * calls_per_round)%nat all_ids) in *.
    assert (NoDup ids) as Hnd' by (unfold ids; by rewrite Hperm).
    assert (length ids = 110%nat) as Hlen' by (unfold ids; by rewrite Hperm).
    rewrite Hids. split; [|split].
    + rewrite length_take, length_drop. unfold BATCH_SIZE, NUM_BASE_BATCHES in *.
      lia.
    + eapply sublist_NoDup; [|apply sublist_take].
      eapply sublist_NoDup; [done|apply sublist_drop].
    + intros pid Hpid%subseteq_take%subseteq_drop.
      unfold ids in Hpid. by rewrite Hperm in Hpid.
  - intros pid Hpid.
    rewrite (shown_in_bind pid INBATCH_PERMS)
      by (intros; by apply shown_in_round).
    reflexivity.
Qed.

Lemma compose_batches_balanced_witness :
  let all_ids := (λ i, "pers_" +:+ pretty i) <$> seq 1 110 in
  ∃ vs, compose_batches (λ _ l, reverse l) all_ids = Some vs
        ∧ shown_in "pers_7" vs = 30%nat.
Proof.
  intros all_ids.
  destruct (compose_batches_balanced (λ _ l, reverse l) all_ids)
    as [_ (vs & Hvs & _ & _ & _ & Hshown)].
  - intros _ l. apply reverse_Permutation.
  - apply (bool_decide_unpack _). by vm_compute.
  - reflexivity.
  - exists vs. split; [done|]. apply Hshown.
    apply (bool_decide_unpack _). by vm_compute.
Defined.
(** X22 — The persona file is the full design.  The script writes 110
    personas with pairwise distinct identifiers; for every choice of
    gender, race, religion, class and LGBTQ value from the five pools
    exactly one persona has these attributes, and it is flagged as
    marginalized exactly when [compute_marginalized] says so for them; the
    remaining 14 personas have all five attributes null and are not
    flagged. *)
Theorem generated_personas_design :
  length generated_personas = 110%nat
  ∧ length generated_ids = 110%nat
  ∧ NoDup generated_ids
  ∧ (∀ g r rel cl l,
       g ∈ genders → r ∈ races → rel ∈ religions → cl ∈ classes →
       l ∈ lgbtq_vals →
       ∃ p, with_attributes g r rel cl l generated_personas = [p]
         ∧ dict_get p "marginalized"
           = Some (JBool (compute_marginalized (JStr g) (JStr r) (JStr rel)
                            (JStr cl) (JStr l))))
  ∧ length (filter (λ p, dict_get p "gender" = Some JNull
                         ∧ dict_get p "race" = Some JNull
                         ∧ dict_get p "religion" = Some JNull
                         ∧ dict_get p "class" = Some JNull
                         ∧ dict_get p "lgbtq" = Some JNull
                         ∧ dict_get p "marginalized" = Some (JBool false))
              generated_personas) = NUM_NEUTRAL.
Proof.
  split; [by vm_compute|].
  split; [by vm_compute|].
  split; [by apply (bool_decide_unpack _); vm_compute|].
  split; [|by vm_compute].
  intros g r rel cl l Hg Hr Hrel Hcl Hl.
  unfold genders, races, religions, classes, lgbtq_vals in *.
  repeat match goal with
         | H : _ ∈ _ :: _ |- _ => apply elem_of_cons in H as [->|H]
         | H : _ ∈ [] |- _ => by apply elem_of_nil in H
         end;
    (eexists; split; [by vm_compute|by vm_compute]).
Qed.

Lemma generated_personas_design_witness :
  ∃ p, with_attributes "female" "black" "muslim" "lower" "no"
         generated_personas = [p]
    ∧ dict_get p "marginalized" = Some (JBool true).
Proof.
  destruct generated_personas_design as (_ & _ & _ & H & _).
  apply (H "female" "black" "muslim" "lower" "no");
    apply (bool_decide_unpack _); by vm_compute.
Defined.
